(** * The djbdns cache engine (cache.c): a shallow embedding and its properties

    The cache is one byte arena that holds a table of hash-bucket heads
    followed by two regions of entries.  Entries of one bucket form a list
    whose links are the xor of the positions of the two neighbours.  The
    development models the arena as a list of bytes, the 32-bit cursors as
    integers with their wrap-around written out, and the effects of the
    code (process exit, the clock, the allocator) explicitly. *)

From Stdlib Require Import ZArith Zbitwise List Lia Bool QArith.
From coqutil Require Import Byte Word.LittleEndianList.
Import ListNotations.
Local Open Scope Z_scope.

(** * The model *)

(** ** Machine integers *)

Definition u32 (z : Z) : Z := z mod 2 ^ 32.
Definition u64 (z : Z) : Z := z mod 2 ^ 64.

(** ** Byte packing (uint32.h, tai.h) *)

(** Modelled from the spec: [uint32_pack] and [uint32_unpack] (uint32.h is
    not among the sources) store a 32-bit integer in four bytes, least
    significant byte first. *)
Definition uint32_pack (u : Z) : list byte := le_split 4 u.
Definition uint32_unpack (s : list byte) : Z := le_combine s.

(** Modelled from the spec: [tai_pack] and [tai_unpack] (tai.h is not among
    the sources) store the 64-bit count of seconds in eight bytes, most
    significant byte first; unpacking a packed instant gives it back. *)
Definition tai_pack (t : Z) : list byte := rev (le_split 8 t).
Definition tai_unpack (s : list byte) : Z := le_combine (rev s).

(** ** The arena: a buffer of bytes addressed by offset *)

Definition arena := list byte.

Definition in_range (m : arena) (p n : Z) : bool :=
  (0 <=? p) && (0 <=? n) && (p + n <=? Z.of_nat (length m)).

(** [load m p n]: the [n] bytes at offset [p], when they lie in the buffer. *)
Definition load (m : arena) (p n : Z) : option (list byte) :=
  if in_range m p n
  then Some (firstn (Z.to_nat n) (skipn (Z.to_nat p) m))
  else None.

(** [store m p bs]: the buffer with [bs] written at offset [p], when the
    written bytes lie in the buffer. *)
Definition store (m : arena) (p : Z) (bs : list byte) : option arena :=
  if in_range m p (Z.of_nat (length bs))
  then Some (firstn (Z.to_nat p) m ++ bs ++ skipn (Z.to_nat p + length bs) m)
  else None.

(** ** Outcomes of a run

    [Exit111] is [cache_impossible] ends the process with status 111; [Fault]
    is an access outside the allocated buffer (undefined behaviour in C);
    [Timeout] is a loop or recursion of the model that ran out of fuel. *)

Inductive res (A : Type) : Type :=
| Ret (a : A)
| Exit111
| Fault
| Timeout.
Arguments Ret {A} a.
Arguments Exit111 {A}.
Arguments Fault {A}.
Arguments Timeout {A}.

Definition bind {A B} (r : res A) (k : A -> res B) : res B :=
  match r with
  | Ret a => k a
  | Exit111 => Exit111
  | Fault => Fault
  | Timeout => Timeout
  end.

Notation "x <- e ;; k" := (bind e (fun x => k))
  (at level 61, e at next level, right associativity).
Notation "' p <- e ;; k" := (bind e (fun p => k))
  (at level 61, p pattern, e at next level, right associativity).

(** ** Double-precision arithmetic

    The sizer and the remaining time to live are computed in C [double]s.
    The model is stated over any arithmetic with the two facts about the
    conversion of integers that IEEE 754 binary64 has: integers below 2^53
    convert exactly and the conversion is monotone, and an integer that fits
    32 bits survives the round trip. *)

Class Double : Type := {
  double : Type;
  d_of_Z : Z -> double;
  d_lit : Z -> Z -> double;
  d_add : double -> double -> double;
  d_mul : double -> double -> double;
  d_div : double -> double -> double;
  d_ltb : double -> double -> bool;
  d_nonzero : double -> bool;
  d_to_uint : double -> Z;
  d_ltb_of_Z : forall a b,
    0 <= a < 2 ^ 53 -> 0 <= b < 2 ^ 64 ->
    d_ltb (d_of_Z a) (d_of_Z b) = (a <? b);
  d_to_uint_of_Z : forall a, 0 <= a < 2 ^ 32 -> d_to_uint (d_of_Z a) = a
}.

(** ** Constants of cache.c *)

Definition MAXKEYLEN : Z := 1000.
Definition MAXDATALEN : Z := 1000000.
Definition MAXCACHESIZE : Z := 1000000000.
Definition MINCACHESIZE : Z := 100.
Definition DEFAULT_TARGET_CYCLETIME : Z := 86400.
Definition MAXTTL : Z := 604800.

(** ** Time (tai.h, taia.h) *)

(** Modelled from the spec: [struct tai] is a 64-bit count of seconds and
    [struct taia] adds nanoseconds and attoseconds; neither header is among
    the sources.  The clock is read through [time] and [gettimeofday]. *)
Record taia : Type := { sec : Z; nano : Z; atto : Z }.
Record timeval : Type := { tv_sec : Z; tv_usec : Z }.

Definition tai_of_unix (s : Z) : Z := u64 (4611686018427387914 + s).
Definition tai_uint (u : Z) : Z := u.
Definition tai_add (u v : Z) : Z := u64 (u + v).
Definition tai_sub (u v : Z) : Z := u64 (u - v).
Definition tai_less (t u : Z) : bool := t <? u.

Definition taia_of_timeval (tv : timeval) : taia :=
  {| sec := tai_of_unix (tv_sec tv);
     nano := u64 (1000 * tv_usec tv + 500);
     atto := 0 |}.

Definition taia_sub (u v : taia) : taia :=
  let unano := nano u in
  let uatto := atto u in
  let tsec := u64 (sec u - sec v) in
  let tnano := u64 (unano - nano v) in
  let tatto := u64 (uatto - atto v) in
  let '(tatto, tnano) :=
    if tatto >? uatto then (u64 (tatto + 1000000000), u64 (tnano - 1))
    else (tatto, tnano) in
  let '(tnano, tsec) :=
    if tnano >? unano then (u64 (tnano + 1000000000), u64 (tsec - 1))
    else (tnano, tsec) in
  {| sec := tsec; nano := tnano; atto := tatto |}.

(** ** The world outside the cache

    [clock] lists the readings the time source will give, [heap] whether
    the coming allocations succeed, [junk] what fresh memory holds;
    [stdout] collects the resize log, [g_cache_motion] is the global
    counter and [is_default] tells whether the instance at hand is
    [default_cache]. *)
Record world : Type := {
  clock : nat -> timeval;
  heap : nat -> bool;
  junk : nat -> byte;
  stdout : list (Z * Z);
  g_cache_motion : Z;
  is_default : bool
}.

Definition tick (w : world) : timeval * world :=
  (clock w O,
   {| clock := fun n => clock w (S n); heap := heap w; junk := junk w;
      stdout := stdout w; g_cache_motion := g_cache_motion w;
      is_default := is_default w |}).

Definition tai_now (w : world) : Z * world :=
  let '(tv, w) := tick w in (tai_of_unix (tv_sec tv), w).

Definition taia_now (w : world) : taia * world :=
  let '(tv, w) := tick w in (taia_of_timeval tv, w).

(** Modelled from the spec: [alloc] (alloc.h is not among the sources)
    returns a fresh buffer of the requested length, or null. *)
Definition alloc (n : Z) (w : world) : option arena * world :=
  (if heap w O then Some (map (junk w) (seq 0 (Z.to_nat n))) else None,
   {| clock := clock w; heap := fun n => heap w (S n); junk := junk w;
      stdout := stdout w; g_cache_motion := g_cache_motion w;
      is_default := is_default w |}).

Definition log_cache_resize (oldsize newsize : Z) (w : world) : world :=
  {| clock := clock w; heap := heap w; junk := junk w;
     stdout := stdout w ++ [(oldsize, newsize)];
     g_cache_motion := g_cache_motion w; is_default := is_default w |}.

Definition add_global_motion (n : Z) (w : world) : world :=
  {| clock := clock w; heap := heap w; junk := junk w; stdout := stdout w;
     g_cache_motion := u64 (g_cache_motion w + n);
     is_default := is_default w |}.

(** Modelled from the spec: [byte_zero], [byte_copy] and [byte_equal]
    (byte.h is not among the sources) fill, copy and compare [n] bytes;
    touching bytes outside the buffer is a [Fault]. *)
Definition byte_zero (m : arena) (n : Z) : res arena :=
  match store m 0 (repeat Byte.x00 (Z.to_nat n)) with
  | Some m' => Ret m'
  | None => Fault
  end.

Definition byte_copy (m : arena) (p : Z) (bs : list byte) : res arena :=
  match store m p bs with
  | Some m' => Ret m'
  | None => Fault
  end.

Definition peek (m : arena) (p n : Z) : res (list byte) :=
  match load m p n with
  | Some bs => Ret bs
  | None => Fault
  end.

Fixpoint bytes_eqb (a b : list byte) : bool :=
  match a, b with
  | [], [] => true
  | x :: a', y :: b' => Byte.eqb x y && bytes_eqb a' b'
  | _, _ => false
  end.

Definition byte_equal (key : list byte) (n : Z) (m : arena) (p : Z) : res bool :=
  bs <- peek m p n ;; Ret (bytes_eqb key bs).

(** ** The cache instance (struct cache) *)

Section Model.
Context {FP : Double}.

Definition tai_approx (t : Z) : double := d_of_Z t.

Definition taia_frac (t : taia) : double :=
  d_mul (d_add (d_mul (d_of_Z (atto t)) (d_lit 1 (-9))) (d_of_Z (nano t)))
        (d_lit 1 (-9)).

Definition taia_approx (t : taia) : double :=
  d_add (tai_approx (sec t)) (taia_frac t).

(** Modelled from the spec: [ttl_stats] and [cache_options] are declared in
    cache.h, which is not among the sources: the statistics are
    [{count, total, min, max}] and the options
    [{allow_resize, target_cycle_time, resize_callback}]. *)
Record ttl_stats : Type := {
  ttl_count : Z;
  ttl_total : Z;
  ttl_min : Z;
  ttl_max : Z
}.

Record cache_options : Type := {
  allow_resize : bool;
  target_cycle_time : Z;
  resize_callback : option (double -> Z -> Z -> ttl_stats -> bool -> bool)
}.

Record cycle_t : Type := {
  start : taia;
  last_ratio : double;
  ttl : ttl_stats
}.

Record cache : Type := {
  c_x : option arena;
  c_size : Z;
  c_hsize : Z;
  c_writer : Z;
  c_oldest : Z;
  c_unused : Z;
  c_cache_motion : Z;
  c_cycle : cycle_t;
  c_options : cache_options
}.

Definition set_x (v : option arena) (c : cache) : cache :=
  {| c_x := v; c_size := c_size c; c_hsize := c_hsize c;
     c_writer := c_writer c; c_oldest := c_oldest c; c_unused := c_unused c;
     c_cache_motion := c_cache_motion c; c_cycle := c_cycle c;
     c_options := c_options c |}.

Definition set_size (v : Z) (c : cache) : cache :=
  {| c_x := c_x c; c_size := v; c_hsize := c_hsize c;
     c_writer := c_writer c; c_oldest := c_oldest c; c_unused := c_unused c;
     c_cache_motion := c_cache_motion c; c_cycle := c_cycle c;
     c_options := c_options c |}.

Definition set_hsize (v : Z) (c : cache) : cache :=
  {| c_x := c_x c; c_size := c_size c; c_hsize := v;
     c_writer := c_writer c; c_oldest := c_oldest c; c_unused := c_unused c;
     c_cache_motion := c_cache_motion c; c_cycle := c_cycle c;
     c_options := c_options c |}.

Definition set_writer (v : Z) (c : cache) : cache :=
  {| c_x := c_x c; c_size := c_size c; c_hsize := c_hsize c;
     c_writer := v; c_oldest := c_oldest c; c_unused := c_unused c;
     c_cache_motion := c_cache_motion c; c_cycle := c_cycle c;
     c_options := c_options c |}.

Definition set_oldest (v : Z) (c : cache) : cache :=
  {| c_x := c_x c; c_size := c_size c; c_hsize := c_hsize c;
     c_writer := c_writer c; c_oldest := v; c_unused := c_unused c;
     c_cache_motion := c_cache_motion c; c_cycle := c_cycle c;
     c_options := c_options c |}.

Definition set_unused (v : Z) (c : cache) : cache :=
  {| c_x := c_x c; c_size := c_size c; c_hsize := c_hsize c;
     c_writer := c_writer c; c_oldest := c_oldest c; c_unused := v;
     c_cache_motion := c_cache_motion c; c_cycle := c_cycle c;
     c_options := c_options c |}.

Definition set_cache_motion (v : Z) (c : cache) : cache :=
  {| c_x := c_x c; c_size := c_size c; c_hsize := c_hsize c;
     c_writer := c_writer c; c_oldest := c_oldest c; c_unused := c_unused c;
     c_cache_motion := v; c_cycle := c_cycle c;
     c_options := c_options c |}.

Definition set_cycle (v : cycle_t) (c : cache) : cache :=
  {| c_x := c_x c; c_size := c_size c; c_hsize := c_hsize c;
     c_writer := c_writer c; c_oldest := c_oldest c; c_unused := c_unused c;
     c_cache_motion := c_cache_motion c; c_cycle := v;
     c_options := c_options c |}.

Definition set_options (v : cache_options) (c : cache) : cache :=
  {| c_x := c_x c; c_size := c_size c; c_hsize := c_hsize c;
     c_writer := c_writer c; c_oldest := c_oldest c; c_unused := c_unused c;
     c_cache_motion := c_cache_motion c; c_cycle := c_cycle c;
     c_options := v |}.

Definition set_start (t : taia) (c : cache) : cache :=
  set_cycle {| start := t; last_ratio := last_ratio (c_cycle c);
               ttl := ttl (c_cycle c) |} c.

Definition set_last_ratio (r : double) (c : cache) : cache :=
  set_cycle {| start := start (c_cycle c); last_ratio := r;
               ttl := ttl (c_cycle c) |} c.

Definition set_ttl (s : ttl_stats) (c : cache) : cache :=
  set_cycle {| start := start (c_cycle c);
               last_ratio := last_ratio (c_cycle c); ttl := s |} c.

(** ** The functions of cache.c *)

(** [cache_impossible] *)
Definition cache_impossible {A} : res A := Exit111.

(** [set4]: a null [x] or a position outside the buffer that passes the
    check against [size] is a [Fault]. *)
Definition set4 (c : cache) (pos u : Z) : res cache :=
  if pos >? u32 (c_size c - 4) then cache_impossible else
  match c_x c with
  | None => Fault
  | Some m =>
      match store m pos (uint32_pack u) with
      | Some m' => Ret (set_x (Some m') c)
      | None => Fault
      end
  end.

(** [get4] *)
Definition get4 (c : cache) (pos : Z) : res Z :=
  if pos >? u32 (c_size c - 4) then cache_impossible else
  match c_x c with
  | None => Fault
  | Some m =>
      match load m pos 4 with
      | Some bs => Ret (uint32_unpack bs)
      | None => Fault
      end
  end.

(** [hash]: the loop over the key, then the shift and the mask. *)
Fixpoint hash_loop (result : Z) (key : list byte) : Z :=
  match key with
  | [] => result
  | b :: key' =>
      let result := u32 (u32 (Z.shiftl result 5) + result) in
      let result := Z.lxor result (byte.unsigned b) in
      hash_loop result key'
  end.

Definition hash (c : cache) (key : list byte) : Z :=
  let result := hash_loop 5381 key in
  let result := u32 (Z.shiftl result 2) in
  Z.land result (u32 (c_hsize c - 4)).

(** The loop [while (c->hsize <= (c->size >> 5)) c->hsize <<= 1]. *)
Fixpoint hsize_loop (fuel : nat) (hsize size : Z) : res Z :=
  match fuel with
  | O => Timeout
  | S fuel =>
      if hsize <=? Z.shiftr size 5
      then hsize_loop fuel (u32 (Z.shiftl hsize 1)) size
      else Ret hsize
  end.

(** [init] *)
Definition init (c : cache) (cachesize : Z) (options : option cache_options)
    (w : world) : res (Z * cache * world) :=
  let '(mem, w) := alloc cachesize w in
  match mem with
  | None => Ret (0, c, w)
  | Some mem =>
      let c := set_x None c in
      let cachesize :=
        if cachesize >? MAXCACHESIZE then MAXCACHESIZE else cachesize in
      let cachesize :=
        if cachesize <? MINCACHESIZE then MINCACHESIZE else cachesize in
      let c := set_size cachesize c in
      hsize <- hsize_loop 33 4 (c_size c) ;;
      let c := set_hsize hsize c in
      mem <- byte_zero mem (c_size c) ;;
      let c := set_x (Some mem) c in
      let c := set_writer (c_hsize c) c in
      let c := set_oldest (c_size c) c in
      let c := set_unused (c_size c) c in
      let '(now, w) := taia_now w in
      let c := set_start now c in
      let c := set_last_ratio (d_lit 0 0) c in
      let c :=
        match options with
        | Some o => set_options o c
        | None =>
            set_options
              {| allow_resize := true;
                 target_cycle_time := DEFAULT_TARGET_CYCLETIME;
                 resize_callback := resize_callback (c_options c) |} c
        end in
      Ret (1, c, w)
  end.

(** [cycle_stats_add_ttl] *)
Definition cycle_stats_add_ttl (c : cache) (t : Z) : cache :=
  let s := ttl (c_cycle c) in
  let count := u64 (ttl_count s + 1) in
  let total := u64 (ttl_total s + t) in
  let max := if (ttl_max s =? 0) || (t >? ttl_max s) then t else ttl_max s in
  let min := if (ttl_min s =? 0) || (t <? ttl_min s) then t else ttl_min s in
  set_ttl {| ttl_count := count; ttl_total := total;
             ttl_min := min; ttl_max := max |} c.

(** [cycle_stats_clear_ttl]: defined in cache.c, called from nowhere. *)
Definition cycle_stats_clear_ttl (c : cache) : cache :=
  set_ttl {| ttl_count := 0; ttl_total := 0; ttl_min := 0; ttl_max := 0 |} c.

(** [should_resize]: the decision, the ratio and the new size. *)
Definition should_resize (c : cache) (cycle_time : double)
    : bool * double * Z :=
  let ratio := d_div (d_of_Z (target_cycle_time (c_options c))) cycle_time in
  let newsize :=
    d_to_uint (d_mul (d_mul (d_of_Z (c_size c)) ratio) (d_lit 11 (-1))) in
  let newsize := if newsize >? MAXCACHESIZE then MAXCACHESIZE else newsize in
  let newsize := if newsize <? MINCACHESIZE then MINCACHESIZE else newsize in
  let last := last_ratio (c_cycle c) in
  let resize :=
    if d_nonzero last then
      (d_ltb (d_lit 1 0) ratio && d_ltb (d_lit 1 0) last
       && (c_size c <? MAXCACHESIZE))
      || (d_ltb ratio (d_lit 5 (-1)) && d_ltb last (d_lit 5 (-1))
          && (c_size c >? MINCACHESIZE))
    else false in
  (resize, ratio, newsize).

(** [check_for_resize]: the result of [init] is dropped, as in the code. *)
Definition check_for_resize (c : cache) (w : world)
    : res (bool * cache * world) :=
  let '(now, w) := taia_now w in
  let elapsed := taia_sub now (start (c_cycle c)) in
  let cycle_time := taia_approx elapsed in
  let no_resize (c : cache) (w : world) :=
    let '(now, w) := taia_now w in Ret (false, set_start now c, w) in
  if allow_resize (c_options c) && d_nonzero cycle_time then
    let '(resize, ratio, newsize) := should_resize c cycle_time in
    let resize :=
      match resize_callback (c_options c) with
      | Some f => f ratio (c_size c) newsize (ttl (c_cycle c)) resize
      | None => resize
      end in
    let c := set_last_ratio ratio c in
    if resize then
      let c := set_last_ratio (d_lit 0 0) c in
      let w := log_cache_resize (c_size c) newsize w in
      '(_, c, w) <- init c newsize (Some (c_options c)) w ;;
      Ret (true, c, w)
    else no_resize c w
  else no_resize c w.

(** What [cache_t_get] hands back on a hit: the offset of the data in the
    arena (the returned pointer is [x + data_ptr]), its length and the
    remaining time to live. *)
Record hit : Type := { data_ptr : Z; datalen : Z; ttl_left : Z }.

(** One pass through the body of the loop of [cache_t_get] up to the
    [return]s inside the key comparison: [Some r] is a [return], [None]
    falls through to the advance along the chain.  [stamp] is the
    parameter of the same name; the code never reads it. *)
Definition probe (c : cache) (m : arena) (key : list byte) (keylen pos : Z)
    (stamp : option Z) (w : world) : res (option (option hit * world)) :=
  u <- get4 c (u32 (pos + 4)) ;;
  if u =? keylen then
    if u32 (u32 (pos + 20) + keylen) >? c_size c then cache_impossible else
    same <- byte_equal key keylen m (pos + 20) ;;
    if same then
      bs <- peek m (pos + 12) 8 ;;
      let expire := tai_unpack bs in
      let '(now, w) := tai_now w in
      if tai_less expire now then Ret (Some (None, w)) else
      let expire := tai_sub expire now in
      let d := tai_approx expire in
      let d := if d_ltb (d_of_Z 604800) d then d_of_Z 604800 else d in
      let ttl := d_to_uint d in
      u <- get4 c (u32 (pos + 8)) ;;
      if u >? u32 (u32 (u32 (c_size c - pos) - 20) - keylen)
      then cache_impossible
      else Ret (Some (Some {| data_ptr := pos + 20 + keylen;
                              datalen := u; ttl_left := ttl |}, w))
    else Ret None
  else Ret None.

(** The loop of [cache_t_get].  [seen] counts the entries the walk has
    compared with the key; it is not a variable of the code. *)
Fixpoint walk (fuel : nat) (c : cache) (m : arena) (key : list byte)
    (keylen prevpos pos loop : Z) (seen : nat) (stamp : option Z) (w : world)
    : res (option hit * nat * world) :=
  match fuel with
  | O => Timeout
  | S fuel =>
      if pos =? 0 then Ret (None, seen, w) else
      r <- probe c m key keylen pos stamp w ;;
      match r with
      | Some (h, w) => Ret (h, S seen, w)
      | None =>
          l <- get4 c pos ;;
          let nextpos := Z.lxor prevpos l in
          let prevpos := pos in
          let pos := nextpos in
          let loop := u32 (loop + 1) in
          if loop >? 100 then Ret (None, S seen, w)
          else walk fuel c m key keylen prevpos pos loop (S seen) stamp w
      end
  end.

(** [cache_t_get] with the count of compared entries.  The walk is run with
    fuel for 102 passes; [walk_total] shows that it never runs out. *)
Definition cache_t_get_seen (c : cache) (key : list byte) (stamp : option Z)
    (w : world) : res (option hit * nat * world) :=
  let keylen := Z.of_nat (length key) in
  match c_x c with
  | None => Ret (None, O, w)
  | Some m =>
      if keylen >? MAXKEYLEN then Ret (None, O, w) else
      let prevpos := hash c key in
      pos <- get4 c prevpos ;;
      walk 102 c m key keylen prevpos pos 0 O stamp w
  end.

(** [cache_t_get] *)
Definition cache_t_get (c : cache) (key : list byte) (stamp : option Z)
    (w : world) : res (option hit * world) :=
  '(h, _, w) <- cache_t_get_seen c key stamp w ;; Ret (h, w).

(** The bytes a hit points at. *)
Definition hit_data (c : cache) (h : hit) : option (list byte) :=
  match c_x c with
  | Some m => load m (data_ptr h) (datalen h)
  | None => None
  end.

(** The removal of the entry at [oldest] (the second half of the body of
    the loop of [cache_t_set]). *)
Definition evict (c : cache) : res cache :=
  pos <- get4 c (c_oldest c) ;;
  l <- get4 c pos ;;
  c <- set4 c pos (Z.lxor l (c_oldest c)) ;;
  kl <- get4 c (u32 (c_oldest c + 4)) ;;
  dl <- get4 c (u32 (c_oldest c + 8)) ;;
  let c := set_oldest (u32 (c_oldest c + u32 (u32 (kl + dl) + 20))) c in
  if c_oldest c >? c_unused c then cache_impossible else
  if c_oldest c =? c_unused c
  then Ret (set_oldest (c_size c) (set_unused (c_size c) c))
  else Ret c.

(** The swap of the regions at a cycle boundary. *)
Definition rotate (c : cache) : cache :=
  let c := set_unused (c_writer c) c in
  let c := set_oldest (c_hsize c) c in
  set_writer (c_hsize c) c.

(** How the loop of [cache_t_set] ends: with room at [writer], with a
    [return] because the entry fits no arena, or with the call of
    [cache_t_set] again after a resize. *)
Inductive room : Type :=
| Room (c : cache) (w : world)
| Drop (c : cache) (w : world)
| Again (c : cache) (w : world).

Fixpoint make_room (fuel : nat) (entrylen : Z) (c : cache) (w : world)
    : res room :=
  match fuel with
  | O => Timeout
  | S fuel =>
      if u32 (c_writer c + entrylen) >? c_oldest c then
        if c_oldest c =? c_unused c then
          if c_writer c <=? c_hsize c then Ret (Drop c w) else
          '(resized, c, w) <- check_for_resize c w ;;
          if resized then Ret (Again c w) else
          c <- evict (rotate c) ;;
          make_room fuel entrylen c w
        else
          c <- evict c ;;
          make_room fuel entrylen c w
      else Ret (Room c w)
  end.

(** The tail of [cache_t_set]: the new entry is linked in at the head of
    its chain and written at [writer]. *)
Definition append (c : cache) (key data : list byte) (ttl entrylen : Z)
    (w : world) : res (cache * world) :=
  let keylen := Z.of_nat (length key) in
  let datalen := Z.of_nat (length data) in
  let keyhash := hash c key in
  let '(now, w) := tai_now w in
  let expire := tai_add (tai_uint ttl) now in
  pos <- get4 c keyhash ;;
  c <- (if pos =? 0 then Ret c
        else l <- get4 c pos ;;
             set4 c pos (Z.lxor (Z.lxor l keyhash) (c_writer c))) ;;
  c <- set4 c (c_writer c) (Z.lxor pos keyhash) ;;
  c <- set4 c (u32 (c_writer c + 4)) keylen ;;
  c <- set4 c (u32 (c_writer c + 8)) datalen ;;
  match c_x c with
  | None => Fault
  | Some m =>
      m <- byte_copy m (c_writer c + 12) (tai_pack expire) ;;
      m <- byte_copy m (c_writer c + 20) key ;;
      m <- byte_copy m (c_writer c + 20 + keylen) data ;;
      let c := set_x (Some m) c in
      let c := cycle_stats_add_ttl c ttl in
      c <- set4 c keyhash (c_writer c) ;;
      let c := set_writer (u32 (c_writer c + entrylen)) c in
      let c := set_cache_motion (u64 (c_cache_motion c + entrylen)) c in
      let w := if is_default w then add_global_motion entrylen w else w in
      Ret (c, w)
  end.

(** [cache_t_set] *)
Fixpoint cache_t_set (fuel : nat) (c : cache) (key data : list byte)
    (ttl : Z) (w : world) : res (cache * world) :=
  match fuel with
  | O => Timeout
  | S fuel =>
      let keylen := Z.of_nat (length key) in
      let datalen := Z.of_nat (length data) in
      match c_x c with
      | None => Ret (c, w)
      | Some _ =>
          if keylen >? MAXKEYLEN then Ret (c, w) else
          if datalen >? MAXDATALEN then Ret (c, w) else
          let ttl := if ttl >? 604800 then 604800 else ttl in
          let entrylen := u32 (u32 (keylen + datalen) + 20) in
          r <- make_room fuel entrylen c w ;;
          match r with
          | Drop c w => Ret (c, w)
          | Again c w => cache_t_set fuel c key data ttl w
          | Room c w => append c key data ttl entrylen w
          end
      end
  end.

(** The zeroed [struct cache] of [cache_t_new]. *)
Definition zero_cache : cache :=
  {| c_x := None; c_size := 0; c_hsize := 0; c_writer := 0; c_oldest := 0;
     c_unused := 0; c_cache_motion := 0;
     c_cycle := {| start := {| sec := 0; nano := 0; atto := 0 |};
                   last_ratio := d_lit 0 0;
                   ttl := {| ttl_count := 0; ttl_total := 0;
                             ttl_min := 0; ttl_max := 0 |} |};
     c_options := {| allow_resize := false; target_cycle_time := 0;
                     resize_callback := None |} |}.

(** [cache_t_new]: the record is allocated first and used without a check
    (a failure there is a [Fault]); a failing [init] gives null. *)
Definition cache_t_new (cachesize : Z) (options : option cache_options)
    (w : world) : res (option cache * world) :=
  let '(rec, w) := alloc 0 w in
  match rec with
  | None => Fault
  | Some _ =>
      '(ok, c, w) <- init zero_cache cachesize options w ;;
      if ok =? 0 then Ret (None, w) else Ret (Some c, w)
  end.

(** [cache_t_init] on a non-null instance. *)
Definition cache_t_init (c : cache) (cachesize : Z)
    (options : option cache_options) (w : world) : res (Z * cache * world) :=
  init c cachesize options w.

(** A sequence of calls on one instance. *)
Inductive op : Type :=
| OpSet (key data : list byte) (ttl : Z)
| OpGet (key : list byte) (stamp : option Z).

Fixpoint run (fuel : nat) (ops : list op) (c : cache) (w : world)
    : res (cache * world) :=
  match ops with
  | [] => Ret (c, w)
  | OpSet key data ttl :: ops' =>
      '(c, w) <- cache_t_set fuel c key data ttl w ;;
      run fuel ops' c w
  | OpGet key stamp :: ops' =>
      '(_, w) <- cache_t_get c key stamp w ;;
      run fuel ops' c w
  end.

(** ** The instance behind [cache_get], [cache_set] and [cache_init]

    The static pointer [default_cache] is an [option cache]: [None] is the
    null pointer.  A call on it runs with [is_default] set, which is how
    [cache_t_set] sees [c == default_cache]. *)

Definition with_default (b : bool) (w : world) : world :=
  {| clock := clock w; heap := heap w; junk := junk w; stdout := stdout w;
     g_cache_motion := g_cache_motion w; is_default := b |}.

(** [cache_get] *)
Definition cache_get (default_cache : option cache) (key : list byte)
    (w : world) : res (option hit * world) :=
  match default_cache with
  | None => Ret (None, w)
  | Some c => cache_t_get c key None w
  end.

(** [cache_set] *)
Definition cache_set (fuel : nat) (default_cache : option cache)
    (key data : list byte) (ttl : Z) (w : world)
    : res (option cache * world) :=
  match default_cache with
  | None => Ret (None, w)
  | Some c =>
      '(c, w') <- cache_t_set fuel c key data ttl (with_default true w) ;;
      Ret (Some c, with_default (is_default w) w')
  end.

(** [cache_init]: the result, the new value of [default_cache] and the
    world. *)
Definition cache_init (default_cache : option cache) (cachesize : Z)
    (options : option cache_options) (w : world)
    : res (Z * option cache * world) :=
  match default_cache with
  | None =>
      '(c, w) <- cache_t_new cachesize options w ;;
      Ret (match c with Some _ => 1 | None => 0 end, c, w)
  | Some c =>
      '(ok, c, w) <- init c cachesize options w ;;
      Ret (ok, Some c, w)
  end.

End Model.

(** * Machine integers, packing and the buffer: basic facts *)

Lemma u32_range z : 0 <= u32 z < 2 ^ 32.
Proof. unfold u32. apply Z.mod_pos_bound. reflexivity. Qed.

Lemma u32_small z : 0 <= z < 2 ^ 32 -> u32 z = z.
Proof. intros H. unfold u32. now apply Z.mod_small. Qed.

Lemma u64_range z : 0 <= u64 z < 2 ^ 64.
Proof. unfold u64. apply Z.mod_pos_bound. reflexivity. Qed.

Lemma u64_small z : 0 <= z < 2 ^ 64 -> u64 z = z.
Proof. intros H. unfold u64. now apply Z.mod_small. Qed.

Lemma lxor_range n a b :
  0 <= n -> 0 <= a < 2 ^ n -> 0 <= b < 2 ^ n -> 0 <= Z.lxor a b < 2 ^ n.
Proof.
  intros Hn Ha Hb.
  assert (H0 : 0 <= Z.lxor a b) by (apply Z.lxor_nonneg; lia).
  split; [exact H0|].
  destruct (Z.eq_dec (Z.lxor a b) 0) as [E|E].
  - rewrite E. lia.
  - assert (Hn' : 0 < n).
    { destruct (Z.eq_dec n 0) as [->|]; [|lia].
      exfalso. apply E. replace a with 0 by lia. replace b with 0 by lia.
      reflexivity. }
    apply Z.log2_lt_pow2; [lia|].
    eapply Z.le_lt_trans; [apply Z.log2_lxor; lia|].
    apply Z.max_lub_lt.
    + destruct (Z.eq_dec a 0) as [->|]; [simpl|apply Z.log2_lt_pow2]; lia.
    + destruct (Z.eq_dec b 0) as [->|]; [simpl|apply Z.log2_lt_pow2]; lia.
Qed.

Lemma land_le_r a b : 0 <= b -> Z.land a b <= b.
Proof.
  intros Hb. rewrite Z.land_comm.
  pose proof (Z.sub_land_same_l b a) as H.
  assert (0 <= Z.land b (Z.lnot a)) by (apply Z.land_nonneg; now left).
  lia.
Qed.

Lemma land_mod4 r k : 2 <= k -> (Z.land r (2 ^ k - 4)) mod 4 = 0.
Proof.
  intros Hk. change 4 with (2 ^ 2) at 2. rewrite <- Z.land_ones by lia.
  rewrite <- Z.land_assoc. rewrite Z.land_ones by lia.
  replace (2 ^ k - 4) with ((2 ^ (k - 2) - 1) * 2 ^ 2).
  2:{ replace k with (k - 2 + 2) at 2 by lia. rewrite Z.pow_add_r by lia. lia. }
  rewrite Z.mod_mul by lia. apply Z.land_0_r.
Qed.

Lemma lxor_cancel_r a b : Z.lxor (Z.lxor a b) b = a.
Proof. now rewrite Z.lxor_assoc, Z.lxor_nilpotent, Z.lxor_0_r. Qed.

Lemma lxor_cancel_l a b : Z.lxor a (Z.lxor a b) = b.
Proof. now rewrite <- Z.lxor_assoc, Z.lxor_nilpotent, Z.lxor_0_l. Qed.

Lemma uint32_pack_length u : length (uint32_pack u) = 4%nat.
Proof. reflexivity. Qed.

Lemma uint32_unpack_pack u : uint32_unpack (uint32_pack u) = u32 u.
Proof. unfold uint32_unpack, uint32_pack. now rewrite le_combine_split. Qed.

Lemma uint32_unpack_range s : length s = 4%nat -> 0 <= uint32_unpack s < 2 ^ 32.
Proof.
  intros H. unfold uint32_unpack.
  pose proof (le_combine_bound s) as B. rewrite H in B. exact B.
Qed.

Lemma tai_pack_length t : length (tai_pack t) = 8%nat.
Proof. reflexivity. Qed.

Lemma tai_unpack_pack t : tai_unpack (tai_pack t) = u64 t.
Proof.
  unfold tai_unpack, tai_pack. rewrite rev_involutive.
  now rewrite le_combine_split.
Qed.

Lemma in_range_true m p n :
  in_range m p n = true <-> 0 <= p /\ 0 <= n /\ p + n <= Z.of_nat (length m).
Proof. unfold in_range. rewrite !andb_true_iff, !Z.leb_le. tauto. Qed.

Lemma load_Some m p n :
  0 <= p -> 0 <= n -> p + n <= Z.of_nat (length m) ->
  exists bs, load m p n = Some bs /\ length bs = Z.to_nat n.
Proof.
  intros Hp Hn Hl. unfold load.
  replace (in_range m p n) with true by (symmetry; apply in_range_true; lia).
  eexists. split; [reflexivity|].
  rewrite length_firstn, length_skipn. lia.
Qed.

Lemma load_length m p n bs : load m p n = Some bs -> length bs = Z.to_nat n.
Proof.
  unfold load. destruct (in_range m p n) eqn:E; [|discriminate].
  apply in_range_true in E. intros [= <-].
  rewrite length_firstn, length_skipn. lia.
Qed.

Lemma load_inv m p n bs :
  load m p n = Some bs -> 0 <= p /\ 0 <= n /\ p + n <= Z.of_nat (length m).
Proof.
  unfold load. destruct (in_range m p n) eqn:E; [|discriminate].
  intros _. now apply in_range_true.
Qed.

Lemma store_Some m p bs :
  0 <= p -> p + Z.of_nat (length bs) <= Z.of_nat (length m) ->
  exists m', store m p bs = Some m'.
Proof.
  intros Hp Hl. unfold store.
  replace (in_range m p _) with true by (symmetry; apply in_range_true; lia).
  eexists. reflexivity.
Qed.

Lemma store_inv m p bs m' :
  store m p bs = Some m' ->
  0 <= p /\ p + Z.of_nat (length bs) <= Z.of_nat (length m).
Proof.
  unfold store. destruct (in_range m p _) eqn:E; [|discriminate].
  intros _. apply in_range_true in E. lia.
Qed.

Lemma store_length m p bs m' : store m p bs = Some m' -> length m' = length m.
Proof.
  unfold store. destruct (in_range m p _) eqn:E; [|discriminate].
  apply in_range_true in E. intros [= <-].
  rewrite !length_app, length_firstn, length_skipn. lia.
Qed.

Lemma nth_firstn_lt {A} (n i : nat) (l : list A) d :
  (i < n)%nat -> nth i (firstn n l) d = nth i l d.
Proof.
  intros H. rewrite nth_firstn.
  destruct (Nat.ltb_spec i n); [reflexivity|lia].
Qed.

Lemma store_nth m p bs m' (i : nat) d :
  store m p bs = Some m' ->
  nth i m' d =
    if (Z.to_nat p <=? i)%nat && (i <? Z.to_nat p + length bs)%nat
    then nth (i - Z.to_nat p) bs d
    else nth i m d.
Proof.
  unfold store. destruct (in_range m p _) eqn:E; [|discriminate].
  apply in_range_true in E. intros [= <-].
  assert (Hf : length (firstn (Z.to_nat p) m) = Z.to_nat p)
    by (rewrite length_firstn; lia).
  destruct (Nat.leb_spec (Z.to_nat p) i) as [Hle|Hlt]; simpl.
  - rewrite app_nth2 by lia. rewrite Hf.
    destruct (Nat.ltb_spec i (Z.to_nat p + length bs)) as [Hin|Hout].
    + now rewrite app_nth1 by lia.
    + rewrite app_nth2 by lia. rewrite nth_skipn. f_equal. lia.
  - rewrite app_nth1 by lia. apply nth_firstn_lt. exact Hlt.
Qed.

Lemma load_nth m p n bs (i : nat) d :
  load m p n = Some bs -> (i < Z.to_nat n)%nat ->
  nth i bs d = nth (Z.to_nat p + i) m d.
Proof.
  unfold load. destruct (in_range m p n) eqn:E; [|discriminate].
  intros [= <-] Hi. rewrite nth_firstn_lt by exact Hi. now rewrite nth_skipn.
Qed.

Lemma load_ext m1 m2 p n :
  length m1 = length m2 ->
  (forall i : nat, (Z.to_nat p <= i < Z.to_nat p + Z.to_nat n)%nat ->
     nth i m1 Byte.x00 = nth i m2 Byte.x00) ->
  load m1 p n = load m2 p n.
Proof.
  intros Hlen Hnth. unfold load, in_range. rewrite Hlen.
  destruct (_ && _ && _) eqn:E; [|reflexivity].
  rewrite !andb_true_iff, !Z.leb_le in E.
  f_equal. apply nth_ext with (d := Byte.x00) (d' := Byte.x00).
  - rewrite !length_firstn, !length_skipn. lia.
  - intros k Hk. rewrite length_firstn, length_skipn in Hk.
    rewrite !nth_firstn_lt by lia. rewrite !nth_skipn. apply Hnth. lia.
Qed.

Lemma load_store_same m p bs m' :
  store m p bs = Some m' -> load m' p (Z.of_nat (length bs)) = Some bs.
Proof.
  intros Hs. pose proof (store_inv _ _ _ _ Hs) as [Hp Hl].
  pose proof (store_length _ _ _ _ Hs) as Hlen.
  destruct (load_Some m' p (Z.of_nat (length bs))) as (l & Hload & Hll);
    [lia|lia|lia|].
  rewrite Hload. f_equal.
  apply nth_ext with (d := Byte.x00) (d' := Byte.x00); [lia|].
  intros k Hk.
  rewrite (load_nth _ _ _ _ k Byte.x00 Hload) by lia.
  rewrite (store_nth _ _ _ _ _ Byte.x00 Hs).
  destruct (Nat.leb_spec (Z.to_nat p) (Z.to_nat p + k)); [|lia].
  destruct (Nat.ltb_spec (Z.to_nat p + k) (Z.to_nat p + length bs)); [|lia].
  simpl. f_equal. lia.
Qed.

Lemma load_store_other m p bs m' q n :
  store m p bs = Some m' ->
  q + n <= p \/ p + Z.of_nat (length bs) <= q ->
  load m' q n = load m q n.
Proof.
  intros Hs Hd. pose proof (store_inv _ _ _ _ Hs) as [Hp Hl].
  destruct (Z_lt_le_dec q 0) as [Hq|Hq].
  { unfold load, in_range. destruct (Z.leb_spec 0 q); [lia|reflexivity]. }
  destruct (Z_lt_le_dec n 0) as [Hn|Hn].
  { unfold load, in_range. destruct (Z.leb_spec 0 n); [lia|].
    now rewrite !andb_false_r. }
  apply load_ext; [now apply store_length in Hs|].
  intros i Hi. rewrite (store_nth _ _ _ _ _ Byte.x00 Hs).
  destruct (Nat.leb_spec (Z.to_nat p) i); simpl; [|reflexivity].
  destruct (Nat.ltb_spec i (Z.to_nat p + length bs)); [|reflexivity].
  exfalso. lia.
Qed.

(** * Reasoning about the arena *)

(** ** Words in the arena *)

(** The 32-bit word at offset [p] (0 where it does not lie in the buffer). *)
Definition word_at (m : arena) (p : Z) : Z :=
  match load m p 4 with
  | Some bs => uint32_unpack bs
  | None => 0
  end.

(** The key, the expiry time and the data of the entry at [p]. *)
Definition key_at (m : arena) (p : Z) : list byte :=
  match load m (p + 20) (word_at m (p + 4)) with
  | Some k => k
  | None => []
  end.

Definition expire_at (m : arena) (p : Z) : Z :=
  match load m (p + 12) 8 with
  | Some bs => tai_unpack bs
  | None => 0
  end.

Definition data_at (m : arena) (p : Z) : list byte :=
  match load m (p + 20 + word_at m (p + 4)) (word_at m (p + 8)) with
  | Some d => d
  | None => []
  end.

(** The bytes of the entry at [e] behind its link are the same in [m] and
    [m']. *)
Definition body_frame (m m' : arena) (e : Z) : Prop :=
  forall q n,
    e + 4 <= q ->
    q + n <= e + 20 + word_at m (e + 4) + word_at m (e + 8) ->
    load m' q n = load m q n.

Lemma word_at_range m p : 0 <= word_at m p < 2 ^ 32.
Proof.
  unfold word_at. destruct (load m p 4) as [bs|] eqn:E; [|lia].
  apply uint32_unpack_range. now apply load_length in E.
Qed.

Lemma word_at_store_same m p v m' :
  store m p (uint32_pack v) = Some m' -> word_at m' p = u32 v.
Proof.
  intros Hs. unfold word_at.
  pose proof (load_store_same _ _ _ _ Hs) as Hl.
  rewrite uint32_pack_length in Hl. change (Z.of_nat 4) with 4 in Hl.
  rewrite Hl. apply uint32_unpack_pack.
Qed.

Lemma word_at_store_other m p bs m' q :
  store m p bs = Some m' ->
  q + 4 <= p \/ p + Z.of_nat (length bs) <= q ->
  word_at m' q = word_at m q.
Proof.
  intros Hs Hd. unfold word_at. now rewrite (load_store_other _ _ _ _ _ _ Hs Hd).
Qed.

Lemma store4_Some m p v :
  0 <= p -> p + 4 <= Z.of_nat (length m) ->
  exists m', store m p (uint32_pack v) = Some m'.
Proof.
  intros Hp Hl. apply store_Some; [exact Hp|].
  rewrite uint32_pack_length. lia.
Qed.

Lemma bytes_eqb_refl a : bytes_eqb a a = true.
Proof.
  induction a as [|x a IH]; [reflexivity|]. simpl.
  now rewrite (Byte.byte_dec_lb (eq_refl x)), IH.
Qed.

Lemma bytes_eqb_eq a b : bytes_eqb a b = true -> a = b.
Proof.
  revert b. induction a as [|x a IH]; intros [|y b]; simpl; try discriminate.
  - reflexivity.
  - intros H. apply andb_true_iff in H as [H1 H2].
    apply Byte.byte_dec_bl in H1. apply IH in H2. congruence.
Qed.

(** ** The layout of the entries *)

(** The entries at the positions [l] tile the region from [p] to [q]: each
    begins where the one before it ends. *)
Fixpoint tiled (m : arena) (p q : Z) (l : list Z) : Prop :=
  match l with
  | [] => p = q
  | e :: l' =>
      e = p /\ tiled m (p + 20 + word_at m (p + 4) + word_at m (p + 8)) q l'
  end.

(** The chain that starts at [cur], reached from [prev], visits the
    positions [l] and ends with a link to 0. *)
Fixpoint xchain (m : arena) (prev cur : Z) (l : list Z) : Prop :=
  match l with
  | [] => cur = 0
  | e :: l' => cur = e /\ e <> 0 /\ xchain m e (Z.lxor prev (word_at m e)) l'
  end.

(** [b] is the offset of a head link of a table of [hs] bytes. *)
Definition is_bucket (hs b : Z) : Prop := 0 <= b /\ b + 4 <= hs /\ b mod 4 = 0.

(** The entries in the order of the chains: newest first. *)
Definition by_age (Lnew Lold : list Z) : list Z := rev Lnew ++ rev Lold.

Definition in_bucket (bk : Z -> Z) (b : Z) (l : list Z) : list Z :=
  filter (fun p => bk p =? b) l.

(** The arena [m] with cursors [hs], [wr], [ol], [un] holds the entries
    [Lnew] (new region) and [Lold] (old region), and the chain of each
    bucket lists the entries that [bk] puts in it, newest first. *)
Record layout (m : arena) (hs wr ol un : Z) (Lnew Lold : list Z)
    (bk : Z -> Z) : Prop := {
  lay_new : tiled m hs wr Lnew;
  lay_old : tiled m ol un Lold;
  lay_bk : forall p, In p (Lnew ++ Lold) -> is_bucket hs (bk p);
  lay_chains : forall b, is_bucket hs b ->
    xchain m b (word_at m b) (in_bucket bk b (by_age Lnew Lold))
}.

Lemma tiled_le m l : forall p q, tiled m p q l -> p <= q.
Proof.
  induction l as [|e l IH]; simpl; intros p q H.
  - lia.
  - destruct H as [_ H]. apply IH in H.
    pose proof (word_at_range m (p + 4)). pose proof (word_at_range m (p + 8)).
    lia.
Qed.

Lemma tiled_same m l p : tiled m p p l -> l = [].
Proof.
  destruct l as [|e l]; [reflexivity|]. simpl. intros [_ H].
  apply tiled_le in H.
  pose proof (word_at_range m (p + 4)). pose proof (word_at_range m (p + 8)).
  lia.
Qed.

Lemma tiled_In m l : forall p q e,
  tiled m p q l -> In e l ->
  p <= e /\ e + 20 + word_at m (e + 4) + word_at m (e + 8) <= q.
Proof.
  induction l as [|a l IH]; simpl; intros p q e H Hin; [contradiction|].
  destruct H as [-> H]. destruct Hin as [->|Hin].
  - apply tiled_le in H. lia.
  - specialize (IH _ _ _ H Hin).
    pose proof (word_at_range m (p + 4)). pose proof (word_at_range m (p + 8)).
    lia.
Qed.

Lemma tiled_apart m l : forall p q a b,
  tiled m p q l -> In a l -> In b l ->
  a = b \/ a + 20 <= b \/ b + 20 <= a.
Proof.
  induction l as [|e l IH]; simpl; intros p q a b H Ha Hb; [contradiction|].
  destruct H as [-> H].
  pose proof (word_at_range m (p + 4)). pose proof (word_at_range m (p + 8)).
  destruct Ha as [->|Ha], Hb as [->|Hb].
  - now left.
  - apply (tiled_In _ _ _ _ _ H) in Hb. lia.
  - apply (tiled_In _ _ _ _ _ H) in Ha. lia.
  - eauto.
Qed.

Lemma tiled_apart_ext m l : forall p q a b,
  tiled m p q l -> In a l -> In b l ->
  a = b \/
  a + 20 + word_at m (a + 4) + word_at m (a + 8) <= b \/
  b + 20 + word_at m (b + 4) + word_at m (b + 8) <= a.
Proof.
  induction l as [|e l IH]; simpl; intros p q a b H Ha Hb; [contradiction|].
  destruct H as [-> H].
  destruct Ha as [->|Ha], Hb as [->|Hb].
  - now left.
  - apply (tiled_In _ _ _ _ _ H) in Hb. lia.
  - apply (tiled_In _ _ _ _ _ H) in Ha. lia.
  - eauto.
Qed.

Lemma tiled_app m l1 : forall l2 p q r,
  tiled m p q l1 -> tiled m q r l2 -> tiled m p r (l1 ++ l2).
Proof.
  induction l1 as [|e l1 IH]; simpl; intros l2 p q r H1 H2.
  - now subst.
  - destruct H1 as [-> H1]. split; [reflexivity|]. eauto.
Qed.

Lemma tiled_length m l : forall p q,
  tiled m p q l -> 20 * Z.of_nat (length l) <= q - p.
Proof.
  induction l as [|e l IH]; simpl length; intros p q H.
  - simpl in H. lia.
  - destruct H as [_ H]. apply IH in H.
    pose proof (word_at_range m (p + 4)). pose proof (word_at_range m (p + 8)).
    lia.
Qed.

(** A write that leaves the length fields of the entries alone leaves the
    tiling alone. *)
Lemma tiled_frame m m' l : forall p q,
  tiled m p q l ->
  (forall e, In e l ->
     word_at m' (e + 4) = word_at m (e + 4) /\
     word_at m' (e + 8) = word_at m (e + 8)) ->
  tiled m' p q l.
Proof.
  induction l as [|e l IH]; simpl; intros p q H Hf; [exact H|].
  destruct H as [-> H]. split; [reflexivity|].
  destruct (Hf p (or_introl eq_refl)) as [-> ->].
  apply IH; [exact H|]. intros e He. apply Hf. now right.
Qed.

(** A write that leaves the links of the entries of a chain alone leaves
    the chain alone. *)
Lemma xchain_frame m m' l : forall prev cur,
  xchain m prev cur l ->
  (forall e, In e l -> word_at m' e = word_at m e) ->
  xchain m' prev cur l.
Proof.
  induction l as [|e l IH]; simpl; intros prev cur H Hf; [exact H|].
  destruct H as (-> & Hne & H). repeat split; [exact Hne|].
  rewrite (Hf e (or_introl eq_refl)).
  apply IH; [exact H|]. intros a Ha. apply Hf. now right.
Qed.

(** ** Chains under removal at the tail and insertion at the head *)

Lemma last_cons_default {A} (l : list A) (a d : A) :
  last (a :: l) d = last l a.
Proof.
  revert a d. induction l as [|b l IH]; intros a d; [reflexivity|].
  change (last (a :: b :: l) d) with (last (b :: l) d).
  now rewrite !IH.
Qed.

Lemma last_In_or {A} (l : list A) (d : A) : l = [] \/ In (last l d) l.
Proof.
  induction l as [|a l IH]; [now left|]. right.
  rewrite last_cons_default.
  destruct l as [|b l]; [now left|].
  destruct IH as [IH|IH]; [discriminate|].
  right. rewrite last_cons_default in IH. rewrite last_cons_default. exact IH.
Qed.

(** The last entry [o] of a chain links back to its predecessor [pr]; once
    the link of [pr] is xored with [o], the chain ends at [pr]. *)
Lemma xchain_drop_last m o l : forall prev cur,
  xchain m prev cur (l ++ [o]) ->
  NoDup l ->
  word_at m o = last l prev /\
  (l = [] -> cur = o) /\
  forall m',
    word_at m' (last l prev) = Z.lxor (word_at m (last l prev)) o ->
    (forall e, In e l -> e <> last l prev -> word_at m' e = word_at m e) ->
    l <> [] -> xchain m' prev cur l.
Proof.
  induction l as [|c l IH]; intros prev cur H Hnd.
  - simpl in H. destruct H as (-> & Ho & H).
    apply Z.lxor_eq in H. repeat split; [now symmetry|]. congruence.
  - simpl app in H. simpl in H. destruct H as (-> & Hc & H).
    apply NoDup_cons_iff in Hnd as [Hnotin Hnd].
    destruct (IH _ _ H Hnd) as (Hlink & Hsingle & Hrest).
    rewrite last_cons_default.
    split; [exact Hlink|]. split; [discriminate|].
    intros m' Hpr Hframe _. simpl. repeat split; [exact Hc|].
    destruct l as [|c' l'].
    + simpl in Hpr |- *. rewrite Hpr.
      rewrite <- Z.lxor_assoc. rewrite (Hsingle eq_refl).
      apply Z.lxor_nilpotent.
    + assert (Hne : c <> last (c' :: l') c).
      { intros E. apply Hnotin. rewrite E.
        destruct (last_In_or (c' :: l') c) as [?|Hin]; [discriminate|exact Hin]. }
      rewrite (Hframe c (or_introl eq_refl) Hne).
      apply Hrest; [exact Hpr| |discriminate].
      intros e He Hne'. apply Hframe; [now right|exact Hne'].
Qed.

(** A new entry [w] goes in front of the chain of the head link [b]: its
    link is [cur xor b], and the link of the old first entry, if there is
    one, is xored with [b xor w]. *)
Lemma xchain_push m m' b w l cur :
  xchain m b cur l ->
  NoDup l ->
  w <> 0 ->
  word_at m' w = Z.lxor cur b ->
  (cur <> 0 -> word_at m' cur = Z.lxor (Z.lxor (word_at m cur) b) w) ->
  (forall e, In e l -> e <> cur -> word_at m' e = word_at m e) ->
  xchain m' b w (w :: l).
Proof.
  intros H Hnd Hw Hlink Hpatch Hframe. simpl. repeat split; [exact Hw|].
  rewrite Hlink, Z.lxor_comm, lxor_cancel_r.
  destruct l as [|c l]; [exact H|].
  simpl in H |- *. destruct H as (-> & Hc & H).
  repeat split; [exact Hc|].
  rewrite (Hpatch Hc).
  replace (Z.lxor w (Z.lxor (Z.lxor (word_at m c) b) w))
    with (Z.lxor b (word_at m c)).
  2:{ rewrite (Z.lxor_comm w), lxor_cancel_r. apply Z.lxor_comm. }
  apply NoDup_cons_iff in Hnd as [Hnotin _].
  apply (xchain_frame m); [exact H|].
  intros e He. apply Hframe; [now right|]. intros ->. contradiction.
Qed.

(** ** The geometry of a well-formed arena *)

Record geom (m : arena) (hs wr ol un : Z) : Prop := {
  g_hs : 4 <= hs;
  g_wr : hs <= wr;
  g_ol : wr <= ol;
  g_un : ol <= un;
  g_len : un <= Z.of_nat (length m);
  g_32 : un < 2 ^ 32
}.

Lemma tiled_NoDup m l : forall p q, tiled m p q l -> NoDup l.
Proof.
  induction l as [|e l IH]; simpl; intros p q H; [constructor|].
  destruct H as [-> H]. constructor; [|eauto].
  intros Hin. apply (tiled_In _ _ _ _ _ H) in Hin.
  pose proof (word_at_range m (p + 4)). pose proof (word_at_range m (p + 8)).
  lia.
Qed.

Section Live.
Variables (m : arena) (hs wr ol un : Z) (Lnew Lold : list Z) (bk : Z -> Z).
Hypothesis L : layout m hs wr ol un Lnew Lold bk.
Hypothesis G : geom m hs wr ol un.

Lemma live_bounds e :
  In e (Lnew ++ Lold) ->
  (hs <= e /\ e + 20 + word_at m (e + 4) + word_at m (e + 8) <= wr) \/
  (ol <= e /\ e + 20 + word_at m (e + 4) + word_at m (e + 8) <= un).
Proof.
  intros H. apply in_app_or in H as [H|H].
  - left. exact (tiled_In _ _ _ _ _ (lay_new _ _ _ _ _ _ _ _ L) H).
  - right. exact (tiled_In _ _ _ _ _ (lay_old _ _ _ _ _ _ _ _ L) H).
Qed.

Lemma live_range e :
  In e (Lnew ++ Lold) -> hs <= e /\ e + 20 <= un /\ (e + 20 <= wr \/ ol <= e).
Proof.
  intros H. destruct G. apply live_bounds in H.
  pose proof (word_at_range m (e + 4)). pose proof (word_at_range m (e + 8)).
  lia.
Qed.

Lemma live_apart a b :
  In a (Lnew ++ Lold) -> In b (Lnew ++ Lold) ->
  a = b \/ a + 20 <= b \/ b + 20 <= a.
Proof.
  intros Ha Hb. destruct G.
  pose proof (lay_new _ _ _ _ _ _ _ _ L) as Tn.
  pose proof (lay_old _ _ _ _ _ _ _ _ L) as To.
  pose proof (word_at_range m (a + 4)). pose proof (word_at_range m (a + 8)).
  pose proof (word_at_range m (b + 4)). pose proof (word_at_range m (b + 8)).
  apply in_app_or in Ha as [Ha|Ha]; apply in_app_or in Hb as [Hb|Hb].
  - exact (tiled_apart _ _ _ _ _ _ Tn Ha Hb).
  - apply (tiled_In _ _ _ _ _ Tn) in Ha. apply (tiled_In _ _ _ _ _ To) in Hb. lia.
  - apply (tiled_In _ _ _ _ _ To) in Ha. apply (tiled_In _ _ _ _ _ Tn) in Hb. lia.
  - exact (tiled_apart _ _ _ _ _ _ To Ha Hb).
Qed.

Lemma live_apart_ext a b :
  In a (Lnew ++ Lold) -> In b (Lnew ++ Lold) ->
  a = b \/
  a + 20 + word_at m (a + 4) + word_at m (a + 8) <= b \/
  b + 20 + word_at m (b + 4) + word_at m (b + 8) <= a.
Proof.
  intros Ha Hb. destruct G.
  pose proof (lay_new _ _ _ _ _ _ _ _ L) as Tn.
  pose proof (lay_old _ _ _ _ _ _ _ _ L) as To.
  apply in_app_or in Ha as [Ha|Ha]; apply in_app_or in Hb as [Hb|Hb].
  - exact (tiled_apart_ext _ _ _ _ _ _ Tn Ha Hb).
  - apply (tiled_In _ _ _ _ _ Tn) in Ha. apply (tiled_In _ _ _ _ _ To) in Hb. lia.
  - apply (tiled_In _ _ _ _ _ To) in Ha. apply (tiled_In _ _ _ _ _ Tn) in Hb. lia.
  - exact (tiled_apart_ext _ _ _ _ _ _ To Ha Hb).
Qed.

Lemma live_NoDup : NoDup (by_age Lnew Lold).
Proof.
  unfold by_age. destruct G.
  pose proof (lay_new _ _ _ _ _ _ _ _ L) as Tn.
  pose proof (lay_old _ _ _ _ _ _ _ _ L) as To.
  apply NoDup_app.
  - apply NoDup_rev. exact (tiled_NoDup _ _ _ _ Tn).
  - apply NoDup_rev. exact (tiled_NoDup _ _ _ _ To).
  - intros a Ha Hb. apply in_rev in Ha. apply in_rev in Hb.
    apply (tiled_In _ _ _ _ _ Tn) in Ha. apply (tiled_In _ _ _ _ _ To) in Hb.
    pose proof (word_at_range m (a + 4)). pose proof (word_at_range m (a + 8)).
    lia.
Qed.

Lemma by_age_In e : In e (by_age Lnew Lold) <-> In e (Lnew ++ Lold).
Proof.
  unfold by_age. rewrite !in_app_iff, <- !in_rev. tauto.
Qed.

(** A cell is a place that holds a link: a head of the table or the first
    word of an entry. *)
Definition cell (p : Z) : Prop := is_bucket hs p \/ In p (Lnew ++ Lold).

Lemma cell_range p : cell p -> 0 <= p /\ p + 4 <= un.
Proof.
  destruct G. intros [(H0 & H1 & _)|H].
  - lia.
  - apply live_range in H. lia.
Qed.

Lemma bucket_apart b b' :
  is_bucket hs b -> is_bucket hs b' -> b = b' \/ b + 4 <= b' \/ b' + 4 <= b.
Proof.
  unfold is_bucket. intros (? & ? & ?) (? & ? & ?).
  Z.div_mod_to_equations. lia.
Qed.

(** Writing four bytes at a cell changes no length field and no other link. *)
Lemma link_write_frame p bs m' :
  cell p -> length bs = 4%nat -> store m p bs = Some m' ->
  (forall e, In e (Lnew ++ Lold) ->
     word_at m' (e + 4) = word_at m (e + 4) /\
     word_at m' (e + 8) = word_at m (e + 8)) /\
  (forall q, cell q -> q <> p -> word_at m' q = word_at m q).
Proof.
  intros Hc Hlen Hs. destruct G. split.
  - intros e He. pose proof (live_range e He) as He'.
    split; apply (word_at_store_other _ _ _ _ _ Hs); rewrite Hlen;
      (destruct Hc as [(? & ? & ?)|Hc];
       [lia|destruct (live_apart _ _ Hc He); lia]).
  - intros q Hq Hne. apply (word_at_store_other _ _ _ _ _ Hs). rewrite Hlen.
    destruct Hc as [Hc|Hc], Hq as [Hq|Hq].
    + destruct (bucket_apart _ _ Hc Hq) as [?|?]; [congruence|lia].
    + apply live_range in Hq. destruct Hc as (? & ? & ?). lia.
    + apply live_range in Hc. destruct Hq as (? & ? & ?). lia.
    + destruct (live_apart _ _ Hc Hq) as [?|?]; [congruence|lia].
Qed.

(** Writing four bytes at a cell changes nothing behind the link of an
    entry. *)
Lemma link_write_body p bs m' :
  cell p -> length bs = 4%nat -> store m p bs = Some m' ->
  forall e, In e (Lnew ++ Lold) -> body_frame m m' e.
Proof.
  intros Hc Hlen Hs e He q n Hq Hn.
  apply (load_store_other _ _ _ _ _ _ Hs).
  rewrite Hlen. pose proof (live_range e He) as Hr.
  destruct Hc as [(? & ? & ?)|Hc]; [lia|].
  pose proof (word_at_range m (p + 4)). pose proof (word_at_range m (p + 8)).
  destruct (live_apart_ext _ _ Hc He) as [->|?]; lia.
Qed.

End Live.

Lemma in_bucket_In bk b l e : In e (in_bucket bk b l) <-> In e l /\ bk e = b.
Proof. unfold in_bucket. rewrite filter_In, Z.eqb_eq. tauto. Qed.

Lemma in_bucket_old bk b Lnew o Lold :
  in_bucket bk b (by_age Lnew (o :: Lold)) =
  in_bucket bk b (by_age Lnew Lold) ++ (if bk o =? b then [o] else []).
Proof.
  unfold in_bucket, by_age. simpl rev. rewrite app_assoc, filter_app.
  simpl. now destruct (bk o =? b).
Qed.

Lemma in_bucket_new bk b Lnew w Lold :
  in_bucket bk b (by_age (Lnew ++ [w]) Lold) =
  (if bk w =? b then [w] else []) ++ in_bucket bk b (by_age Lnew Lold).
Proof.
  unfold in_bucket, by_age. rewrite rev_app_distr. simpl.
  now destruct (bk w =? b).
Qed.

(** ** Removing the oldest entry *)

Lemma layout_evict m hs wr ol un Lnew o Lold bk :
  layout m hs wr ol un Lnew (o :: Lold) bk ->
  geom m hs wr ol un ->
  let pr := word_at m o in
  let nx := o + 20 + word_at m (o + 4) + word_at m (o + 8) in
  o = ol /\ 0 <= pr /\ pr + 4 <= un /\ nx <= un /\
  forall m',
    store m pr (uint32_pack (Z.lxor (word_at m pr) o)) = Some m' ->
    word_at m' (o + 4) = word_at m (o + 4) /\
    word_at m' (o + 8) = word_at m (o + 8) /\
    layout m' hs wr nx un Lnew Lold bk /\
    (forall e, In e (Lnew ++ Lold) -> body_frame m m' e).
Proof.
  intros L G pr nx.
  pose proof (lay_new _ _ _ _ _ _ _ _ L) as Tn.
  pose proof (lay_old _ _ _ _ _ _ _ _ L) as To.
  simpl in To. destruct To as [Eo To]. fold nx in To. subst ol.
  assert (Ho : In o (Lnew ++ o :: Lold)) by (apply in_or_app; right; now left).
  assert (Hsub : forall e, In e (Lnew ++ Lold) -> In e (Lnew ++ o :: Lold)).
  { intros e He. apply in_app_or in He as [He|He]; apply in_or_app;
      [now left|right; now right]. }
  set (b := bk o).
  assert (Hb : is_bucket hs b) by (apply (lay_bk _ _ _ _ _ _ _ _ L); exact Ho).
  pose proof (lay_chains _ _ _ _ _ _ _ _ L b Hb) as Hch.
  rewrite in_bucket_old in Hch. fold b in Hch. rewrite Z.eqb_refl in Hch.
  set (l := in_bucket bk b (by_age Lnew Lold)) in *.
  assert (Hnd : NoDup l).
  { pose proof (live_NoDup _ _ _ _ _ _ _ _ L G) as N.
    apply (NoDup_filter (fun p => bk p =? b)) in N.
    fold (in_bucket bk b (by_age Lnew (o :: Lold))) in N.
    rewrite in_bucket_old in N. now apply NoDup_app_remove_r in N. }
  assert (Hl : forall e, In e l -> In e (Lnew ++ Lold) /\ bk e = b).
  { intros e He. apply in_bucket_In in He as [He Hbe].
    apply (proj1 (by_age_In _ _ _)) in He. now split. }
  destruct (xchain_drop_last _ _ _ _ _ Hch Hnd) as (Hlink & Hsingle & Hrest).
  fold pr in Hlink.
  assert (Hcell : cell hs Lnew (o :: Lold) pr).
  { rewrite Hlink. destruct (last_In_or l b) as [->|Hin]; [now left|].
    right. apply Hsub. now apply Hl. }
  pose proof (cell_range _ _ _ _ _ _ _ _ L G pr Hcell) as Hrange.
  assert (Hnx : nx <= un) by (now apply tiled_le in To).
  split; [reflexivity|]. split; [lia|]. split; [lia|]. split; [exact Hnx|].
  intros m' Hs.
  destruct (link_write_frame _ _ _ _ _ _ _ _ L G pr _ m' Hcell
              (uint32_pack_length _) Hs) as [Flen Flink].
  assert (Hpr : word_at m' pr = Z.lxor (word_at m pr) o).
  { rewrite (word_at_store_same _ _ _ _ Hs). apply u32_small.
    apply (lxor_range 32); [lia|apply word_at_range|].
    pose proof (live_range _ _ _ _ _ _ _ _ L G o Ho). destruct G. lia. }
  split; [apply (Flen o Ho)|]. split; [apply (Flen o Ho)|].
  split.
  2:{ intros e He.
      exact (link_write_body _ _ _ _ _ _ _ _ L G pr _ m' Hcell
               (uint32_pack_length _) Hs e (Hsub e He)). }
  constructor.
  - apply (tiled_frame m); [exact Tn|].
    intros e He. apply Flen. apply in_or_app. now left.
  - apply (tiled_frame m); [exact To|].
    intros e He. apply Flen. apply in_or_app. right. now right.
  - intros p Hp. apply (lay_bk _ _ _ _ _ _ _ _ L). now apply Hsub.
  - intros b' Hb'.
    pose proof (lay_chains _ _ _ _ _ _ _ _ L b' Hb') as Hch'.
    rewrite in_bucket_old in Hch'. fold b in Hch'.
    destruct (Z.eqb_spec b b') as [<-|Hbb].
    + fold l in Hch' |- *.
      destruct (last_In_or l b) as [El|Hin].
      * rewrite El in *. simpl in Hlink. simpl.
        rewrite <- Hlink, Hpr, Hlink, (Hsingle eq_refl).
        apply Z.lxor_nilpotent.
      * rewrite <- Hlink in Hin. destruct (Hl _ Hin) as [Hin' _].
        assert (Hne : b <> pr).
        { pose proof (live_range _ _ _ _ _ _ _ _ L G pr (Hsub _ Hin')).
          destruct Hb as (? & ? & ?). lia. }
        rewrite (Flink b (or_introl Hb) Hne).
        apply Hrest; [now rewrite <- Hlink| |intros ->; contradiction].
        intros e He Hepr. rewrite <- Hlink in Hepr.
        apply Flink; [|exact Hepr]. right. apply Hsub. now apply Hl.
    + rewrite app_nil_r in Hch'.
      assert (Hne : b' <> pr).
      { rewrite Hlink. destruct (last_In_or l b) as [->|Hin]; [simpl; congruence|].
        destruct (Hl _ Hin) as [Hin' _]. apply Hsub in Hin'.
        apply (live_range _ _ _ _ _ _ _ _ L G) in Hin'.
        destruct Hb' as (? & ? & ?). lia. }
      rewrite (Flink b' (or_introl Hb') Hne).
      apply (xchain_frame m); [exact Hch'|].
      intros e He. apply in_bucket_In in He as [He Hbe].
      apply (proj1 (by_age_In _ _ _)) in He.
      apply Flink; [right; now apply Hsub|].
      rewrite Hlink. destruct (last_In_or l b) as [->|Hin].
      * simpl. apply Hsub in He.
        apply (live_range _ _ _ _ _ _ _ _ L G) in He.
        destruct Hb as (? & ? & ?). lia.
      * destruct (Hl _ Hin) as [_ Hbpr]. congruence.
Qed.

(** ** Adding an entry at [writer] *)

(** The first entry of a chain is 0 or an entry of that bucket. *)
Lemma chain_head m hs wr ol un Lnew Lold bk b :
  layout m hs wr ol un Lnew Lold bk -> is_bucket hs b ->
  word_at m b = 0 \/
  (In (word_at m b) (Lnew ++ Lold) /\ bk (word_at m b) = b).
Proof.
  intros L Hb. pose proof (lay_chains _ _ _ _ _ _ _ _ L b Hb) as H.
  destruct (in_bucket bk b (by_age Lnew Lold)) as [|c l] eqn:E; simpl in H.
  - now left.
  - right. destruct H as (Hc & _ & _). rewrite Hc.
    assert (Hin : In c (in_bucket bk b (by_age Lnew Lold)))
      by (rewrite E; now left).
    apply in_bucket_In in Hin as [Hin Hbk].
    apply (proj1 (by_age_In _ _ _)) in Hin. now split.
Qed.

Lemma layout_append m m' hs wr ol un Lnew Lold bk b keylen datalen :
  layout m hs wr ol un Lnew Lold bk ->
  geom m hs wr ol un ->
  is_bucket hs b ->
  0 <= keylen -> 0 <= datalen ->
  wr + 20 + keylen + datalen <= ol ->
  let cur := word_at m b in
  (forall q, 0 <= q ->
     q + 4 <= wr \/ wr + 20 + keylen + datalen <= q ->
     q + 4 <= b \/ b + 4 <= q ->
     cur = 0 \/ q + 4 <= cur \/ cur + 4 <= q ->
     word_at m' q = word_at m q) ->
  word_at m' b = wr ->
  word_at m' wr = Z.lxor cur b ->
  word_at m' (wr + 4) = keylen ->
  word_at m' (wr + 8) = datalen ->
  (cur <> 0 -> word_at m' cur = Z.lxor (Z.lxor (word_at m cur) b) wr) ->
  layout m' hs (wr + 20 + keylen + datalen) ol un (Lnew ++ [wr]) Lold
    (fun p => if p =? wr then b else bk p).
Proof.
  intros L G Hb Hkl Hdl Hfit cur Hframe Vb Vw Vkl Vdl Vcur.
  pose proof (lay_new _ _ _ _ _ _ _ _ L) as Tn.
  pose proof (lay_old _ _ _ _ _ _ _ _ L) as To.
  pose proof (live_range _ _ _ _ _ _ _ _ L G) as Hrange.
  pose proof (live_apart _ _ _ _ _ _ _ _ L G) as Hapart.
  assert (Hcur : cur = 0 \/ (In cur (Lnew ++ Lold) /\ bk cur = b))
    by (apply (chain_head _ _ _ _ _ _ _ _ _ L Hb)).
  assert (Hwr : ~ In wr (Lnew ++ Lold)).
  { intros H. apply Hrange in H. lia. }
  assert (Hhs : 4 <= hs /\ hs <= wr) by (destruct G; lia).
  destruct Hb as (Hb0 & Hb1 & Hb2).
  assert (Flen : forall e, In e (Lnew ++ Lold) ->
            word_at m' (e + 4) = word_at m (e + 4) /\
            word_at m' (e + 8) = word_at m (e + 8)).
  { intros e He. pose proof (Hrange e He).
    split; apply Hframe; try lia;
      (destruct Hcur as [?|[Hcur _]]; [now left|right];
       destruct (Hapart _ _ Hcur He); lia). }
  assert (Flink : forall e, In e (Lnew ++ Lold) -> e <> cur ->
            word_at m' e = word_at m e).
  { intros e He Hne. pose proof (Hrange e He).
    apply Hframe; try lia.
    destruct Hcur as [?|[Hcur _]]; [now left|right].
    destruct (Hapart _ _ Hcur He); [congruence|lia]. }
  assert (Ebk : forall b', in_bucket (fun p => if p =? wr then b else bk p) b'
                             (by_age Lnew Lold) =
                           in_bucket bk b' (by_age Lnew Lold)).
  { intros b'. unfold in_bucket. apply filter_ext_in. intros a Ha.
    apply (proj1 (by_age_In _ _ _)) in Ha.
    destruct (Z.eqb_spec a wr) as [->|_]; [contradiction|reflexivity]. }
  constructor.
  - apply (tiled_app _ _ _ _ wr).
    + apply (tiled_frame m); [exact Tn|].
      intros e He. apply Flen. apply in_or_app. now left.
    + simpl. split; [reflexivity|]. rewrite Vkl, Vdl. reflexivity.
  - apply (tiled_frame m); [exact To|].
    intros e He. apply Flen. apply in_or_app. now right.
  - intros p Hp. destruct (Z.eqb_spec p wr) as [->|Hne]; [repeat split; lia|].
    apply (lay_bk _ _ _ _ _ _ _ _ L).
    rewrite <- app_assoc in Hp. apply in_app_or in Hp as [Hp|Hp];
      apply in_or_app; [now left|right].
    destruct Hp as [Hp|Hp]; [congruence|exact Hp].
  - intros b' Hb'. rewrite in_bucket_new, Z.eqb_refl, Ebk.
    pose proof (lay_chains _ _ _ _ _ _ _ _ L b' Hb') as Hch.
    destruct (Z.eqb_spec b b') as [<-|Hbb].
    + rewrite Vb. simpl app.
      apply (xchain_push m m' b wr _ cur); try assumption.
      * pose proof (live_NoDup _ _ _ _ _ _ _ _ L G) as N.
        now apply NoDup_filter.
      * lia.
      * intros e He Hne. apply in_bucket_In in He as [He _].
        apply (proj1 (by_age_In _ _ _)) in He. now apply Flink.
    + simpl app.
      assert (Eb' : word_at m' b' = word_at m b').
      { destruct Hb' as (? & ? & ?). apply Hframe; try lia.
        - destruct (bucket_apart hs b' b) as [?|?];
            [repeat split; assumption|repeat split; assumption|congruence|lia].
        - destruct Hcur as [?|[Hcur _]]; [now left|right].
          apply Hrange in Hcur. lia. }
      rewrite Eb'.
      apply (xchain_frame m); [exact Hch|].
      intros e He. apply in_bucket_In in He as [He Hbe].
      apply (proj1 (by_age_In _ _ _)) in He. apply Flink; [exact He|].
      destruct Hcur as [E|[_ Hcb]]; [|congruence].
      rewrite E. apply Hrange in He. lia.
Qed.

(** * Well-formed caches *)

Section Proofs.
Context {FP : Double}.

Definition is_pow2 (h : Z) : Prop := exists k, 2 <= k /\ h = 2 ^ k.

(** The invariant of cache.c (the comment at the top of the file), with
    the entries [Lnew] and [Lold] and the bucket [bk] of each made
    explicit. *)
Record wf (c : cache) (m : arena) (Lnew Lold : list Z) (bk : Z -> Z)
    : Prop := {
  wf_x : c_x c = Some m;
  wf_len : c_size c <= Z.of_nat (length m);
  wf_size : MINCACHESIZE <= c_size c <= MAXCACHESIZE;
  wf_pow2 : is_pow2 (c_hsize c);
  wf_hsize : 16 * c_hsize c <= c_size c;
  wf_wr : c_hsize c <= c_writer c;
  wf_ol : c_writer c <= c_oldest c;
  wf_un : c_oldest c <= c_unused c;
  wf_sz : c_unused c <= c_size c;
  wf_empty : c_oldest c = c_unused c -> c_unused c = c_size c;
  wf_layout :
    layout m (c_hsize c) (c_writer c) (c_oldest c) (c_unused c) Lnew Lold bk
}.

Definition Inv (c : cache) : Prop :=
  exists m Lnew Lold bk, wf c m Lnew Lold bk.

Lemma is_pow2_ge h : is_pow2 h -> 4 <= h.
Proof.
  intros (k & Hk & ->). change 4 with (2 ^ 2).
  apply Z.pow_le_mono_r; lia.
Qed.

Lemma wf_geom c m Lnew Lold bk :
  wf c m Lnew Lold bk ->
  geom m (c_hsize c) (c_writer c) (c_oldest c) (c_unused c).
Proof.
  intros W. destruct W. unfold MAXCACHESIZE in *.
  constructor; try lia. now apply is_pow2_ge.
Qed.

(** ** [get4] and [set4] inside the arena *)

Definition arena_ok (c : cache) (m : arena) : Prop :=
  c_x c = Some m /\ c_size c <= Z.of_nat (length m) /\
  4 <= c_size c < 2 ^ 32.

Lemma wf_arena_ok c m Lnew Lold bk : wf c m Lnew Lold bk -> arena_ok c m.
Proof.
  intros W. destruct W. unfold MINCACHESIZE, MAXCACHESIZE in *.
  repeat split; try assumption; lia.
Qed.

Lemma get4_spec c m p :
  arena_ok c m -> 0 <= p -> p + 4 <= c_size c ->
  get4 c p = Ret (word_at m p).
Proof.
  intros (Hx & Hlen & Hsz) Hp Hp4. unfold get4.
  rewrite u32_small by lia.
  destruct (Z.gtb_spec p (c_size c - 4)); [lia|].
  rewrite Hx. unfold word_at.
  destruct (load_Some m p 4) as (bs & -> & _); [lia..|reflexivity].
Qed.

Lemma set4_spec c m p v :
  arena_ok c m -> 0 <= p -> p + 4 <= c_size c ->
  exists m', store m p (uint32_pack v) = Some m' /\
             set4 c p v = Ret (set_x (Some m') c) /\
             arena_ok (set_x (Some m') c) m'.
Proof.
  intros (Hx & Hlen & Hsz) Hp Hp4. unfold set4.
  rewrite u32_small by lia.
  destruct (Z.gtb_spec p (c_size c - 4)); [lia|].
  rewrite Hx.
  destruct (store4_Some m p v) as (m' & Hs); [lia..|].
  exists m'. rewrite Hs. repeat split; try (simpl; lia).
  simpl. apply store_length in Hs. lia.
Qed.

Lemma layout_old_empty m hs wr ol un Lnew bk z :
  layout m hs wr ol un Lnew [] bk -> layout m hs wr z z Lnew [] bk.
Proof.
  intros [Tn To Hbk Hch]. constructor; try assumption. reflexivity.
Qed.

(** ** [evict] keeps the invariant *)

(** The fields that the loop of [cache_t_set] never touches. *)
Definition same_frame (c c' : cache) : Prop :=
  c_size c' = c_size c /\ c_hsize c' = c_hsize c /\
  c_cache_motion c' = c_cache_motion c /\ c_cycle c' = c_cycle c /\
  c_options c' = c_options c.

Lemma evict_spec c m Lnew o Lold bk :
  wf c m Lnew (o :: Lold) bk ->
  exists c' m',
    evict c = Ret c' /\ wf c' m' Lnew Lold bk /\
    c_writer c' = c_writer c /\ same_frame c c' /\
    (forall e, In e (Lnew ++ Lold) -> body_frame m m' e).
Proof.
  intros W. pose proof (wf_geom _ _ _ _ _ W) as G.
  pose proof (wf_arena_ok _ _ _ _ _ W) as A.
  destruct (layout_evict _ _ _ _ _ _ _ _ _ (wf_layout _ _ _ _ _ W) G)
    as (Eo & Hpr0 & Hpr4 & Hnx & Hstep).
  pose proof (live_range _ _ _ _ _ _ _ _ (wf_layout _ _ _ _ _ W) G o) as Ho.
  specialize (Ho ltac:(apply in_or_app; right; now left)).
  destruct W as [Hx Hlen Hsz Hp2 Hhs Hwr Hol Hun Hsze Hempty HL].
  pose proof (is_pow2_ge _ Hp2) as Hhs4.
  unfold MINCACHESIZE, MAXCACHESIZE in *.
  pose proof (word_at_range m (o + 4)) as Rk.
  pose proof (word_at_range m (o + 8)) as Rd.
  unfold evict. rewrite <- Eo.
  rewrite (get4_spec c m o A) by lia. simpl bind.
  rewrite (get4_spec c m _ A) by lia. simpl bind.
  destruct (set4_spec c m (word_at m o) (Z.lxor (word_at m (word_at m o)) o) A)
    as (m' & Hs & -> & A'); [lia..|]. simpl bind.
  destruct (Hstep m' Hs) as (Ekl & Edl & L' & FB).
  rewrite <- Eo.
  rewrite !(u32_small (o + _)) by lia.
  rewrite (get4_spec _ m' _ A') by (simpl; lia). simpl bind.
  rewrite (get4_spec _ m' _ A') by (simpl; lia). simpl bind.
  rewrite Ekl, Edl.
  rewrite (u32_small (word_at m (o + 4) + word_at m (o + 8))) by lia.
  rewrite (u32_small (word_at m (o + 4) + word_at m (o + 8) + 20)) by lia.
  rewrite (u32_small (o + _)) by lia.
  replace (o + (word_at m (o + 4) + word_at m (o + 8) + 20))
    with (o + 20 + word_at m (o + 4) + word_at m (o + 8)) by lia.
  set (nx := o + 20 + word_at m (o + 4) + word_at m (o + 8)) in *.
  destruct (Z.gtb_spec nx (c_unused c)); [lia|].
  destruct (Z.eqb_spec nx (c_unused c)) as [E|E].
  - eexists. exists m'. split; [reflexivity|].
    assert (Lold = []) as ->.
    { pose proof (lay_old _ _ _ _ _ _ _ _ L') as T. rewrite E in T.
      exact (tiled_same _ _ _ T). }
    split; [|split; [reflexivity|split; [repeat split|exact FB]]].
    constructor; cbn; try assumption; try reflexivity; try lia.
    + apply store_length in Hs. lia.
    + exact (layout_old_empty _ _ _ _ _ _ _ _ L').
  - eexists. exists m'. split; [reflexivity|].
    split; [|split; [reflexivity|split; [repeat split|exact FB]]].
    constructor; cbn; try assumption; try reflexivity; try lia.
    apply store_length in Hs. lia.
Qed.

Lemma evict_wf c m Lnew o Lold bk :
  wf c m Lnew (o :: Lold) bk ->
  exists c' m',
    evict c = Ret c' /\ wf c' m' Lnew Lold bk /\
    c_writer c' = c_writer c /\ same_frame c c'.
Proof.
  intros W.
  destruct (evict_spec c m Lnew o Lold bk W) as (c' & m' & E & W' & Ew & F & _).
  now exists c', m'.
Qed.

(** ** [init] builds a well-formed, empty cache *)

Definition clamp_size (cachesize : Z) : Z :=
  let cachesize :=
    if cachesize >? MAXCACHESIZE then MAXCACHESIZE else cachesize in
  if cachesize <? MINCACHESIZE then MINCACHESIZE else cachesize.

Lemma clamp_size_range n : MINCACHESIZE <= clamp_size n <= MAXCACHESIZE.
Proof.
  unfold clamp_size, MINCACHESIZE, MAXCACHESIZE.
  destruct (Z.gtb_spec n 1000000000);
    match goal with |- context [?a <? 100] => destruct (Z.ltb_spec a 100) end;
    lia.
Qed.

Lemma hsize_loop_spec s : 0 <= s < 2 ^ 25 ->
  forall fuel k,
    2 <= k -> 28 <= k + Z.of_nat fuel -> (k = 2 \/ 2 ^ (k - 1) <= s) ->
    exists k', hsize_loop fuel (2 ^ k) (s * 32) = Ret (2 ^ k') /\
               2 <= k' /\ s < 2 ^ k' /\ (k' = 2 \/ 2 ^ (k' - 1) <= s).
Proof.
  intros Hs. induction fuel as [|fuel IH]; intros k Hk Hfuel Hprev.
  - exfalso. destruct Hprev as [->|Hprev]; [lia|].
    assert (2 ^ 25 <= 2 ^ (k - 1)) by (apply Z.pow_le_mono_r; lia). lia.
  - cbn [hsize_loop]. rewrite Z.shiftr_div_pow2 by lia.
    change (2 ^ 5) with 32. rewrite Z.div_mul by lia.
    destruct (Z.leb_spec (2 ^ k) s) as [Hle|Hgt].
    + assert (k < 25).
      { destruct (Z_lt_le_dec k 25); [assumption|].
        assert (2 ^ 25 <= 2 ^ k) by (apply Z.pow_le_mono_r; lia). lia. }
      rewrite Z.shiftl_mul_pow2 by lia. change (2 ^ 1) with 2.
      replace (2 ^ k * 2) with (2 ^ (k + 1)) by (rewrite Z.pow_add_r; lia).
      rewrite u32_small.
      2:{ split; [apply Z.pow_nonneg; lia|].
          apply Z.pow_lt_mono_r; lia. }
      apply IH; [lia|lia|].
      right. now replace (k + 1 - 1) with k by lia.
    + exists k. repeat split; try assumption; lia.
Qed.

Lemma hsize_loop_ok size :
  0 <= size <= MAXCACHESIZE ->
  exists h, hsize_loop 33 4 size = Ret h /\ is_pow2 h /\
            size / 32 < h /\ (h = 4 \/ h / 2 <= size / 32).
Proof.
  intros Hsz. unfold MAXCACHESIZE in Hsz.
  assert (Hs : 0 <= size / 32 < 2 ^ 25).
  { split; [apply Z.div_pos; lia|].
    apply Z.div_lt_upper_bound; [lia|]. change (32 * 2 ^ 25) with 1073741824.
    lia. }
  assert (Hloop : forall fuel h, hsize_loop fuel h size =
                                 hsize_loop fuel h (size / 32 * 32)).
  { induction fuel as [|fuel IH]; intros h; [reflexivity|]. cbn [hsize_loop].
    rewrite !Z.shiftr_div_pow2 by lia. change (2 ^ 5) with 32.
    rewrite Z.div_mul by lia. now rewrite IH. }
  rewrite Hloop.
  destruct (hsize_loop_spec _ Hs 33%nat 2) as (k & Hk & Hk2 & Hlt & Hprev);
    [lia|lia|now left|].
  exists (2 ^ k). split; [exact Hk|]. split; [exists k; split; [exact Hk2|reflexivity]|].
  split; [exact Hlt|].
  destruct Hprev as [->|Hprev]; [now left|right].
  replace k with (k - 1 + 1) at 1 by lia.
  rewrite Z.pow_add_r by lia. change (2 ^ 1) with 2.
  now rewrite Z.div_mul by lia.
Qed.

Lemma is_pow2_hsize size h :
  MINCACHESIZE <= size -> is_pow2 h -> (h = 4 \/ h / 2 <= size / 32) ->
  16 * h <= size.
Proof.
  unfold MINCACHESIZE. intros Hsz (k & Hk & ->) [E|H].
  - rewrite E. lia.
  - replace k with (k - 1 + 1) in * by lia.
    rewrite Z.pow_add_r in * by lia. change (2 ^ 1) with 2 in *.
    rewrite Z.div_mul in H by lia.
    pose proof (Z.mul_div_le size 32 ltac:(lia)). lia.
Qed.

(** A zeroed buffer holds the word 0 everywhere. *)
Lemma word_at_zeroed mem n m p :
  store mem 0 (repeat Byte.x00 (Z.to_nat n)) = Some m ->
  0 <= p -> p + 4 <= n -> word_at m p = 0.
Proof.
  intros Hs Hp Hp4. pose proof (store_inv _ _ _ _ Hs) as [_ Hl].
  rewrite repeat_length in Hl.
  pose proof (store_length _ _ _ _ Hs) as Hlen.
  unfold word_at.
  destruct (load_Some m p 4) as (bs & Hload & Hbl); [lia..|].
  rewrite Hload.
  assert (bs = repeat Byte.x00 4) as ->; [|reflexivity].
  apply nth_ext with (d := Byte.x00) (d' := Byte.x00);
    [rewrite repeat_length; exact Hbl|].
  intros i Hi. rewrite (load_nth _ _ _ _ i Byte.x00 Hload) by lia.
  rewrite (store_nth _ _ _ _ _ Byte.x00 Hs), repeat_length.
  rewrite !nth_repeat.
  destruct (Nat.leb_spec (Z.to_nat 0) (Z.to_nat p + i)); [|lia].
  destruct (Nat.ltb_spec (Z.to_nat p + i) (Z.to_nat 0 + Z.to_nat n));
    [reflexivity|lia].
Qed.

(** [w'] is [w] after some readings of the clock and some allocations. *)
Definition later (w w' : world) : Prop :=
  (exists k, forall i, clock w' i = clock w (k + i)%nat) /\
  (exists k, forall i, heap w' i = heap w (k + i)%nat) /\
  is_default w' = is_default w.

Lemma later_refl w : later w w.
Proof. repeat split; exists O; reflexivity. Qed.

Lemma later_trans w1 w2 w3 : later w1 w2 -> later w2 w3 -> later w1 w3.
Proof.
  intros ([k1 H1] & [h1 G1] & D1) ([k2 H2] & [h2 G2] & D2).
  repeat split; [exists (k1 + k2)%nat|exists (h1 + h2)%nat|congruence];
    intros i; [rewrite H2, H1|rewrite G2, G1]; f_equal; lia.
Qed.

Lemma later_tick w : later w (snd (tick w)).
Proof. repeat split; [exists 1%nat|exists O]; reflexivity. Qed.

Lemma later_alloc n w : later w (snd (alloc n w)).
Proof. repeat split; [exists O|exists 1%nat]; reflexivity. Qed.

Lemma later_log a b w : later w (log_cache_resize a b w).
Proof. repeat split; exists O; reflexivity. Qed.

Lemma later_motion n w : later w (add_global_motion n w).
Proof. repeat split; exists O; reflexivity. Qed.

(** The allocator never fails. *)
Definition heap_ok (w : world) : Prop := forall i, heap w i = true.

Lemma heap_ok_later w w' : heap_ok w -> later w w' -> heap_ok w'.
Proof. intros H (_ & [k Hk] & _) i. rewrite Hk. apply H. Qed.

(** The options [init] leaves in the instance. *)
Definition init_options (c : cache) (options : option cache_options)
    : cache_options :=
  match options with
  | Some o => o
  | None => {| allow_resize := true;
               target_cycle_time := DEFAULT_TARGET_CYCLETIME;
               resize_callback := resize_callback (c_options c) |}
  end.

(** What a successful [init] leaves behind. *)
Record init_post (c : cache) (cachesize : Z) (options : option cache_options)
    (w : world) (c' : cache) (w' : world) : Prop := {
  ip_wf : exists m', wf c' m' [] [] (fun _ => 0);
  ip_size : c_size c' = clamp_size cachesize;
  ip_hsize_gt : c_size c' / 32 < c_hsize c';
  ip_hsize_min : c_hsize c' = 4 \/ c_hsize c' / 2 <= c_size c' / 32;
  ip_writer : c_writer c' = c_hsize c';
  ip_oldest : c_oldest c' = c_size c';
  ip_unused : c_unused c' = c_size c';
  ip_motion : c_cache_motion c' = c_cache_motion c;
  ip_ttl : ttl (c_cycle c') = ttl (c_cycle c);
  ip_ratio : last_ratio (c_cycle c') = d_lit 0 0;
  ip_start : start (c_cycle c') = taia_of_timeval (clock w O);
  ip_options : c_options c' = init_options c options;
  ip_later : later w w'
}.

Lemma init_ok c cachesize options w :
  heap w O = true -> 0 <= cachesize -> clamp_size cachesize <= cachesize ->
  exists c' w',
    init c cachesize options w = Ret (1, c', w') /\
    init_post c cachesize options w c' w'.
Proof.
  intros Hheap Hcs Hfit. unfold init, alloc. rewrite Hheap.
  fold (clamp_size cachesize).
  cbn [c_size set_size set_x].
  pose proof (clamp_size_range cachesize) as Hr.
  assert (Hr0 : 0 <= clamp_size cachesize <= MAXCACHESIZE)
    by (unfold MINCACHESIZE in Hr; lia).
  destruct (hsize_loop_ok _ Hr0) as (h & -> & Hp2 & Hgt & Hmin).
  cbn [bind c_size set_size set_x set_hsize]. unfold byte_zero.
  set (mem := map (junk w) (seq 0 (Z.to_nat cachesize))).
  assert (Hmem : length mem = Z.to_nat cachesize)
    by (unfold mem; now rewrite length_map, length_seq).
  assert (Hst : 0 + Z.of_nat (length (repeat Byte.x00
                  (Z.to_nat (clamp_size cachesize)))) <= Z.of_nat (length mem))
    by (rewrite repeat_length; unfold MINCACHESIZE in Hr; lia).
  destruct (store_Some mem 0 _ (Z.le_refl 0) Hst) as (m' & Hs).
  rewrite Hs. cbn [bind]. unfold taia_now, tick.
  cbn [clock heap junk stdout g_cache_motion is_default].
  eexists. eexists. split; [reflexivity|].
  pose proof (is_pow2_ge _ Hp2) as Hh4.
  pose proof (is_pow2_hsize _ _ (proj1 Hr) Hp2 Hmin) as H16.
  unfold MINCACHESIZE, MAXCACHESIZE in Hr.
  constructor;
    try (destruct options; cbn; solve [reflexivity|assumption]).
  - exists m'. constructor; destruct options; cbn; try assumption;
      try reflexivity; try lia;
      try (apply store_length in Hs; lia);
      (constructor; [reflexivity|reflexivity|intros p []|];
       intros b (Hb0 & Hb4 & _); simpl;
       apply (word_at_zeroed _ _ _ _ Hs); lia).
  - repeat split; try (exists 1%nat; reflexivity).
Qed.

(** A failing allocation: [init] gives 0 and leaves the instance as it
    was. *)
Lemma init_fail c cachesize options w :
  heap w O = false ->
  init c cachesize options w = Ret (0, c, snd (alloc cachesize w)).
Proof. intros H. unfold init, alloc. now rewrite H. Qed.

(** ** [check_for_resize] *)

Definition same_arena (c c' : cache) : Prop :=
  c_x c' = c_x c /\ c_size c' = c_size c /\ c_hsize c' = c_hsize c /\
  c_writer c' = c_writer c /\ c_oldest c' = c_oldest c /\
  c_unused c' = c_unused c.

Definition same_stats (c c' : cache) : Prop :=
  c_cache_motion c' = c_cache_motion c /\
  ttl (c_cycle c') = ttl (c_cycle c) /\
  c_options c' = c_options c.

(** A cache as [init] leaves it. *)
Definition fresh (c : cache) : Prop :=
  (exists m, wf c m [] [] (fun _ => 0)) /\
  c_writer c = c_hsize c /\ c_oldest c = c_size c /\ c_unused c = c_size c.

Lemma wf_same_arena c c' m Lnew Lold bk :
  wf c m Lnew Lold bk -> same_arena c c' -> wf c' m Lnew Lold bk.
Proof.
  intros W (Ex & Es & Eh & Ew & Eo & Eu).
  destruct W. constructor; rewrite ?Ex, ?Es, ?Eh, ?Ew, ?Eo, ?Eu; assumption.
Qed.

Lemma clamp_size_idem n : clamp_size (clamp_size n) = clamp_size n.
Proof.
  pose proof (clamp_size_range n) as H. unfold MINCACHESIZE, MAXCACHESIZE in H.
  unfold clamp_size at 1. unfold MINCACHESIZE, MAXCACHESIZE.
  destruct (Z.gtb_spec (clamp_size n) 1000000000); [lia|].
  destruct (Z.ltb_spec (clamp_size n) 100); [lia|reflexivity].
Qed.

Lemma should_resize_newsize c t :
  exists raw, snd (should_resize c t) = clamp_size raw.
Proof. unfold should_resize. cbn [snd]. eexists. reflexivity. Qed.

Lemma check_for_resize_spec c w :
  exists r c' w',
    check_for_resize c w = Ret (r, c', w') /\ later w w' /\
    (r = false ->
       same_arena c c' /\ same_stats c c' /\
       start (c_cycle c') = taia_of_timeval (clock w 1%nat)) /\
    (r = true ->
       allow_resize (c_options c) = true /\
       ((heap w O = true /\ fresh c' /\ c_options c' = c_options c /\
         ttl (c_cycle c') = ttl (c_cycle c) /\
         last_ratio (c_cycle c') = d_lit 0 0 /\
         start (c_cycle c') = taia_of_timeval (clock w 1%nat)) \/
        (heap w O = false /\ same_arena c c' /\ same_stats c c' /\
         last_ratio (c_cycle c') = d_lit 0 0))).
Proof.
  unfold check_for_resize, taia_now.
  set (w1 := snd (tick w)). cbn [tick fst snd].
  fold w1. change (let '(tv, w0) := tick w in (taia_of_timeval tv, w0))
    with (taia_of_timeval (clock w O), w1).
  cbv iota beta.
  set (cycle_time := taia_approx _).
  assert (Hno : forall c0, same_arena c c0 -> same_stats c c0 ->
            exists r c' w',
              (let '(now, w0) := (let '(tv, w0) := tick w1 in
                                  (taia_of_timeval tv, w0)) in
               Ret (false, set_start now c0, w0)) = Ret (r, c', w') /\
              later w w' /\
              (r = false -> same_arena c c' /\ same_stats c c' /\
                 start (c_cycle c') = taia_of_timeval (clock w 1%nat)) /\
              (r = true -> allow_resize (c_options c) = true /\
                 ((heap w O = true /\ fresh c' /\
                   c_options c' = c_options c /\
                   ttl (c_cycle c') = ttl (c_cycle c) /\
                   last_ratio (c_cycle c') = d_lit 0 0 /\
                   start (c_cycle c') = taia_of_timeval (clock w 1%nat)) \/
                  (heap w O = false /\ same_arena c c' /\ same_stats c c' /\
                   last_ratio (c_cycle c') = d_lit 0 0)))).
  { intros c0 Ha Hs. eexists. eexists. eexists.
    split; [reflexivity|]. split.
    { repeat split; try (exists 2%nat; reflexivity). exists O. reflexivity. }
    split; [|discriminate]. intros _. split; [exact Ha|].
    split; [exact Hs|reflexivity]. }
  destruct (allow_resize (c_options c)) eqn:Eallow; cbn [andb].
  2:{ apply Hno; repeat split. }
  destruct (d_nonzero cycle_time).
  2:{ apply Hno; repeat split. }
  destruct (should_resize_newsize c cycle_time) as (raw & Hraw).
  destruct (should_resize c cycle_time) as [[resize ratio] newsize].
  cbn [snd] in Hraw. subst newsize.
  set (decision := match resize_callback (c_options c) with
                   | Some f => _ | None => resize end).
  destruct decision.
  2:{ apply Hno; repeat split. }
  cbn [c_size set_last_ratio set_cycle c_options].
  destruct (heap w O) eqn:Eheap.
  - match goal with
    | |- context [init ?a ?b ?o ?d] =>
        destruct (init_ok a b o d) as (c' & w' & Hinit & P)
    end.
    + exact Eheap.
    + pose proof (clamp_size_range raw). unfold MINCACHESIZE in *. lia.
    + rewrite clamp_size_idem. lia.
    + rewrite Hinit. cbn [bind].
      eexists. eexists. eexists. split; [reflexivity|].
      destruct P. split.
      { eapply later_trans; [|exact ip_later0].
        eapply later_trans; [apply (later_tick w)|].
        apply later_log. }
      split; [discriminate|]. intros _. split; [reflexivity|]. left.
      repeat split; try assumption.
  - rewrite init_fail by exact Eheap. cbn [bind].
    eexists. eexists. eexists. split; [reflexivity|]. split.
    { eapply later_trans; [apply (later_tick w)|].
      eapply later_trans; [apply later_log|]. apply later_alloc. }
    split; [discriminate|]. intros _. split; [reflexivity|]. right.
    repeat split.
Qed.

(** ** The loop of [cache_t_set] *)

Definition keeps (c c' : cache) : Prop :=
  c_size c' = c_size c /\ c_hsize c' = c_hsize c /\
  c_options c' = c_options c.

(** What the loop promises for an entry of [e] bytes, started in the cache
    [c] and the world [w]. *)
Definition room_ok (e : Z) (c : cache) (w : world) (r : room) : Prop :=
  match r with
  | Room c' w' =>
      Inv c' /\ c_writer c' + e <= c_oldest c' /\ keeps c c' /\ later w w'
  | Drop c' w' =>
      (exists m bk, wf c' m [] [] bk) /\ c_size c' - c_hsize c' < e /\
      keeps c c' /\ later w w'
  | Again c' w' =>
      Inv c' /\ (heap_ok w -> fresh c') /\
      allow_resize (c_options c) = true /\ c_options c' = c_options c /\
      later w w'
  end.

Lemma room_ok_step e c w c2 w2 r :
  keeps c c2 -> later w w2 -> room_ok e c2 w2 r -> room_ok e c w r.
Proof.
  intros (Es & Eh & Eo) Hl. destruct r as [c' w'|c' w'|c' w']; simpl.
  - intros (HI & Hfit & (Es' & Eh' & Eo') & Hl').
    split; [exact HI|]. split; [lia|].
    split; [repeat split; congruence|exact (later_trans _ _ _ Hl Hl')].
  - intros (HI & Hfit & (Es' & Eh' & Eo') & Hl').
    split; [exact HI|]. split; [lia|].
    split; [repeat split; congruence|exact (later_trans _ _ _ Hl Hl')].
  - intros (HI & Hfresh & Hallow & Eo' & Hl').
    split; [exact HI|]. split.
    { intros Hok. apply Hfresh. exact (heap_ok_later _ _ Hok Hl). }
    split; [congruence|]. split; [congruence|].
    exact (later_trans _ _ _ Hl Hl').
Qed.

Lemma tiled_nonempty m p q l : tiled m p q l -> p < q -> exists o l', l = o :: l'.
Proof.
  destruct l as [|o l']; simpl; [lia|]. intros _ _. now exists o, l'.
Qed.

Lemma wf_rotate c m Lnew bk :
  wf c m Lnew [] bk -> c_hsize c < c_writer c ->
  wf (rotate c) m [] Lnew bk.
Proof.
  intros W Hlt. destruct W. unfold rotate. constructor; cbn; try assumption;
    try lia.
  destruct wf_layout0 as [Tn To Hbk Hch].
  constructor; [reflexivity|exact Tn| |].
  - intros p Hp. apply Hbk. now rewrite app_nil_r.
  - intros b Hb. specialize (Hch b Hb). unfold by_age in *.
    simpl in *. now rewrite app_nil_r in Hch.
Qed.

Lemma make_room_spec e : 20 <= e <= 2000000 ->
  forall fuel c m Lnew Lold bk w,
    wf c m Lnew Lold bk ->
    match make_room fuel e c w with
    | Ret r => room_ok e c w r
    | Timeout => (fuel <= length Lnew + length Lold)%nat
    | Exit111 | Fault => False
    end.
Proof.
  intros He. induction fuel as [|fuel IH]; intros c m Lnew Lold bk w W.
  - simpl. lia.
  - cbn [make_room].
    pose proof W as [Hx Hlen Hsz Hp2 Hhs Hwr Hol Hun Hsze Hempty HL].
    unfold MINCACHESIZE, MAXCACHESIZE in Hsz.
    pose proof (is_pow2_ge _ Hp2) as Hh4.
    rewrite u32_small by lia.
    destruct (Z.gtb_spec (c_writer c + e) (c_oldest c)) as [Hfull|Hroom].
    2:{ simpl. split; [now exists m, Lnew, Lold, bk|].
        split; [lia|]. split; [repeat split|apply later_refl]. }
    destruct (Z.eqb_spec (c_oldest c) (c_unused c)) as [Eou|Nou].
    + assert (Lold = []) as ->.
      { pose proof (lay_old _ _ _ _ _ _ _ _ HL) as T. rewrite Eou in T.
        exact (tiled_same _ _ _ T). }
      destruct (Z.leb_spec (c_writer c) (c_hsize c)) as [Hle|Hgt].
      * simpl. assert (Lnew = []) as ->.
        { pose proof (lay_new _ _ _ _ _ _ _ _ HL) as T.
          replace (c_writer c) with (c_hsize c) in T by lia.
          exact (tiled_same _ _ _ T). }
        split; [now exists m, bk|]. split; [lia|].
        split; [repeat split|apply later_refl].
      * destruct (check_for_resize_spec c w)
          as (r & c1 & w1 & -> & Hl & Hfalse & Htrue).
        cbn [bind]. destruct r.
        -- destruct (Htrue eq_refl) as (Hallow & Hcase). simpl.
           destruct Hcase as [(Hheap & Hfresh & Eo & _)|(Hheap & Ha & Hs & _)].
           ++ split; [destruct Hfresh as ((m1 & W1) & _); now exists m1, [], [], (fun _ => 0)|].
              split; [intros _; exact Hfresh|]. split; [exact Hallow|].
              split; [exact Eo|exact Hl].
           ++ split; [exists m, Lnew, [], bk; exact (wf_same_arena _ _ _ _ _ _ W Ha)|].
              split; [intros Hok; specialize (Hok O); congruence|].
              destruct Hs as (_ & _ & Eo). split; [exact Hallow|].
              split; [exact Eo|exact Hl].
        -- destruct (Hfalse eq_refl) as (Ha & (_ & _ & Eo) & _).
           pose proof (wf_same_arena _ _ _ _ _ _ W Ha) as W1.
           destruct Ha as (_ & Es1 & Eh1 & Ew1 & _).
           assert (Hgt1 : c_hsize c1 < c_writer c1) by lia.
           pose proof (wf_rotate _ _ _ _ W1 Hgt1) as Wr.
           destruct (tiled_nonempty _ _ _ _ (lay_new _ _ _ _ _ _ _ _ HL) Hgt)
             as (o & Lnew' & ->).
           destruct (evict_wf _ _ _ _ _ _ Wr)
             as (c2 & m2 & -> & W2 & _ & (Es2 & Eh2 & _ & _ & Eo2)).
           cbn [bind]. specialize (IH c2 m2 [] Lnew' bk w1 W2).
           destruct (make_room fuel e c2 w1) as [r| | |];
             try contradiction.
           ++ apply (room_ok_step _ _ _ c2 w1); [|exact Hl|exact IH].
              unfold rotate in *. cbn in Es2, Eh2, Eo2.
              repeat split; congruence.
           ++ simpl in IH |- *. lia.
    + assert (Hlt : c_oldest c < c_unused c) by lia.
      destruct (tiled_nonempty _ _ _ _ (lay_old _ _ _ _ _ _ _ _ HL) Hlt)
        as (o & Lold' & ->).
      destruct (evict_wf _ _ _ _ _ _ W)
        as (c2 & m2 & -> & W2 & _ & (Es2 & Eh2 & _ & _ & Eo2)).
      cbn [bind]. specialize (IH c2 m2 Lnew Lold' bk w W2).
      destruct (make_room fuel e c2 w) as [r| | |]; try contradiction.
      * apply (room_ok_step _ _ _ c2 w); [|apply later_refl|exact IH].
        repeat split; congruence.
      * simpl in IH |- *. lia.
Qed.

(** ** [hash] gives a head of the table *)

Lemma hash_bucket c key :
  is_pow2 (c_hsize c) -> c_hsize c < 2 ^ 32 ->
  is_bucket (c_hsize c) (hash c key).
Proof.
  intros (k & Hk & E) Hlt. unfold hash, is_bucket.
  assert (H4 : 4 <= c_hsize c) by (apply is_pow2_ge; now exists k).
  rewrite (u32_small (c_hsize c - 4)) by lia.
  set (r := u32 (Z.shiftl _ 2)).
  pose proof (u32_range (Z.shiftl (hash_loop 5381 key) 2)) as Hr. fold r in Hr.
  split; [apply Z.land_nonneg; now left|].
  split.
  - pose proof (land_le_r r (c_hsize c - 4)). lia.
  - rewrite E. now apply land_mod4.
Qed.

Lemma set_x_same c m : c_x c = Some m -> set_x (Some m) c = c.
Proof. destruct c. simpl. now intros ->. Qed.

(** ** [append] keeps the invariant and stores the entry *)

(** The entry written at [p] in [m]: the lengths, the expiry time, the key
    and the data. *)
Record entry_at (m : arena) (p : Z) (key data : list byte) (expire : Z)
    : Prop := {
  ea_keylen : word_at m (p + 4) = Z.of_nat (length key);
  ea_datalen : word_at m (p + 8) = Z.of_nat (length data);
  ea_expire : load m (p + 12) 8 = Some (tai_pack expire);
  ea_key : load m (p + 20) (Z.of_nat (length key)) = Some key;
  ea_data :
    load m (p + 20 + Z.of_nat (length key)) (Z.of_nat (length data))
    = Some data
}.

Ltac wframe H :=
  rewrite (word_at_store_other _ _ _ _ _ H)
    by (rewrite ?uint32_pack_length, ?tai_pack_length; lia).

Ltac lframe H :=
  rewrite (load_store_other _ _ _ _ _ _ H)
    by (rewrite ?uint32_pack_length, ?tai_pack_length; lia).

Lemma append_frame c m Lnew Lold bk key data ttl w :
  wf c m Lnew Lold bk ->
  Z.of_nat (length key) <= MAXKEYLEN ->
  Z.of_nat (length data) <= MAXDATALEN ->
  c_writer c + (Z.of_nat (length key) + Z.of_nat (length data) + 20)
    <= c_oldest c ->
  exists c' m' w',
    append c key data ttl
      (Z.of_nat (length key) + Z.of_nat (length data) + 20) w
      = Ret (c', w') /\
    wf c' m' (Lnew ++ [c_writer c]) Lold
      (fun p => if p =? c_writer c then hash c key else bk p) /\
    keeps c c' /\ later w w' /\
    word_at m' (hash c key) = c_writer c /\
    entry_at m' (c_writer c) key data
      (tai_add (tai_uint ttl) (tai_of_unix (tv_sec (clock w O)))) /\
    (forall e, In e (Lnew ++ Lold) -> body_frame m m' e) /\
    c_cache_motion c' =
      u64 (c_cache_motion c
           + (Z.of_nat (length key) + Z.of_nat (length data) + 20)) /\
    g_cache_motion w' =
      (if is_default w
       then u64 (g_cache_motion w
                 + (Z.of_nat (length key) + Z.of_nat (length data) + 20))
       else g_cache_motion w) /\
    c_writer c' =
      c_writer c + (Z.of_nat (length key) + Z.of_nat (length data) + 20) /\
    c_oldest c' = c_oldest c /\ c_unused c' = c_unused c /\
    w' =
      (if is_default w
       then add_global_motion
              (Z.of_nat (length key) + Z.of_nat (length data) + 20)
              (snd (tick w))
       else snd (tick w)).
Proof.
  intros W Hkl Hdl Hfit.
  pose proof (wf_geom _ _ _ _ _ W) as G.
  pose proof (wf_arena_ok _ _ _ _ _ W) as A.
  pose proof W as [Hx Hlen Hsz Hp2 Hhs Hwr Hol Hun Hsze Hempty HL].
  unfold MINCACHESIZE, MAXCACHESIZE, MAXKEYLEN, MAXDATALEN in *.
  pose proof (is_pow2_ge _ Hp2) as Hh4.
  assert (Hb : is_bucket (c_hsize c) (hash c key))
    by (apply hash_bucket; [assumption|lia]).
  pose proof (live_range _ _ _ _ _ _ _ _ HL G) as Hrange.
  pose proof (chain_head _ _ _ _ _ _ _ _ _ HL Hb) as Hcur.
  set (b := hash c key) in *. set (wr := c_writer c) in *.
  set (kl := Z.of_nat (length key)) in *.
  set (dl := Z.of_nat (length data)) in *.
  set (cur := word_at m b) in *.
  pose proof (word_at_range m b) as Rcur. fold cur in Rcur.
  destruct Hb as (Hb0 & Hb4 & Hbm).
  assert (Hcur' : cur = 0 \/ (c_hsize c <= cur /\
                    (cur + 20 <= wr \/ c_oldest c <= cur) /\
                    cur + 20 <= c_unused c)).
  { destruct Hcur as [?|[Hin _]]; [now left|right].
    apply Hrange in Hin. lia. }
  unfold append, tai_now, tick.
  cbn [clock heap junk stdout g_cache_motion is_default].
  fold b kl dl wr.
  set (expire := tai_add (tai_uint ttl) _).
  rewrite (get4_spec c m b A) by lia. fold cur. cbn [bind].
  (* the link of the old first entry *)
  assert (S1 : exists m1,
            (if cur =? 0 then Ret c
             else l <- get4 c cur ;;
                  set4 c cur (Z.lxor (Z.lxor l b) wr))
            = Ret (set_x (Some m1) c) /\
            arena_ok (set_x (Some m1) c) m1 /\
            length m1 = length m /\
            (forall q n, cur = 0 \/ q + n <= cur \/ cur + 4 <= q ->
               load m1 q n = load m q n) /\
            (cur <> 0 ->
               word_at m1 cur = Z.lxor (Z.lxor (word_at m cur) b) wr)).
  { destruct (Z.eqb_spec cur 0) as [E|E].
    - exists m. rewrite (set_x_same _ _ Hx).
      repeat split; try assumption; try lia; try contradiction.
    - destruct Hcur' as [?|Hc]; [contradiction|].
      rewrite (get4_spec c m cur A) by lia. cbn [bind].
      destruct (set4_spec c m cur (Z.lxor (Z.lxor (word_at m cur) b) wr) A)
        as (m1 & Hs1 & -> & A1); [lia..|].
      exists m1. split; [reflexivity|]. split; [exact A1|].
      split; [exact (store_length _ _ _ _ Hs1)|]. split.
      + intros q n [?|Hq]; [contradiction|]. lframe Hs1. reflexivity.
      + intros _. rewrite (word_at_store_same _ _ _ _ Hs1).
        apply u32_small. apply (lxor_range 32); [lia| |lia].
        apply (lxor_range 32); [lia|apply word_at_range|lia]. }
  destruct S1 as (m1 & -> & A1 & Hlen1 & F1l & V1). cbn [bind].
  assert (F1 : forall q, cur = 0 \/ q + 4 <= cur \/ cur + 4 <= q ->
            word_at m1 q = word_at m q).
  { intros q Hq. unfold word_at. now rewrite F1l. }
  change (c_writer (set_x (Some m1) c)) with wr.
  destruct (set4_spec _ m1 wr (Z.lxor cur b) A1)
    as (m2 & Hs2 & -> & A2); [cbn; lia..|]. cbn [bind].
  change (c_writer (set_x _ _)) with wr.
  rewrite (u32_small (wr + 4)) by lia.
  destruct (set4_spec _ m2 (wr + 4) kl A2)
    as (m3 & Hs3 & -> & A3); [cbn; lia..|]. cbn [bind].
  change (c_writer (set_x _ _)) with wr.
  rewrite (u32_small (wr + 8)) by lia.
  destruct (set4_spec _ m3 (wr + 8) dl A3)
    as (m4 & Hs4 & -> & A4); [cbn; lia..|]. cbn [bind].
  cbn [c_x set_x]. change (c_writer (set_x _ _)) with wr.
  pose proof (store_length _ _ _ _ Hs2) as Hlen2.
  pose proof (store_length _ _ _ _ Hs3) as Hlen3.
  pose proof (store_length _ _ _ _ Hs4) as Hlen4.
  unfold byte_copy.
  destruct (store_Some m4 (wr + 12) (tai_pack expire)) as (m5 & Hs5);
    [lia|rewrite tai_pack_length; lia|].
  rewrite Hs5. cbn [bind].
  pose proof (store_length _ _ _ _ Hs5) as Hlen5.
  destruct (store_Some m5 (wr + 20) key) as (m6 & Hs6); [lia|fold kl; lia|].
  rewrite Hs6. cbn [bind].
  pose proof (store_length _ _ _ _ Hs6) as Hlen6.
  destruct (store_Some m6 (wr + 20 + kl) data) as (m7 & Hs7);
    [lia|fold dl; lia|].
  rewrite Hs7. cbn [bind].
  pose proof (store_length _ _ _ _ Hs7) as Hlen7.
  set (c7 := cycle_stats_add_ttl _ _).
  change (c_writer c7) with wr.
  assert (A7 : arena_ok c7 m7).
  { destruct A as (_ & ? & ?). repeat split; cbn; lia. }
  destruct (set4_spec c7 m7 b wr A7) as (m8 & Hs8 & -> & A8);
    [lia|cbn; lia|]. cbn [bind].
  pose proof (store_length _ _ _ _ Hs8) as Hlen8.
  change (c_writer (set_x (Some m8) c7)) with wr.
  rewrite (u32_small (wr + _)) by lia.
  eexists. exists m8. eexists. split; [reflexivity|].
  assert (Frame : forall q, 0 <= q ->
            q + 4 <= wr \/ wr + 20 + kl + dl <= q ->
            q + 4 <= b \/ b + 4 <= q ->
            cur = 0 \/ q + 4 <= cur \/ cur + 4 <= q ->
            word_at m8 q = word_at m q).
  { intros q Hq Hgap Hhead Hold.
    wframe Hs8. wframe Hs7. wframe Hs6. wframe Hs5. wframe Hs4.
    wframe Hs3. wframe Hs2. now apply F1. }
  assert (Vb : word_at m8 b = wr).
  { rewrite (word_at_store_same _ _ _ _ Hs8). apply u32_small. lia. }
  assert (Vw : word_at m8 wr = Z.lxor cur b).
  { wframe Hs8. wframe Hs7. wframe Hs6. wframe Hs5. wframe Hs4. wframe Hs3.
    rewrite (word_at_store_same _ _ _ _ Hs2). apply u32_small.
    apply (lxor_range 32); lia. }
  assert (Vkl : word_at m8 (wr + 4) = kl).
  { wframe Hs8. wframe Hs7. wframe Hs6. wframe Hs5. wframe Hs4.
    rewrite (word_at_store_same _ _ _ _ Hs3). apply u32_small. lia. }
  assert (Vdl : word_at m8 (wr + 8) = dl).
  { wframe Hs8. wframe Hs7. wframe Hs6. wframe Hs5.
    rewrite (word_at_store_same _ _ _ _ Hs4). apply u32_small. lia. }
  assert (Vcur : cur <> 0 ->
            word_at m8 cur = Z.lxor (Z.lxor (word_at m cur) b) wr).
  { intros Hne. destruct Hcur' as [?|Hc]; [contradiction|].
    wframe Hs8. wframe Hs7. wframe Hs6. wframe Hs5. wframe Hs4. wframe Hs3.
    wframe Hs2. now apply V1. }
  assert (FB : forall e, In e (Lnew ++ Lold) -> body_frame m m8 e).
  { intros e He q n Hq Hn.
    pose proof (live_bounds _ _ _ _ _ _ _ _ HL e He) as Hbe.
    pose proof (word_at_range m (e + 4)) as Rk.
    pose proof (word_at_range m (e + 8)) as Rd.
    assert (Hec : cur = 0 \/ q + n <= cur \/ cur + 4 <= q).
    { destruct Hcur as [?|[Hc _]]; [now left|right].
      pose proof (word_at_range m (cur + 4)).
      pose proof (word_at_range m (cur + 8)).
      destruct (live_apart_ext _ _ _ _ _ _ _ _ HL G _ _ Hc He)
        as [?|?]; lia. }
    lframe Hs8. lframe Hs7. lframe Hs6. lframe Hs5. lframe Hs4.
    lframe Hs3. lframe Hs2. now apply F1l. }
  split; [|split; [repeat split|split; [|split; [exact Vb|split;
    [|split; [exact FB|split; [reflexivity|split;
       [destruct (is_default w); reflexivity|
        split; [reflexivity|split; [reflexivity|split;
          [reflexivity|reflexivity]]]]]]]]]]].
  2:{ destruct (is_default w) eqn:Ed;
        (repeat split;
         [exists 1%nat; reflexivity|exists O; reflexivity|cbn; congruence]). }
  - constructor; cbn; try assumption; try reflexivity; try lia.
    replace (wr + (kl + dl + 20)) with (wr + 20 + kl + dl) by lia.
    apply (layout_append m m8 _ _ _ _ _ _ _ b kl dl HL G); try assumption;
      try lia. repeat split; assumption.
  - constructor; fold kl dl.
    + exact Vkl.
    + exact Vdl.
    + lframe Hs8. lframe Hs7. lframe Hs6.
      pose proof (load_store_same _ _ _ _ Hs5) as H.
      now rewrite tai_pack_length in H.
    + lframe Hs8. lframe Hs7. exact (load_store_same _ _ _ _ Hs6).
    + lframe Hs8. exact (load_store_same _ _ _ _ Hs7).
Qed.

Lemma append_spec c m Lnew Lold bk key data ttl w :
  wf c m Lnew Lold bk ->
  Z.of_nat (length key) <= MAXKEYLEN ->
  Z.of_nat (length data) <= MAXDATALEN ->
  c_writer c + (Z.of_nat (length key) + Z.of_nat (length data) + 20)
    <= c_oldest c ->
  exists c' m' w',
    append c key data ttl
      (Z.of_nat (length key) + Z.of_nat (length data) + 20) w
      = Ret (c', w') /\
    wf c' m' (Lnew ++ [c_writer c]) Lold
      (fun p => if p =? c_writer c then hash c key else bk p) /\
    keeps c c' /\ later w w' /\
    word_at m' (hash c key) = c_writer c /\
    entry_at m' (c_writer c) key data
      (tai_add (tai_uint ttl) (tai_of_unix (tv_sec (clock w O)))).
Proof.
  intros W Hkl Hdl Hfit.
  destruct (append_frame c m Lnew Lold bk key data ttl w W Hkl Hdl Hfit)
    as (c' & m' & w' & E & W' & K & Hl & Hh & Ea & _).
  exists c', m', w'. split; [exact E|]. split; [exact W'|].
  split; [exact K|]. split; [exact Hl|]. split; [exact Hh|exact Ea].
Qed.

(** ** [cache_t_get] on the entry at the head of its chain *)

(** The entry for [key] with [data] and expiry [expire] is the first of the
    chain of its bucket. *)
Definition stored (c : cache) (key data : list byte) (expire : Z) : Prop :=
  exists m p,
    arena_ok c m /\ is_pow2 (c_hsize c) /\ c_hsize c <= p /\
    p + 20 + Z.of_nat (length key) + Z.of_nat (length data) <= c_size c /\
    word_at m (hash c key) = p /\
    entry_at m p key data expire.

(** The time to live that [cache_t_get] computes from the seconds left. *)
Definition ttl_of (left : Z) : Z :=
  let d := tai_approx left in
  let d := if d_ltb (d_of_Z 604800) d then d_of_Z 604800 else d in
  d_to_uint d.

Lemma ttl_of_small left : 0 <= left <= 604800 -> ttl_of left = left.
Proof.
  intros H. unfold ttl_of, tai_approx.
  rewrite d_ltb_of_Z by lia.
  destruct (Z.ltb_spec 604800 left); [lia|].
  apply d_to_uint_of_Z. lia.
Qed.

Lemma ttl_of_large left : 604800 < left < 2 ^ 64 -> ttl_of left = 604800.
Proof.
  intros H. unfold ttl_of, tai_approx.
  rewrite d_ltb_of_Z by lia.
  destruct (Z.ltb_spec 604800 left); [|lia].
  apply d_to_uint_of_Z. lia.
Qed.

Lemma walk_S fuel c m key keylen prevpos pos loop seen stamp w :
  walk (S fuel) c m key keylen prevpos pos loop seen stamp w =
  if pos =? 0 then Ret (None, seen, w) else
  r <- probe c m key keylen pos stamp w ;;
  match r with
  | Some (h, w) => Ret (h, S seen, w)
  | None =>
      l <- get4 c pos ;;
      if u32 (loop + 1) >? 100 then Ret (None, S seen, w)
      else walk fuel c m key keylen pos (Z.lxor prevpos l) (u32 (loop + 1))
             (S seen) stamp w
  end.
Proof. reflexivity. Qed.

Lemma get_stored c key data expire stamp w :
  stored c key data expire ->
  Z.of_nat (length key) <= MAXKEYLEN ->
  0 <= expire < 2 ^ 64 ->
  let now := tai_of_unix (tv_sec (clock w O)) in
  exists h,
    cache_t_get_seen c key stamp w =
      Ret (if expire <? now then None else Some h, 1%nat, snd (tick w)) /\
    hit_data c h = Some data /\
    datalen h = Z.of_nat (length data) /\
    ttl_left h = ttl_of (tai_sub expire now).
Proof.
  intros (m & p & A & Hp2 & Hhp & Hend & Hhead & E) Hkl Hexp now.
  pose proof (is_pow2_ge _ Hp2) as Hh4.
  pose proof A as (Hx & Hlen & Hsz).
  destruct E as [Ekl Edl Eexp Ekey Edata].
  unfold MAXKEYLEN in *.
  set (kl := Z.of_nat (length key)) in *.
  set (dl := Z.of_nat (length data)) in *.
  assert (Hb : is_bucket (c_hsize c) (hash c key))
    by (apply hash_bucket; [assumption|lia]).
  destruct Hb as (Hb0 & Hb4 & _).
  exists {| data_ptr := p + 20 + kl; datalen := dl;
            ttl_left := ttl_of (tai_sub expire now) |}.
  split; [|split; [|split; reflexivity]].
  2:{ unfold hit_data. rewrite Hx. exact Edata. }
  unfold cache_t_get_seen, MAXKEYLEN. rewrite Hx. fold kl.
  destruct (Z.gtb_spec kl 1000); [lia|].
  rewrite (get4_spec c m _ A) by lia. cbn [bind]. rewrite Hhead.
  rewrite walk_S. destruct (Z.eqb_spec p 0); [lia|].
  unfold probe.
  rewrite (u32_small (p + 4)), (u32_small (p + 8)), (u32_small (p + 20)) by lia.
  rewrite (get4_spec c m _ A) by lia. cbn [bind]. rewrite Ekl, Z.eqb_refl.
  rewrite (u32_small (p + 20 + kl)) by lia.
  destruct (Z.gtb_spec (p + 20 + kl) (c_size c)); [lia|].
  unfold byte_equal, peek. rewrite Ekey. cbn [bind].
  rewrite bytes_eqb_refl, Eexp. cbn [bind].
  rewrite tai_unpack_pack, (u64_small expire) by lia.
  unfold tai_now, tick. cbn [clock]. fold now. unfold tai_less.
  destruct (Z.ltb_spec expire now); [reflexivity|].
  rewrite (get4_spec c m _ A) by lia. cbn [bind]. rewrite Edl.
  rewrite (u32_small (c_size c - p)) by lia.
  rewrite (u32_small (c_size c - p - 20)) by lia.
  rewrite (u32_small (c_size c - p - 20 - kl)) by lia.
  destruct (Z.gtb_spec dl (c_size c - p - 20 - kl)); [lia|].
  reflexivity.
Qed.

(** An empty cache misses. *)
Lemma get_empty c m bk key stamp w :
  wf c m [] [] bk ->
  cache_t_get_seen c key stamp w = Ret (None, O, w).
Proof.
  intros W. pose proof (wf_arena_ok _ _ _ _ _ W) as A.
  destruct W as [Hx Hlen Hsz Hp2 Hhs Hwr Hol Hun Hsze Hempty HL].
  unfold MINCACHESIZE, MAXCACHESIZE in *.
  pose proof (is_pow2_ge _ Hp2) as Hh4.
  assert (Hb : is_bucket (c_hsize c) (hash c key))
    by (apply hash_bucket; [assumption|lia]).
  pose proof (lay_chains _ _ _ _ _ _ _ _ HL _ Hb) as Hch. simpl in Hch.
  destruct Hb as (Hb0 & Hb4 & _).
  unfold cache_t_get_seen. rewrite Hx.
  destruct (_ >? MAXKEYLEN); [reflexivity|].
  rewrite (get4_spec c m _ A) by lia. cbn [bind]. rewrite Hch.
  now rewrite walk_S.
Qed.

(** ** The walk of [cache_t_get] *)

(** A run that neither exits with 111 nor leaves the buffer. *)
Definition safe {A} (r : res A) : Prop :=
  match r with
  | Exit111 | Fault => False
  | Ret _ | Timeout => True
  end.

Lemma bind_no_timeout {A B} (r : res A) (k : A -> res B) :
  r <> Timeout -> (forall a, k a <> Timeout) -> bind r k <> Timeout.
Proof. destruct r; simpl; auto; discriminate. Qed.

Lemma get4_no_timeout c p : get4 c p <> Timeout.
Proof.
  unfold get4, cache_impossible. destruct (_ >? _); [discriminate|].
  destruct (c_x c); [|discriminate]. destruct (load _ _ _); discriminate.
Qed.

Lemma probe_no_timeout c m key keylen pos stamp w :
  probe c m key keylen pos stamp w <> Timeout.
Proof.
  unfold probe, cache_impossible, byte_equal, peek.
  apply bind_no_timeout; [apply get4_no_timeout|]. intros u.
  destruct (_ =? _); [|discriminate]. destruct (_ >? _); [discriminate|].
  apply bind_no_timeout.
  { destruct (load _ _ _); simpl; discriminate. }
  intros []; [|discriminate].
  apply bind_no_timeout; [destruct (load _ _ _); discriminate|]. intros bs.
  destruct (tai_now w) as [now w']. destruct (tai_less _ _); [discriminate|].
  apply bind_no_timeout; [apply get4_no_timeout|]. intros u'.
  destruct (_ >? _); discriminate.
Qed.

(** The walk compares at most 101 entries with the key, and fuel for 102
    passes is never used up. *)
Lemma walk_bound c m key keylen stamp :
  forall fuel prevpos pos loop seen w,
    0 <= loop <= 100 -> seen = Z.to_nat loop ->
    101 - loop < Z.of_nat fuel ->
    match walk fuel c m key keylen prevpos pos loop seen stamp w with
    | Ret (_, n, _) => (n <= 101)%nat
    | Timeout => False
    | Exit111 | Fault => True
    end.
Proof.
  induction fuel as [|fuel IH]; intros prevpos pos loop seen w Hloop Hseen Hfuel.
  - exfalso. change (Z.of_nat 0) with 0 in Hfuel. lia.
  - rewrite walk_S. destruct (pos =? 0); [lia|].
    pose proof (probe_no_timeout c m key keylen pos stamp w) as Hp.
    destruct (probe c m key keylen pos stamp w) as [[[h w']|]| | |];
      cbn [bind]; try exact I; [lia| |congruence].
    pose proof (get4_no_timeout c pos) as Hg.
    destruct (get4 c pos) as [l| | |]; cbn [bind]; try exact I;
      [|congruence].
    rewrite u32_small by lia.
    destruct (Z.gtb_spec (loop + 1) 100); [lia|].
    apply IH; lia.
Qed.

Lemma probe_safe c m key e stamp w :
  arena_ok c m -> 0 <= e ->
  e + 20 + word_at m (e + 4) + word_at m (e + 8) <= c_size c ->
  safe (probe c m key (Z.of_nat (length key)) e stamp w).
Proof.
  intros A He Hend. pose proof A as (Hx & Hlen & Hsz).
  pose proof (word_at_range m (e + 4)) as Rk.
  pose proof (word_at_range m (e + 8)) as Rd.
  unfold probe. set (kl := Z.of_nat (length key)).
  rewrite (u32_small (e + 4)), (u32_small (e + 8)), (u32_small (e + 20)) by lia.
  rewrite (get4_spec c m _ A) by lia. cbn [bind].
  destruct (Z.eqb_spec (word_at m (e + 4)) kl) as [E|_]; [|exact I].
  rewrite E in *.
  rewrite (u32_small (e + 20 + kl)) by lia.
  destruct (Z.gtb_spec (e + 20 + kl) (c_size c)); [lia|].
  unfold byte_equal, peek.
  destruct (load_Some m (e + 20) kl) as (bs & -> & _); [lia..|]. cbn [bind].
  destruct (bytes_eqb key bs); [|exact I].
  destruct (load_Some m (e + 12) 8) as (ex & -> & _); [lia..|]. cbn [bind].
  destruct (tai_now w) as [now w']. destruct (tai_less _ now); [exact I|].
  rewrite (get4_spec c m _ A) by lia. cbn [bind].
  rewrite (u32_small (c_size c - e)) by lia.
  rewrite (u32_small (c_size c - e - 20)) by lia.
  rewrite (u32_small (c_size c - e - 20 - kl)) by lia.
  destruct (Z.gtb_spec (word_at m (e + 8)) (c_size c - e - 20 - kl)); [lia|].
  exact I.
Qed.

Lemma walk_safe c m Lnew Lold bk key stamp :
  wf c m Lnew Lold bk ->
  forall fuel l prev cur loop seen w,
    xchain m prev cur l -> (forall e, In e l -> In e (Lnew ++ Lold)) ->
    safe (walk fuel c m key (Z.of_nat (length key)) prev cur loop seen stamp w).
Proof.
  intros W. pose proof (wf_arena_ok _ _ _ _ _ W) as A.
  pose proof (wf_geom _ _ _ _ _ W) as G.
  pose proof (live_bounds _ _ _ _ _ _ _ _ (wf_layout _ _ _ _ _ W)) as Hb.
  pose proof (live_range _ _ _ _ _ _ _ _ (wf_layout _ _ _ _ _ W) G) as Hr.
  destruct W as [Hx Hlen Hsz Hp2 Hhs Hwr Hol Hun Hsze Hempty HL].
  pose proof (is_pow2_ge _ Hp2) as Hh4.
  induction fuel as [|fuel IH]; intros l prev cur loop seen w Hch Hin;
    [exact I|].
  rewrite walk_S. destruct (Z.eqb_spec cur 0) as [E|E]; [exact I|].
  destruct l as [|e l]; simpl in Hch; [contradiction|].
  destruct Hch as (-> & _ & Hch).
  pose proof (Hin e (or_introl eq_refl)) as He.
  pose proof (Hb e He). pose proof (Hr e He).
  pose proof (probe_safe c m key e stamp w A) as Hp.
  destruct (probe c m key _ e stamp w) as [[[h w']|]| | |]; cbn [bind];
    try exact I; try (apply Hp; lia).
  rewrite (get4_spec c m _ A) by lia. cbn [bind].
  destruct (_ >? 100); [exact I|].
  apply (IH l); [exact Hch|]. intros a Ha. apply Hin. now right.
Qed.

(** On a well-formed cache [cache_t_get] never aborts. *)
Lemma get_safe c key stamp w :
  Inv c -> safe (cache_t_get_seen c key stamp w).
Proof.
  intros (m & Lnew & Lold & bk & W).
  pose proof (wf_arena_ok _ _ _ _ _ W) as A.
  pose proof W as [Hx Hlen Hsz Hp2 Hhs Hwr Hol Hun Hsze Hempty HL].
  unfold MINCACHESIZE, MAXCACHESIZE in *.
  pose proof (is_pow2_ge _ Hp2) as Hh4.
  assert (Hb : is_bucket (c_hsize c) (hash c key))
    by (apply hash_bucket; [assumption|lia]).
  pose proof (lay_chains _ _ _ _ _ _ _ _ HL _ Hb) as Hch.
  destruct Hb as (Hb0 & Hb4 & _).
  unfold cache_t_get_seen. rewrite Hx.
  destruct (_ >? MAXKEYLEN); [exact I|].
  rewrite (get4_spec c m _ A) by lia. cbn [bind].
  apply (walk_safe _ _ _ _ _ _ _ W _ _ _ _ _ _ _ Hch).
  intros e He. apply in_bucket_In in He as [He _].
  now apply (proj1 (by_age_In _ _ _)).
Qed.

(** ** [cache_t_set] *)

Lemma entrylen_small kl dl :
  0 <= kl <= MAXKEYLEN -> 0 <= dl <= MAXDATALEN ->
  u32 (u32 (kl + dl) + 20) = kl + dl + 20.
Proof.
  unfold MAXKEYLEN, MAXDATALEN. intros Hk Hd.
  rewrite (u32_small (kl + dl)) by lia. apply u32_small. lia.
Qed.

Lemma hash_keeps c c' key : c_hsize c' = c_hsize c -> hash c' key = hash c key.
Proof. intros E. unfold hash. now rewrite E. Qed.

(** [cache_t_set] keeps the invariant and never aborts. *)
Lemma cache_t_set_safe key data :
  forall fuel c ttl w,
    Inv c ->
    match cache_t_set fuel c key data ttl w with
    | Ret (c', w') => Inv c' /\ later w w'
    | Timeout => True
    | Exit111 | Fault => False
    end.
Proof.
  induction fuel as [|fuel IH]; intros c ttl w HI; [exact I|].
  cbn [cache_t_set].
  destruct (c_x c) as [m0|]; [|split; [exact HI|apply later_refl]].
  destruct (Z.gtb_spec (Z.of_nat (length key)) MAXKEYLEN) as [|Hkl];
    [split; [exact HI|apply later_refl]|].
  destruct (Z.gtb_spec (Z.of_nat (length data)) MAXDATALEN) as [|Hdl];
    [split; [exact HI|apply later_refl]|].
  rewrite entrylen_small by lia.
  set (e := Z.of_nat (length key) + Z.of_nat (length data) + 20).
  assert (He : 20 <= e <= 2000000)
    by (unfold e, MAXKEYLEN, MAXDATALEN in *; lia).
  destruct HI as (m & Lnew & Lold & bk & W).
  pose proof (make_room_spec e He fuel c m Lnew Lold bk w W) as Hroom.
  destruct (make_room fuel e c w) as [[c1 w1|c1 w1|c1 w1]| | |];
    cbn [bind]; try contradiction; try exact I; simpl in Hroom.
  - destruct Hroom as ((m1 & Ln1 & Lo1 & bk1 & W1) & Hfit & _ & Hl).
    subst e.
    destruct (append_spec c1 m1 Ln1 Lo1 bk1 key data
                (if ttl >? 604800 then 604800 else ttl) w1 W1 Hkl Hdl)
      as (c' & m' & w' & -> & W' & _ & Hl' & _); [lia|].
    split; [exists m', (Ln1 ++ [c_writer c1]), Lo1; eexists; exact W'|].
    exact (later_trans _ _ _ Hl Hl').
  - destruct Hroom as ((m1 & bk1 & W1) & _ & _ & Hl).
    split; [now exists m1, [], [], bk1|exact Hl].
  - destruct Hroom as (HI1 & _ & _ & _ & Hl).
    specialize (IH c1 (if ttl >? 604800 then 604800 else ttl) w1 HI1).
    destruct (cache_t_set fuel c1 key data _ w1) as [[c' w']| | |];
      try contradiction; try exact I.
    destruct IH as [HI' Hl']. split; [exact HI'|].
    exact (later_trans _ _ _ Hl Hl').
Qed.

(** What a completed [cache_t_set] leaves: the entry at the head of its
    chain, stamped with a reading of the clock, or an empty cache that is
    too small for the entry. *)
Definition set_post (c : cache) (key data : list byte) (ttl : Z) (w : world)
    (c' : cache) : Prop :=
  (exists k, stored c' key data
               (tai_add (tai_uint ttl) (tai_of_unix (tv_sec (clock w k))))) \/
  ((exists m bk, wf c' m [] [] bk) /\
   c_size c' - c_hsize c' <
     Z.of_nat (length key) + Z.of_nat (length data) + 20).

Lemma append_stored c m Lnew Lold bk key data ttl w :
  wf c m Lnew Lold bk ->
  Z.of_nat (length key) <= MAXKEYLEN ->
  Z.of_nat (length data) <= MAXDATALEN ->
  c_writer c + (Z.of_nat (length key) + Z.of_nat (length data) + 20)
    <= c_oldest c ->
  exists c' w',
    append c key data ttl
      (Z.of_nat (length key) + Z.of_nat (length data) + 20) w
      = Ret (c', w') /\
    Inv c' /\ keeps c c' /\ later w w' /\
    stored c' key data
      (tai_add (tai_uint ttl) (tai_of_unix (tv_sec (clock w O)))).
Proof.
  intros W Hkl Hdl Hfit.
  destruct (append_spec c m Lnew Lold bk key data ttl w W Hkl Hdl Hfit)
    as (c' & m' & w' & Happ & W' & K & Hl & Hhead & E).
  exists c', w'. split; [exact Happ|].
  split; [exists m', (Lnew ++ [c_writer c]), Lold; eexists; exact W'|].
  split; [exact K|]. split; [exact Hl|].
  exists m', (c_writer c). destruct K as (Es & Eh & _).
  pose proof (wf_arena_ok _ _ _ _ _ W').
  destruct W. destruct W'. rewrite (hash_keeps c c' key Eh).
  split; [assumption|]. split; [assumption|]. split; [lia|].
  split; [lia|]. split; [exact Hhead|exact E].
Qed.

Lemma set_fresh c key data ttl w fuel :
  fresh c ->
  Z.of_nat (length key) <= MAXKEYLEN ->
  Z.of_nat (length data) <= MAXDATALEN ->
  (2 <= fuel)%nat ->
  exists c' w',
    cache_t_set fuel c key data ttl w = Ret (c', w') /\
    Inv c' /\ later w w' /\ keeps c c' /\
    set_post c key data (if ttl >? 604800 then 604800 else ttl) w c'.
Proof.
  intros ((m & W) & Ewr & Eol & Eun) Hkl Hdl Hfuel.
  destruct fuel as [|[|fuel]]; try lia.
  cbn [cache_t_set]. rewrite (wf_x _ _ _ _ _ W).
  destruct (Z.gtb_spec (Z.of_nat (length key)) MAXKEYLEN); [lia|].
  destruct (Z.gtb_spec (Z.of_nat (length data)) MAXDATALEN); [lia|].
  rewrite entrylen_small by lia.
  set (e := Z.of_nat (length key) + Z.of_nat (length data) + 20).
  cbn [make_room].
  pose proof W as [Hx Hlen Hsz Hp2 Hhs Hwr Hol Hun Hsze Hempty HL].
  unfold MINCACHESIZE, MAXCACHESIZE, MAXKEYLEN, MAXDATALEN in *.
  pose proof (is_pow2_ge _ Hp2) as Hh4.
  rewrite u32_small by (unfold e; lia).
  destruct (Z.gtb_spec (c_writer c + e) (c_oldest c)) as [Hfull|Hroom].
  - rewrite Eol, Eun, Z.eqb_refl.
    destruct (Z.leb_spec (c_writer c) (c_hsize c)); [|lia].
    cbn [bind]. exists c, w. split; [reflexivity|].
    split; [now exists m, [], [], (fun _ => 0)|].
    split; [apply later_refl|]. split; [repeat split|].
    right. split; [now exists m, (fun _ => 0)|]. fold e. lia.
  - cbn [bind]. subst e.
    destruct (append_stored c m [] [] _ key data
                (if ttl >? 604800 then 604800 else ttl) w W)
      as (c' & w' & -> & HI & K & Hl & S);
      [unfold MAXKEYLEN; lia|unfold MAXDATALEN; lia|lia|].
    exists c', w'. split; [reflexivity|]. split; [exact HI|].
    split; [exact Hl|]. split; [exact K|]. left. now exists O.
Qed.

Lemma cache_t_set_total c m Lnew Lold bk key data ttl w fuel :
  wf c m Lnew Lold bk ->
  Z.of_nat (length key) <= MAXKEYLEN ->
  Z.of_nat (length data) <= MAXDATALEN ->
  heap_ok w ->
  (length Lnew + length Lold + 3 <= fuel)%nat ->
  exists c' w',
    cache_t_set fuel c key data ttl w = Ret (c', w') /\
    Inv c' /\ later w w' /\
    set_post c key data (if ttl >? 604800 then 604800 else ttl) w c' /\
    (allow_resize (c_options c) = false -> keeps c c').
Proof.
  intros W Hkl Hdl Hheap Hfuel.
  destruct fuel as [|fuel]; [lia|].
  cbn [cache_t_set]. rewrite (wf_x _ _ _ _ _ W).
  destruct (Z.gtb_spec (Z.of_nat (length key)) MAXKEYLEN); [lia|].
  destruct (Z.gtb_spec (Z.of_nat (length data)) MAXDATALEN); [lia|].
  rewrite entrylen_small by lia.
  set (e := Z.of_nat (length key) + Z.of_nat (length data) + 20).
  assert (He : 20 <= e <= 2000000)
    by (unfold e, MAXKEYLEN, MAXDATALEN in *; lia).
  pose proof (make_room_spec e He fuel c m Lnew Lold bk w W) as Hroom.
  destruct (make_room fuel e c w) as [[c1 w1|c1 w1|c1 w1]| | |];
    cbn [bind]; try contradiction; [| | |lia]; simpl in Hroom.
  - destruct Hroom as ((m1 & Ln1 & Lo1 & bk1 & W1) & Hfit & K & Hl).
    subst e.
    destruct (append_stored c1 m1 Ln1 Lo1 bk1 key data
                (if ttl >? 604800 then 604800 else ttl) w1 W1 Hkl Hdl)
      as (c' & w' & -> & HI & K' & Hl' & S); [lia|].
    exists c', w'. split; [reflexivity|]. split; [exact HI|].
    split; [exact (later_trans _ _ _ Hl Hl')|]. split.
    + left. destruct Hl as ([k Hk] & _). exists (k + 0)%nat.
      now rewrite <- Hk.
    + intros _. destruct K as (? & ? & ?), K' as (? & ? & ?).
      repeat split; congruence.
  - destruct Hroom as (Hw & Hsmall & K & Hl).
    exists c1, w1. split; [reflexivity|].
    split; [destruct Hw as (m1 & bk1 & W1); now exists m1, [], [], bk1|].
    split; [exact Hl|]. split; [|intros _; exact K].
    right. split; [exact Hw|exact Hsmall].
  - destruct Hroom as (_ & Hfresh & Hallow & _ & Hl).
    destruct (set_fresh c1 key data
                (if ttl >? 604800 then 604800 else ttl) w1 fuel
                (Hfresh Hheap) Hkl Hdl)
      as (c' & w' & -> & HI & Hl' & _ & P); [lia|].
    exists c', w'. split; [reflexivity|]. split; [exact HI|].
    split; [exact (later_trans _ _ _ Hl Hl')|]. split; [|congruence].
    assert (Ettl : (if (if ttl >? 604800 then 604800 else ttl) >? 604800
                    then 604800 else (if ttl >? 604800 then 604800 else ttl))
                   = (if ttl >? 604800 then 604800 else ttl)).
    { destruct (Z.gtb_spec ttl 604800) as [|Hle]; [reflexivity|].
      destruct (Z.gtb_spec ttl 604800); [lia|reflexivity]. }
    rewrite Ettl in P. destruct P as [[k S]|D]; [left|right; exact D].
    destruct Hl as ([k0 Hk0] & _). exists (k0 + k)%nat. now rewrite <- Hk0.
Qed.

(** ** [init] and [cache_t_new], read backwards *)

Lemma init_overrun c cachesize options w :
  heap w O = true -> cachesize < clamp_size cachesize ->
  init c cachesize options w = Fault.
Proof.
  intros Hheap Hsmall. unfold init, alloc. rewrite Hheap.
  fold (clamp_size cachesize). cbn [c_size set_size set_x].
  pose proof (clamp_size_range cachesize) as Hr.
  assert (Hr0 : 0 <= clamp_size cachesize <= MAXCACHESIZE)
    by (unfold MINCACHESIZE in Hr; lia).
  destruct (hsize_loop_ok _ Hr0) as (h & -> & _).
  cbn [bind c_size set_size set_x set_hsize]. unfold byte_zero, store.
  destruct (in_range _ _ _) eqn:E; [|reflexivity].
  apply in_range_true in E. destruct E as (_ & _ & E).
  rewrite repeat_length, length_map, length_seq in E.
  unfold MINCACHESIZE in Hr. lia.
Qed.

Lemma init_Ret c cachesize options w c' w' :
  init c cachesize options w = Ret (1, c', w') ->
  init_post c cachesize options w c' w'.
Proof.
  intros H. destruct (heap w O) eqn:Hheap.
  - destruct (Z_lt_le_dec cachesize (clamp_size cachesize)) as [Hlt|Hge].
    + rewrite (init_overrun _ _ _ _ Hheap Hlt) in H. discriminate.
    + pose proof (clamp_size_range cachesize) as Hr. unfold MINCACHESIZE in Hr.
      destruct (init_ok c cachesize options w Hheap) as (c1 & w1 & E & P);
        [lia|lia|].
      rewrite E in H. injection H as <- <-. exact P.
  - rewrite (init_fail _ _ _ _ Hheap) in H. discriminate.
Qed.

Lemma new_Ret cachesize options w c w' :
  cache_t_new cachesize options w = Ret (Some c, w') ->
  exists w1, init_post zero_cache cachesize options w1 c w'.
Proof.
  unfold cache_t_new.
  destruct (alloc 0 w) as [[rec|] w1]; [|discriminate].
  destruct (init zero_cache cachesize options w1) as [[[ok c1] w2]| | |] eqn:E;
    cbn [bind]; try discriminate.
  destruct (Z.eqb_spec ok 0) as [->|Hok]; [discriminate|].
  intros [= <- <-]. exists w1. apply init_Ret.
  assert (ok = 1); [|now subst].
  unfold init in E. destruct (alloc cachesize w1) as [[mem|] w3].
  - destruct (hsize_loop _ _ _); cbn [bind] in E; try discriminate.
    destruct (byte_zero _ _); cbn [bind] in E; try discriminate.
    destruct (taia_now w3). now injection E as <- _ _.
  - injection E as <- _ _. contradiction.
Qed.

(** ** What [cache_t_get] returns *)

(** The entry at [p] holds the key [key]. *)
Definition has_key (m : arena) (key : list byte) (p : Z) : bool :=
  bytes_eqb key (key_at m p).

(** What [cache_t_get] returns for the entry at [p], found at the time
    [now]. *)
Definition answer (m : arena) (keylen p now : Z) : option hit :=
  if tai_less (expire_at m p) now then None
  else Some {| data_ptr := p + 20 + keylen; datalen := word_at m (p + 8);
               ttl_left := ttl_of (tai_sub (expire_at m p) now) |}.

(** The walk as a function of the entries [l] of the chain: the first
    entry with the key decides. *)
Fixpoint scan (m : arena) (key : list byte) (l : list Z) (seen : nat)
    (w : world) : option hit * nat * world :=
  match l with
  | [] => (None, seen, w)
  | e :: l' =>
      if has_key m key e
      then (answer m (Z.of_nat (length key)) e (fst (tai_now w)), S seen,
            snd (tai_now w))
      else scan m key l' (S seen) w
  end.

Lemma has_key_true m key p : has_key m key p = true <-> key_at m p = key.
Proof.
  unfold has_key. split.
  - intros H. symmetry. now apply bytes_eqb_eq.
  - intros ->. apply bytes_eqb_refl.
Qed.

Lemma probe_spec c m key e stamp w :
  arena_ok c m -> 0 <= e ->
  e + 20 + word_at m (e + 4) + word_at m (e + 8) <= c_size c ->
  probe c m key (Z.of_nat (length key)) e stamp w =
    Ret (if has_key m key e
         then Some (answer m (Z.of_nat (length key)) e (fst (tai_now w)),
                    snd (tai_now w))
         else None).
Proof.
  intros A He Hend. pose proof A as (Hx & Hlen & Hsz).
  pose proof (word_at_range m (e + 4)) as Rk.
  pose proof (word_at_range m (e + 8)) as Rd.
  unfold probe, has_key, key_at. set (kl := Z.of_nat (length key)).
  rewrite (u32_small (e + 4)), (u32_small (e + 8)), (u32_small (e + 20)) by lia.
  rewrite (get4_spec c m _ A) by lia. cbn [bind].
  destruct (load_Some m (e + 20) (word_at m (e + 4))) as (bs & Hbs & Hbl);
    [lia..|].
  rewrite Hbs.
  destruct (Z.eqb_spec (word_at m (e + 4)) kl) as [E|E].
  2:{ destruct (bytes_eqb key bs) eqn:Eq; [|reflexivity].
      apply bytes_eqb_eq in Eq. subst bs. unfold kl in E. lia. }
  rewrite E in *.
  rewrite (u32_small (e + 20 + kl)) by lia.
  destruct (Z.gtb_spec (e + 20 + kl) (c_size c)); [lia|].
  unfold byte_equal, peek. rewrite Hbs. cbn [bind].
  destruct (bytes_eqb key bs); [|reflexivity].
  unfold answer, expire_at.
  destruct (load_Some m (e + 12) 8) as (ex & -> & _); [lia..|]. cbn [bind].
  unfold tai_now, tick. cbn [fst snd].
  destruct (tai_less _ _); [reflexivity|].
  rewrite (get4_spec c m _ A) by lia. cbn [bind].
  rewrite (u32_small (c_size c - e)) by lia.
  rewrite (u32_small (c_size c - e - 20)) by lia.
  rewrite (u32_small (c_size c - e - 20 - kl)) by lia.
  destruct (Z.gtb_spec (word_at m (e + 8)) (c_size c - e - 20 - kl)); [lia|].
  reflexivity.
Qed.

(** The walk looks at the first 101 entries of the chain. *)
Lemma walk_spec c m Lnew Lold bk key stamp :
  wf c m Lnew Lold bk ->
  forall l fuel prev cur loop seen w,
    xchain m prev cur l -> (forall e, In e l -> In e (Lnew ++ Lold)) ->
    0 <= loop <= 100 -> (Z.to_nat (101 - loop) < fuel)%nat ->
    walk fuel c m key (Z.of_nat (length key)) prev cur loop seen stamp w =
      Ret (scan m key (firstn (Z.to_nat (101 - loop)) l) seen w).
Proof.
  intros W. pose proof (wf_arena_ok _ _ _ _ _ W) as A.
  pose proof (wf_geom _ _ _ _ _ W) as G.
  pose proof (live_bounds _ _ _ _ _ _ _ _ (wf_layout _ _ _ _ _ W)) as Hb.
  pose proof (live_range _ _ _ _ _ _ _ _ (wf_layout _ _ _ _ _ W) G) as Hr.
  destruct W as [Hx Hlen Hsz Hp2 Hhs Hwr Hol Hun Hsze Hempty HL].
  pose proof (is_pow2_ge _ Hp2) as Hh4.
  induction l as [|e l IH]; intros fuel prev cur loop seen w Hch Hin Hloop Hfuel;
    (destruct fuel as [|fuel]; [lia|]); rewrite walk_S; simpl in Hch.
  - subst cur. cbn [Z.eqb]. now rewrite firstn_nil.
  - destruct Hch as (-> & Hne & Hch).
    destruct (Z.eqb_spec e 0) as [|_]; [contradiction|].
    pose proof (Hin e (or_introl eq_refl)) as He.
    pose proof (Hb e He). pose proof (Hr e He).
    rewrite (probe_spec c m key e stamp w A) by lia. cbn [bind].
    replace (Z.to_nat (101 - loop)) with (S (Z.to_nat (100 - loop))) by lia.
    cbn [firstn scan].
    destruct (has_key m key e); [reflexivity|].
    rewrite (get4_spec c m _ A) by lia. cbn [bind].
    rewrite u32_small by lia.
    destruct (Z.gtb_spec (loop + 1) 100) as [Hgt|Hle].
    + replace (100 - loop) with 0 by lia. reflexivity.
    + rewrite (IH fuel e _ (loop + 1) (S seen) w Hch); [| |lia|lia].
      * now replace (101 - (loop + 1)) with (100 - loop) by lia.
      * intros a Ha. apply Hin. now right.
Qed.

(** [cache_t_get] looks for the key among the first 101 entries of the
    chain of its bucket, newest first. *)
Lemma cache_t_get_spec c m Lnew Lold bk key stamp w :
  wf c m Lnew Lold bk ->
  Z.of_nat (length key) <= MAXKEYLEN ->
  cache_t_get_seen c key stamp w =
    Ret (scan m key
           (firstn 101 (in_bucket bk (hash c key) (by_age Lnew Lold))) O w).
Proof.
  intros W Hkl. pose proof (wf_arena_ok _ _ _ _ _ W) as A.
  pose proof W as [Hx Hlen Hsz Hp2 Hhs Hwr Hol Hun Hsze Hempty HL].
  unfold MINCACHESIZE, MAXCACHESIZE in *.
  pose proof (is_pow2_ge _ Hp2) as Hh4.
  assert (Hb : is_bucket (c_hsize c) (hash c key))
    by (apply hash_bucket; [assumption|lia]).
  pose proof (lay_chains _ _ _ _ _ _ _ _ HL _ Hb) as Hch.
  destruct Hb as (Hb0 & Hb4 & _).
  unfold cache_t_get_seen. rewrite Hx.
  destruct (Z.gtb_spec (Z.of_nat (length key)) MAXKEYLEN); [lia|].
  rewrite (get4_spec c m _ A) by lia. cbn [bind].
  rewrite (walk_spec c m Lnew Lold bk key stamp W _ 102%nat _ _ 0 O w Hch);
    [reflexivity| |lia|lia].
  intros e He. apply in_bucket_In in He as [He _].
  now apply (proj1 (by_age_In _ _ _)).
Qed.

Lemma scan_find m key : forall l seen w,
  fst (fst (scan m key l seen w)) =
    match find (has_key m key) l with
    | Some p => answer m (Z.of_nat (length key)) p (fst (tai_now w))
    | None => None
    end /\
  snd (scan m key l seen w) =
    match find (has_key m key) l with
    | Some _ => snd (tai_now w)
    | None => w
    end.
Proof.
  induction l as [|e l IH]; intros seen w; simpl; [now split|].
  destruct (has_key m key e); [now split|apply IH].
Qed.

Lemma has_key_false m key p : has_key m key p = false <-> key_at m p <> key.
Proof.
  split.
  - intros H E. apply has_key_true in E. congruence.
  - intros H. destruct (has_key m key p) eqn:E; [|reflexivity].
    apply has_key_true in E. contradiction.
Qed.

(** The walk past entries that do not hold the key. *)
Lemma scan_skip m key l2 : forall l1 seen w,
  (forall q, In q l1 -> key_at m q <> key) ->
  scan m key (l1 ++ l2) seen w = scan m key l2 (seen + length l1)%nat w.
Proof.
  induction l1 as [|e l1 IH]; intros seen w H; simpl.
  - now rewrite Nat.add_0_r.
  - rewrite (proj2 (has_key_false m key e)) by (apply H; now left).
    rewrite IH by (intros q Hq; apply H; now right).
    f_equal. lia.
Qed.

Lemma find_firstn {A} (f : A -> bool) p : forall n l,
  find f (firstn n l) = Some p -> find f l = Some p.
Proof.
  induction n as [|n IH]; intros [|a l]; simpl; try discriminate.
  destruct (f a); [trivial|apply IH].
Qed.

Lemma find_filter {A} (f g : A -> bool) : forall l,
  (forall a, In a l -> f a = true -> g a = true) ->
  find f (filter g l) = find f l.
Proof.
  induction l as [|a l IH]; intros H; [reflexivity|]. simpl.
  destruct (g a) eqn:Eg; simpl.
  - destruct (f a); [reflexivity|]. apply IH. intros b Hb. apply H. now right.
  - destruct (f a) eqn:Ef.
    + rewrite (H a (or_introl eq_refl) Ef) in Eg. discriminate.
    + apply IH. intros b Hb. apply H. now right.
Qed.

(** [cache_t_get] in terms of the first entry with the key among the first
    101 of the chain. *)
Lemma cache_t_get_find c m Lnew Lold bk key stamp w :
  wf c m Lnew Lold bk ->
  Z.of_nat (length key) <= MAXKEYLEN ->
  cache_t_get c key stamp w =
    Ret (match find (has_key m key)
                 (firstn 101 (in_bucket bk (hash c key) (by_age Lnew Lold)))
         with
         | Some p => (answer m (Z.of_nat (length key)) p (fst (tai_now w)),
                      snd (tai_now w))
         | None => (None, w)
         end).
Proof.
  intros W Hkl. unfold cache_t_get.
  rewrite (cache_t_get_spec c m Lnew Lold bk key stamp w W Hkl). cbn [bind].
  set (l := firstn _ _).
  destruct (scan_find m key l O w) as [H1 H2].
  destruct (scan m key l O w) as [[h n] w1]. cbn [fst snd] in H1, H2.
  subst h w1. now destruct (find (has_key m key) l).
Qed.

(** ** The cursor invariant *)

Definition cursors_ok (c : cache) : Prop :=
  c_hsize c <= c_writer c <= c_oldest c /\
  c_oldest c <= c_unused c <= c_size c /\
  (c_oldest c = c_unused c -> c_unused c = c_size c) /\
  is_pow2 (c_hsize c) /\
  4 <= c_hsize c <= c_size c / 16.

Lemma Inv_cursors c : Inv c -> cursors_ok c.
Proof.
  intros (m & Lnew & Lold & bk & W). destruct W.
  pose proof (is_pow2_ge _ wf_pow3).
  unfold cursors_ok. repeat split; try assumption; try lia.
  apply Z.div_le_lower_bound; lia.
Qed.

Lemma run_safe fuel ops : forall c w,
  Inv c ->
  match run fuel ops c w with
  | Ret (c', _) => Inv c'
  | Timeout => True
  | Exit111 | Fault => False
  end.
Proof.
  induction ops as [|[key data ttl|key stamp] ops IH]; intros c w HI;
    cbn [run].
  - exact HI.
  - pose proof (cache_t_set_safe key data fuel c ttl w HI) as H.
    destruct (cache_t_set fuel c key data ttl w) as [[c1 w1]| | |];
      cbn [bind]; try contradiction; try exact I.
    apply IH. exact (proj1 H).
  - pose proof (get_safe c key stamp w HI) as H. unfold cache_t_get.
    destruct (cache_t_get_seen c key stamp w) as [[[h n] w1]| | |];
      cbn [bind]; try contradiction; try exact I.
    now apply IH.
Qed.

(** C2.  After [cache_t_new] and any sequence of [cache_t_set] and
    [cache_t_get], the cursors are ordered, an empty old region sits at
    the end of the arena, and [hsize] is a power of two between 4 and
    [size/16]; no call of the sequence aborts. *)
Theorem cursor_invariant cachesize options w0 c0 w1 fuel ops :
  cache_t_new cachesize options w0 = Ret (Some c0, w1) ->
  match run fuel ops c0 w1 with
  | Ret (c, _) => cursors_ok c
  | Timeout => True
  | Exit111 | Fault => False
  end.
Proof.
  intros Hnew. apply new_Ret in Hnew as (w & P).
  destruct (ip_wf _ _ _ _ _ _ P) as (m & W).
  assert (HI : Inv c0) by (now exists m, [], [], (fun _ => 0)).
  pose proof (run_safe fuel ops c0 w1 HI) as H.
  destruct (run fuel ops c0 w1) as [[c w']| | |]; try exact H.
  now apply Inv_cursors.
Qed.

(** ** A [cache_t_set] followed by a [cache_t_get] *)

(** Every reading of the clock of [w] falls in the second [t]. *)
Definition at_time (w : world) (t : Z) : Prop :=
  forall i, tv_sec (clock w i) = t.

Lemma entries_le_size c m Lnew Lold bk :
  wf c m Lnew Lold bk ->
  (length Lnew + length Lold + 3 <= Z.to_nat (c_size c))%nat.
Proof.
  intros W. destruct W. unfold MINCACHESIZE in *.
  pose proof (is_pow2_ge _ wf_pow3).
  pose proof (tiled_length _ _ _ _ (lay_new _ _ _ _ _ _ _ _ wf_layout0)).
  pose proof (tiled_length _ _ _ _ (lay_old _ _ _ _ _ _ _ _ wf_layout0)).
  lia.
Qed.

Lemma tai_of_unix_small t : 0 <= t < 2 ^ 63 ->
  tai_of_unix t = 4611686018427387914 + t.
Proof. intros H. unfold tai_of_unix. apply u64_small. lia. Qed.

(** A [cache_t_set] that finds room at [writer] never comes to the check
    for a resize: it leaves [size], [hsize] and the options as they
    were. *)
Lemma set_with_room_keeps c m Lnew Lold bk key data ttl fuel w c' w' :
  wf c m Lnew Lold bk ->
  Z.of_nat (length key) <= MAXKEYLEN ->
  Z.of_nat (length data) <= MAXDATALEN ->
  c_writer c + 20 + Z.of_nat (length key) + Z.of_nat (length data)
    <= c_oldest c ->
  cache_t_set fuel c key data ttl w = Ret (c', w') ->
  keeps c c'.
Proof.
  intros W Hkl Hdl Hroom Hset.
  destruct fuel as [|[|fuel]]; cbn [cache_t_set make_room] in Hset;
    rewrite ?(wf_x _ _ _ _ _ W) in Hset; try discriminate.
  { destruct (_ >? MAXKEYLEN); [injection Hset as <- _; repeat split|].
    destruct (_ >? MAXDATALEN); [injection Hset as <- _; repeat split|].
    discriminate. }
  destruct (Z.gtb_spec (Z.of_nat (length key)) MAXKEYLEN); [lia|].
  destruct (Z.gtb_spec (Z.of_nat (length data)) MAXDATALEN); [lia|].
  rewrite entrylen_small in Hset by lia.
  pose proof W as [Hx Hlen Hsz Hp2 Hhs Hwr Hol Hun Hsze Hempty HL].
  unfold MINCACHESIZE, MAXCACHESIZE, MAXKEYLEN, MAXDATALEN in *.
  pose proof (is_pow2_ge _ Hp2) as Hh4.
  rewrite u32_small in Hset by lia.
  destruct (Z.gtb_spec
              (c_writer c + (Z.of_nat (length key) + Z.of_nat (length data)
                             + 20)) (c_oldest c)); [lia|].
  cbn [bind] in Hset.
  destruct (append_stored c m Lnew Lold bk key data
              (if ttl >? 604800 then 604800 else ttl) w W)
    as (c1 & w1 & E & _ & K & _);
    [unfold MAXKEYLEN; lia|unfold MAXDATALEN; lia|lia|].
  rewrite E in Hset. now injection Hset as <- _.
Qed.

Lemma set_then_get_gen c key data ttl w t fuel :
  Inv c ->
  Z.of_nat (length key) <= MAXKEYLEN ->
  Z.of_nat (length data) <= MAXDATALEN ->
  0 <= ttl <= MAXTTL ->
  at_time w t -> 0 <= t < 2 ^ 62 ->
  heap_ok w ->
  (Z.to_nat (c_size c) <= fuel)%nat ->
  exists c' w',
    cache_t_set fuel c key data ttl w = Ret (c', w') /\
    Inv c' /\ later w w' /\
    (allow_resize (c_options c) = false ->
       c_size c' = c_size c /\ c_hsize c' = c_hsize c) /\
    (Z.of_nat (length key) + Z.of_nat (length data) + 20
       <= c_size c' - c_hsize c' ->
     forall stamp w2 d,
       0 <= d <= ttl -> tv_sec (clock w2 O) = t + d ->
       exists h,
         cache_t_get c' key stamp w2 = Ret (Some h, snd (tick w2)) /\
         hit_data c' h = Some data /\
         datalen h = Z.of_nat (length data) /\
         ttl_left h = ttl - d).
Proof.
  intros (m & Lnew & Lold & bk & W) Hkl Hdl Httl Hat Ht Hheap Hfuel.
  pose proof (entries_le_size _ _ _ _ _ W) as Hn.
  destruct (cache_t_set_total c m Lnew Lold bk key data ttl w fuel W Hkl Hdl
              Hheap) as (c' & w' & Hset & HI & Hl & P & K); [lia|].
  exists c', w'. split; [exact Hset|]. split; [exact HI|].
  split; [exact Hl|]. split.
  { intros Hno. destruct (K Hno) as (? & ? & _). now split. }
  intros Hfit stamp w2 d Hd Hnow.
  unfold MAXTTL in Httl.
  destruct (Z.gtb_spec ttl 604800); [lia|].
  destruct P as [[k S]|[_ Hsmall]]; [|lia].
  rewrite (Hat k) in S. unfold tai_uint, tai_add in S.
  rewrite tai_of_unix_small in S by lia.
  rewrite u64_small in S by lia.
  destruct (get_stored c' key data _ stamp w2 S Hkl) as (h & Hget & Hdata & Hlen & Hleft);
    [lia|].
  rewrite Hnow, tai_of_unix_small in Hget, Hleft by lia.
  exists h. unfold cache_t_get. rewrite Hget. cbn [bind].
  destruct (Z.ltb_spec (ttl + (4611686018427387914 + t))
              (4611686018427387914 + (t + d))); [lia|].
  split; [reflexivity|]. split; [exact Hdata|]. split; [exact Hlen|].
  rewrite Hleft. unfold tai_sub.
  replace (ttl + (4611686018427387914 + t) - (4611686018427387914 + (t + d)))
    with (ttl - d) by lia.
  rewrite u64_small by lia. apply ttl_of_small. lia.
Qed.

(** C1 (amended).  On a well-formed cache, with a valid key, data and time
    to live, a clock that stands at [t] and an allocator that does not
    fail, [cache_t_set] returns; when resizing is off it leaves [size] and
    [hsize] as they were; and when the entry fits the arena that the call
    leaves ([20 + keylen + datalen <= size - hsize] there), a
    [cache_t_get] of the key whose clock reads [t + d] with [d <= ttl]
    hits, with the bytes and the length that were written and [ttl - d]
    seconds to live. *)
Theorem set_then_get c key data ttl w t fuel :
  Inv c ->
  Z.of_nat (length key) <= MAXKEYLEN ->
  Z.of_nat (length data) <= MAXDATALEN ->
  0 <= ttl <= MAXTTL ->
  at_time w t -> 0 <= t < 2 ^ 62 ->
  heap_ok w ->
  (Z.to_nat (c_size c) <= fuel)%nat ->
  exists c' w',
    cache_t_set fuel c key data ttl w = Ret (c', w') /\
    (allow_resize (c_options c) = false ->
       c_size c' = c_size c /\ c_hsize c' = c_hsize c) /\
    (20 + Z.of_nat (length key) + Z.of_nat (length data)
       <= c_size c' - c_hsize c' ->
     forall stamp w2 d,
       0 <= d <= ttl -> tv_sec (clock w2 O) = t + d ->
       exists h w3,
         cache_t_get c' key stamp w2 = Ret (Some h, w3) /\
         hit_data c' h = Some data /\
         datalen h = Z.of_nat (length data) /\
         ttl_left h = ttl - d).
Proof.
  intros HI Hkl Hdl Httl Hat Ht Hheap Hfuel.
  destruct (set_then_get_gen c key data ttl w t fuel HI Hkl Hdl Httl Hat Ht
              Hheap Hfuel) as (c' & w' & Hset & _ & _ & K & G).
  exists c', w'. split; [exact Hset|]. split; [exact K|].
  intros Hfit stamp w2 d Hd Hnow.
  destruct (G ltac:(lia) stamp w2 d Hd Hnow)
    as (h & Hget & Hdata & Hlen & Hleft).
  exists h, (snd (tick w2)). repeat split; assumption.
Qed.

(** C3 (amended).  When a key is set twice, the second time with the
    data [v2], the second call returns; with resizing off, or with room
    for the entry at [writer], it leaves [size] and [hsize] as they
    were; when the second entry fits the arena
    that the call leaves, a [cache_t_get] of the key before that entry
    expires returns [v2]; and whenever a [cache_t_get] of the key hits in
    the cache that the call leaves, it returns [v2], never the older
    data: the newer entry is met first. *)
Theorem newest_wins c key v1 v2 ttl1 ttl2 w t fuel1 fuel2 c1 w1 :
  Inv c ->
  cache_t_set fuel1 c key v1 ttl1 w = Ret (c1, w1) ->
  Z.of_nat (length key) <= MAXKEYLEN ->
  Z.of_nat (length v2) <= MAXDATALEN ->
  0 <= ttl2 <= MAXTTL ->
  at_time w t -> 0 <= t < 2 ^ 62 ->
  heap_ok w ->
  (Z.to_nat (c_size c1) <= fuel2)%nat ->
  exists c2 w2,
    cache_t_set fuel2 c1 key v2 ttl2 w1 = Ret (c2, w2) /\
    (20 + Z.of_nat (length key) + Z.of_nat (length v2)
       <= c_size c2 - c_hsize c2 ->
     forall stamp w3 d,
       0 <= d <= ttl2 -> tv_sec (clock w3 O) = t + d ->
       exists h w4,
         cache_t_get c2 key stamp w3 = Ret (Some h, w4) /\
         hit_data c2 h = Some v2) /\
    (allow_resize (c_options c1) = false \/
     c_writer c1 + 20 + Z.of_nat (length key) + Z.of_nat (length v2)
       <= c_oldest c1 ->
     c_size c2 = c_size c1 /\ c_hsize c2 = c_hsize c1) /\
    (forall stamp w3 h w4,
       cache_t_get c2 key stamp w3 = Ret (Some h, w4) ->
       hit_data c2 h = Some v2).
Proof.
  intros HI Hset1 Hkl Hdl Httl Hat Ht Hheap Hfuel.
  pose proof (cache_t_set_safe key v1 fuel1 c ttl1 w HI) as H1.
  rewrite Hset1 in H1. destruct H1 as [HI1 Hl1].
  assert (Hat1 : at_time w1 t).
  { destruct Hl1 as ([k Hk] & _). intros i. rewrite Hk. apply Hat. }
  pose proof (heap_ok_later _ _ Hheap Hl1) as Hheap1.
  destruct HI1 as (m1 & Ln1 & Lo1 & bk1 & W1).
  pose proof (entries_le_size _ _ _ _ _ W1) as Hn.
  destruct (cache_t_set_total c1 m1 Ln1 Lo1 bk1 key v2 ttl2 w1 fuel2 W1 Hkl
              Hdl Hheap1) as (c2 & w2 & Hset2 & HI2 & Hl2 & P & K); [lia|].
  exists c2, w2. split; [exact Hset2|].
  unfold MAXTTL in Httl.
  destruct (Z.gtb_spec ttl2 604800); [lia|].
  assert (P' : stored c2 key v2 (ttl2 + (4611686018427387914 + t)) \/
               (exists m bk, wf c2 m [] [] bk) /\
               c_size c2 - c_hsize c2 <
                 Z.of_nat (length key) + Z.of_nat (length v2) + 20).
  { destruct P as [[k S]|D]; [left|right; exact D].
    rewrite (Hat1 k) in S. unfold tai_uint, tai_add in S.
    rewrite tai_of_unix_small in S by lia.
    rewrite u64_small in S by lia. exact S. }
  clear P. split; [|split].
  - intros Hfit stamp w3 d Hd Hnow.
    destruct P' as [S|[_ Hsmall]]; [|lia].
    destruct (get_stored c2 key v2 _ stamp w3 S Hkl)
      as (h & Hget & Hdata & _); [lia|].
    rewrite Hnow, tai_of_unix_small in Hget by lia.
    exists h, (snd (tick w3)). unfold cache_t_get. rewrite Hget. cbn [bind].
    destruct (Z.ltb_spec (ttl2 + (4611686018427387914 + t))
                (4611686018427387914 + (t + d))); [lia|].
    split; [reflexivity|exact Hdata].
  - intros [Hno|Hroom].
    + destruct (K Hno) as (Es & Eh & _). split; [exact Es|exact Eh].
    + destruct (set_with_room_keeps c1 m1 Ln1 Lo1 bk1 key v2 ttl2 fuel2 w1
                  c2 w2 W1 Hkl Hdl Hroom Hset2) as (Es & Eh & _).
      split; [exact Es|exact Eh].
  - intros stamp w3 h w4 Hget. unfold cache_t_get in Hget.
    destruct P' as [S|[(m2 & bk2 & W2) _]].
    + destruct (get_stored c2 key v2 _ stamp w3 S Hkl)
        as (h0 & Hget0 & Hdata & _); [lia|].
      rewrite Hget0 in Hget. cbn [bind] in Hget.
      destruct (_ <? _); [discriminate|].
      assert (E : h = h0) by congruence. rewrite E. exact Hdata.
    + rewrite (get_empty _ _ _ key stamp w3 W2) in Hget. discriminate.
Qed.

(** C4 (amended).  After a [cache_t_set] with a time to live of 0 at the
    second [t], every [cache_t_get] of the key at a later second misses.
    With resizing off, or with room for the entry at [writer], the call
    leaves [size] and [hsize] as they were.
    When the entry fits the arena that the call leaves, a [cache_t_get]
    in the second [t] itself returns the entry, with 0 seconds left; when
    it does not fit, nothing is stored and every [cache_t_get] of the key
    misses. *)
Theorem ttl_zero_misses c key data w t fuel :
  Inv c ->
  Z.of_nat (length key) <= MAXKEYLEN ->
  Z.of_nat (length data) <= MAXDATALEN ->
  at_time w t -> 0 <= t < 2 ^ 62 ->
  heap_ok w ->
  (Z.to_nat (c_size c) <= fuel)%nat ->
  exists c' w',
    cache_t_set fuel c key data 0 w = Ret (c', w') /\
    (forall stamp w2,
       t < tv_sec (clock w2 O) < 2 ^ 62 ->
       exists w3, cache_t_get c' key stamp w2 = Ret (None, w3)) /\
    (allow_resize (c_options c) = false \/
     c_writer c + 20 + Z.of_nat (length key) + Z.of_nat (length data)
       <= c_oldest c ->
     c_size c' = c_size c /\ c_hsize c' = c_hsize c) /\
    (20 + Z.of_nat (length key) + Z.of_nat (length data)
       <= c_size c' - c_hsize c' ->
     forall stamp w2,
       tv_sec (clock w2 O) = t ->
       exists h w3,
         cache_t_get c' key stamp w2 = Ret (Some h, w3) /\
         hit_data c' h = Some data /\
         datalen h = Z.of_nat (length data) /\
         ttl_left h = 0) /\
    (c_size c' - c_hsize c'
       < 20 + Z.of_nat (length key) + Z.of_nat (length data) ->
     forall stamp w2, cache_t_get c' key stamp w2 = Ret (None, w2)).
Proof.
  intros (m & Lnew & Lold & bk & W) Hkl Hdl Hat Ht Hheap Hfuel.
  pose proof (entries_le_size _ _ _ _ _ W) as Hn.
  destruct (cache_t_set_total c m Lnew Lold bk key data 0 w fuel W Hkl Hdl
              Hheap) as (c' & w' & Hset & HI & Hl & P & K); [lia|].
  exists c', w'. split; [exact Hset|].
  change (0 >? 604800) with false in P. cbv iota in P.
  assert (P' : stored c' key data (0 + (4611686018427387914 + t)) \/
               (exists m bk, wf c' m [] [] bk) /\
               c_size c' - c_hsize c' <
                 Z.of_nat (length key) + Z.of_nat (length data) + 20).
  { destruct P as [[k S]|D]; [left|right; exact D].
    rewrite (Hat k) in S. unfold tai_uint, tai_add in S.
    rewrite tai_of_unix_small in S by lia.
    rewrite u64_small in S by lia. exact S. }
  clear P. split; [|split; [|split]].
  - intros stamp w2 Hnow. unfold cache_t_get.
    destruct P' as [S|[(m' & bk' & W') _]].
    + destruct (get_stored c' key data _ stamp w2 S Hkl) as (h & Hget & _);
        [lia|].
      rewrite tai_of_unix_small in Hget by lia.
      rewrite Hget. cbn [bind].
      destruct (Z.ltb_spec (0 + (4611686018427387914 + t))
                  (4611686018427387914 + tv_sec (clock w2 O))); [|lia].
      now eexists.
    + rewrite (get_empty _ _ _ key stamp w2 W'). cbn [bind]. now eexists.
  - intros [Hno|Hroom].
    + destruct (K Hno) as (Es & Eh & _). split; [exact Es|exact Eh].
    + destruct (set_with_room_keeps c m Lnew Lold bk key data 0 fuel w c' w'
                  W Hkl Hdl Hroom Hset) as (Es & Eh & _).
      split; [exact Es|exact Eh].
  - intros Hfit stamp w2 Hnow.
    destruct P' as [S|[_ Hsmall]]; [|lia].
    destruct (get_stored c' key data _ stamp w2 S Hkl)
      as (h & Hget & Hdata & Hlen & Hleft); [lia|].
    rewrite Hnow, tai_of_unix_small in Hget, Hleft by lia.
    exists h, (snd (tick w2)). unfold cache_t_get. rewrite Hget. cbn [bind].
    destruct (Z.ltb_spec (0 + (4611686018427387914 + t))
                (4611686018427387914 + t)); [lia|].
    split; [reflexivity|]. split; [exact Hdata|]. split; [exact Hlen|].
    rewrite Hleft. unfold tai_sub.
    replace (0 + (4611686018427387914 + t) - (4611686018427387914 + t))
      with 0 by lia.
    rewrite u64_small by lia. apply ttl_of_small. lia.
  - intros Hbig stamp w2. unfold cache_t_get.
    destruct P' as [(m' & p & A & _ & Hhp & Hend & _)|[(m' & bk' & W') _]];
      [lia|].
    now rewrite (get_empty _ _ _ key stamp w2 W').
Qed.

(** C5 (amended).  The walk of [cache_t_get] always ends, and it compares
    at most 101 entries with the key, however long the chain.  In a
    well-formed cache the first entry with the key among the first 101 of
    the chain decides, after the entries before it have been compared;
    and when none of the first 101 entries holds the key, the lookup
    gives up as a miss after it has compared them (all of the chain, when
    it is shorter), whatever the rest of the chain holds. *)
Theorem get_compares_at_most_101 c key stamp w :
  match cache_t_get_seen c key stamp w with
  | Ret (_, n, _) => (n <= 101)%nat
  | Timeout => False
  | Exit111 | Fault => True
  end /\
  forall m Lnew Lold bk,
    wf c m Lnew Lold bk ->
    Z.of_nat (length key) <= MAXKEYLEN ->
    let chain := in_bucket bk (hash c key) (by_age Lnew Lold) in
    ((forall p, In p (firstn 101 chain) -> key_at m p <> key) ->
     cache_t_get_seen c key stamp w
     = Ret (None, Nat.min 101 (length chain), w)) /\
    (forall l1 p l2,
       firstn 101 chain = l1 ++ p :: l2 ->
       (forall q, In q l1 -> key_at m q <> key) ->
       key_at m p = key ->
       cache_t_get_seen c key stamp w
       = Ret (answer m (Z.of_nat (length key)) p (fst (tai_now w)),
              S (length l1), snd (tai_now w))).
Proof.
  split.
  { unfold cache_t_get_seen. destruct (c_x c) as [m|]; [|lia].
    destruct (_ >? MAXKEYLEN); [lia|].
    pose proof (get4_no_timeout c (hash c key)) as Hg.
    destruct (get4 c (hash c key)) as [pos| | |]; cbn [bind]; try exact I;
      [|congruence].
    apply walk_bound; [lia|reflexivity|lia]. }
  intros m Lnew Lold bk W Hkl chain.
  rewrite (cache_t_get_spec c m Lnew Lold bk key stamp w W Hkl).
  fold chain. split.
  - intros Hnone.
    rewrite <- (app_nil_r (firstn 101 chain)).
    rewrite (scan_skip m key [] _ O w Hnone). cbn [scan].
    now rewrite length_firstn.
  - intros l1 p l2 E Hl1 Hp. rewrite E.
    rewrite (scan_skip m key (p :: l2) l1 O w Hl1). cbn [scan].
    rewrite (proj2 (has_key_true m key p) Hp). reflexivity.
Qed.

(** C6 (amended).  After a successful [init], [size] is the request
    brought into the range from 100 to 1000000000, and [hsize] is the
    smallest power of two above [size/32], and at least 4. *)
Theorem init_size_and_hsize c cachesize options w c' w' :
  init c cachesize options w = Ret (1, c', w') ->
  c_size c' = clamp_size cachesize /\
  is_pow2 (c_hsize c') /\
  c_size c' / 32 < c_hsize c' /\
  (c_hsize c' = 4 \/ c_hsize c' / 2 <= c_size c' / 32).
Proof.
  intros H. apply init_Ret in H. destruct H.
  destruct ip_wf0 as (m & W).
  repeat split; try assumption. exact (wf_pow2 _ _ _ _ _ W).
Qed.

(** C7.  A request below 100 bytes makes [init] clear 100 bytes of a
    buffer that is shorter: it runs over the end of the allocation. *)
Theorem init_small_request_overruns c cachesize options w :
  heap w O = true -> cachesize < MINCACHESIZE ->
  init c cachesize options w = Fault.
Proof.
  intros Hheap Hsmall. apply init_overrun; [exact Hheap|].
  pose proof (clamp_size_range cachesize). lia.
Qed.

(** C10.  When the allocation fails, [init] (and [cache_t_init]) gives 0
    and leaves the instance as it was; [cache_t_new] gives null; and
    [check_for_resize] leaves the arena, the size and the cursors as they
    were, so that a well-formed cache stays well-formed. *)
Theorem init_alloc_failure c cachesize options w :
  heap w O = false ->
  init c cachesize options w = Ret (0, c, snd (alloc cachesize w)) /\
  cache_t_init c cachesize options w = Ret (0, c, snd (alloc cachesize w)) /\
  (forall w0, heap w0 O = true -> snd (alloc 0 w0) = w ->
     cache_t_new cachesize options w0
     = Ret (None, snd (alloc cachesize w))) /\
  (forall r c' w',
     check_for_resize c w = Ret (r, c', w') ->
     same_arena c c' /\ (Inv c -> Inv c')).
Proof.
  intros Hheap. pose proof (init_fail c cachesize options w Hheap) as Hinit.
  split; [exact Hinit|]. split; [exact Hinit|]. split.
  - intros w0 H0 <-. unfold cache_t_new.
    unfold alloc at 1. rewrite H0.
    change (snd (alloc 0 w0)) with
      {| clock := clock w0; heap := fun n => heap w0 (S n); junk := junk w0;
         stdout := stdout w0; g_cache_motion := g_cache_motion w0;
         is_default := is_default w0 |} in Hheap |- *.
    rewrite (init_fail zero_cache cachesize options _ Hheap). reflexivity.
  - intros r c' w' Hcheck.
    destruct (check_for_resize_spec c w)
      as (r1 & c1 & w1 & E & _ & Hfalse & Htrue).
    rewrite E in Hcheck. injection Hcheck as -> -> ->.
    assert (Ha : same_arena c c').
    { destruct r.
      - destruct (Htrue eq_refl) as (_ & [(Ht & _)|(_ & Ha & _)]);
          [congruence|exact Ha].
      - exact (proj1 (Hfalse eq_refl)). }
    split; [exact Ha|].
    intros (m & Lnew & Lold & bk & W). exists m, Lnew, Lold, bk.
    exact (wf_same_arena _ _ _ _ _ _ W Ha).
Qed.

(** * More about the code *)

(** ** What a step leaves of the entries *)

Lemma body_frame_refl m e : body_frame m m e.
Proof. intros q n _ _. reflexivity. Qed.

Lemma body_frame_fields m m' e :
  body_frame m m' e ->
  word_at m' (e + 4) = word_at m (e + 4) /\
  word_at m' (e + 8) = word_at m (e + 8) /\
  key_at m' e = key_at m e /\
  expire_at m' e = expire_at m e /\
  data_at m' e = data_at m e.
Proof.
  intros F.
  pose proof (word_at_range m (e + 4)) as Rk.
  pose proof (word_at_range m (e + 8)) as Rd.
  assert (Ek : word_at m' (e + 4) = word_at m (e + 4))
    by (unfold word_at; rewrite F by lia; reflexivity).
  assert (Ed : word_at m' (e + 8) = word_at m (e + 8))
    by (unfold word_at; rewrite F by lia; reflexivity).
  split; [exact Ek|]. split; [exact Ed|].
  unfold key_at, expire_at, data_at. rewrite Ek, Ed.
  rewrite !F by lia. repeat split.
Qed.

Lemma body_frame_trans m1 m2 m3 e :
  body_frame m1 m2 e -> body_frame m2 m3 e -> body_frame m1 m3 e.
Proof.
  intros F1 F2 q n Hq Hn.
  destruct (body_frame_fields _ _ _ F1) as (Ek & Ed & _).
  rewrite F2 by (rewrite ?Ek, ?Ed; lia). now apply F1.
Qed.

(** The bucket of every entry of [l] is the hash of its key. *)
Definition keyed (c : cache) (m : arena) (l : list Z) (bk : Z -> Z) : Prop :=
  forall p, In p l -> bk p = hash c (key_at m p).

(** The entries [l'] of [c'] are the newest of the entries [l] of [c], and
    behind their links they are as they were. *)
Record kept (c : cache) (m : arena) (l : list Z) (bk : Z -> Z)
    (c' : cache) (m' : arena) (l' : list Z) (bk' : Z -> Z) : Prop := {
  kept_prefix : exists k, l' = firstn k l;
  kept_body : forall p, In p l' -> body_frame m m' p;
  kept_bk : forall p, In p l' -> bk' p = bk p;
  kept_hsize : l' <> [] -> c_hsize c' = c_hsize c
}.

Lemma kept_same c m l bk c' :
  c_hsize c' = c_hsize c -> kept c m l bk c' m l bk.
Proof.
  intros Eh. constructor; trivial.
  - exists (length l). now rewrite firstn_all.
  - intros p _. apply body_frame_refl.
Qed.

Lemma kept_none c m l bk c' m' bk' : kept c m l bk c' m' [] bk'.
Proof.
  constructor; try (intros p []); [now exists O|congruence].
Qed.

Lemma firstn_In {A} (a : A) : forall k l, In a (firstn k l) -> In a l.
Proof.
  induction k as [|k IH]; intros [|b l]; simpl; try contradiction.
  intros [H|H]; [now left|right; now apply IH].
Qed.

Lemma kept_trans c1 m1 l1 bk1 c2 m2 l2 bk2 c3 m3 l3 bk3 :
  kept c1 m1 l1 bk1 c2 m2 l2 bk2 -> kept c2 m2 l2 bk2 c3 m3 l3 bk3 ->
  kept c1 m1 l1 bk1 c3 m3 l3 bk3.
Proof.
  intros [[k1 P1] B1 K1 H1] [[k2 P2] B2 K2 H2].
  assert (Hin : forall p, In p l3 -> In p l2).
  { intros p Hp. rewrite P2 in Hp. exact (firstn_In _ _ _ Hp). }
  constructor.
  - exists (Nat.min k2 k1). now rewrite P2, P1, firstn_firstn.
  - intros p Hp. apply (body_frame_trans _ m2); auto.
  - intros p Hp. rewrite K2 by exact Hp. auto.
  - intros Hne. rewrite H2 by exact Hne. apply H1.
    intros E. rewrite E in Hin. destruct l3 as [|p l3]; [congruence|].
    exact (Hin p (or_introl eq_refl)).
Qed.

Lemma kept_keyed c m l bk c' m' l' bk' :
  kept c m l bk c' m' l' bk' -> keyed c m l bk -> keyed c' m' l' bk'.
Proof.
  intros [[k P] B K H] HK p Hp.
  destruct (body_frame_fields _ _ _ (B p Hp)) as (_ & _ & -> & _).
  rewrite (K p Hp).
  rewrite (hash_keeps c c'); [apply HK|].
  - rewrite P in Hp. exact (firstn_In _ _ _ Hp).
  - apply H. intros E. now rewrite E in Hp.
Qed.

(** Taking the oldest entry away. *)
Lemma kept_evict c m l o bk c' m' :
  (forall e, In e l -> body_frame m m' e) ->
  c_hsize c' = c_hsize c ->
  kept c m (l ++ [o]) bk c' m' l bk.
Proof.
  intros F Eh. constructor; trivial.
  exists (length l). now rewrite firstn_app, firstn_all, Nat.sub_diag, app_nil_r.
Qed.

(** ** The counters of written bytes *)

Lemma init_motion c cachesize options w ok c' w' :
  init c cachesize options w = Ret (ok, c', w') ->
  c_cache_motion c' = c_cache_motion c /\
  g_cache_motion w' = g_cache_motion w.
Proof.
  unfold init, alloc. destruct (heap w O).
  - destruct (hsize_loop _ _ _) as [h| | |]; cbn [bind]; try discriminate.
    destruct (byte_zero _ _) as [mem| | |]; cbn [bind]; try discriminate.
    unfold taia_now, tick.
    cbn [clock heap junk stdout g_cache_motion is_default].
    intros [= <- <- <-]. destruct options; split; reflexivity.
  - intros [= <- <- <-]. split; reflexivity.
Qed.

Lemma check_for_resize_motion c w r c' w' :
  check_for_resize c w = Ret (r, c', w') ->
  c_cache_motion c' = c_cache_motion c /\
  g_cache_motion w' = g_cache_motion w.
Proof.
  unfold check_for_resize, taia_now, tick.
  cbn [clock heap junk stdout g_cache_motion is_default].
  destruct (allow_resize (c_options c) && d_nonzero _).
  2:{ intros [= <- <- <-]. split; reflexivity. }
  destruct (should_resize c _) as [[resize ratio] newsize].
  destruct (match resize_callback (c_options c) with
            | Some f => _ | None => _ end).
  2:{ intros [= <- <- <-]. split; reflexivity. }
  destruct (init _ _ _ _) as [[[ok c1] w1]| | |] eqn:E; cbn [bind];
    try discriminate.
  intros [= <- <- <-]. apply init_motion in E. exact E.
Qed.

(** ** What the loop of [cache_t_set] leaves of the entries *)

Definition room_cache (r : room) : cache :=
  match r with Room c _ | Drop c _ | Again c _ => c end.

Definition room_world (r : room) : world :=
  match r with Room _ w | Drop _ w | Again _ w => w end.

Lemma by_age_old Lnew o Lold :
  by_age Lnew (o :: Lold) = by_age Lnew Lold ++ [o].
Proof. unfold by_age. simpl. now rewrite app_assoc. Qed.

Lemma by_age_rotate Lnew : by_age [] Lnew = by_age Lnew [].
Proof. unfold by_age. simpl. now rewrite app_nil_r. Qed.

Lemma by_age_new Lnew p Lold :
  by_age (Lnew ++ [p]) Lold = p :: by_age Lnew Lold.
Proof. unfold by_age. now rewrite rev_app_distr. Qed.

Lemma make_room_kept e : 20 <= e <= 2000000 ->
  forall fuel c m Lnew Lold bk w r,
    wf c m Lnew Lold bk ->
    make_room fuel e c w = Ret r ->
    exists m' Lnew' Lold' bk',
      wf (room_cache r) m' Lnew' Lold' bk' /\
      kept c m (by_age Lnew Lold) bk
           (room_cache r) m' (by_age Lnew' Lold') bk' /\
      c_cache_motion (room_cache r) = c_cache_motion c /\
      g_cache_motion (room_world r) = g_cache_motion w.
Proof.
  intros He. induction fuel as [|fuel IH]; intros c m Lnew Lold bk w r W Hr;
    [discriminate|].
  cbn [make_room] in Hr.
  pose proof W as [Hx Hlen Hsz Hp2 Hhs Hwr Hol Hun Hsze Hempty HL].
  unfold MINCACHESIZE, MAXCACHESIZE in Hsz.
  pose proof (is_pow2_ge _ Hp2) as Hh4.
  rewrite u32_small in Hr by lia.
  assert (Hstay : exists m' Lnew' Lold' bk',
            wf c m' Lnew' Lold' bk' /\
            kept c m (by_age Lnew Lold) bk c m' (by_age Lnew' Lold') bk' /\
            c_cache_motion c = c_cache_motion c /\
            g_cache_motion w = g_cache_motion w).
  { exists m, Lnew, Lold, bk. split; [exact W|].
    split; [now apply kept_same|split; reflexivity]. }
  destruct (Z.gtb_spec (c_writer c + e) (c_oldest c)) as [Hfull|Hroom].
  2:{ injection Hr as <-. exact Hstay. }
  destruct (Z.eqb_spec (c_oldest c) (c_unused c)) as [Eou|Nou].
  - assert (Lold = []) as ->.
    { pose proof (lay_old _ _ _ _ _ _ _ _ HL) as T. rewrite Eou in T.
      exact (tiled_same _ _ _ T). }
    destruct (Z.leb_spec (c_writer c) (c_hsize c)) as [Hle|Hgt].
    { injection Hr as <-. exact Hstay. }
    destruct (check_for_resize_spec c w)
      as (r0 & c1 & w1 & E & Hl & Hfalse & Htrue).
    destruct (check_for_resize_motion c w r0 c1 w1 E) as (Mc & Mg).
    rewrite E in Hr. cbn [bind] in Hr. destruct r0.
    + injection Hr as <-. cbn [room_cache room_world].
      destruct (Htrue eq_refl) as (_ & [(_ & Hfresh & _)|(_ & Ha & _)]).
      * destruct Hfresh as ((m1 & W1) & _).
        exists m1, [], [], (fun _ => 0). split; [exact W1|].
        split; [apply kept_none|split; assumption].
      * exists m, Lnew, [], bk.
        split; [exact (wf_same_arena _ _ _ _ _ _ W Ha)|].
        split; [apply kept_same; apply Ha|split; assumption].
    + destruct (Hfalse eq_refl) as (Ha & _).
      pose proof (wf_same_arena _ _ _ _ _ _ W Ha) as W1.
      destruct Ha as (_ & Es1 & Eh1 & Ew1 & _).
      assert (Hgt1 : c_hsize c1 < c_writer c1) by lia.
      pose proof (wf_rotate _ _ _ _ W1 Hgt1) as Wr.
      destruct (tiled_nonempty _ _ _ _ (lay_new _ _ _ _ _ _ _ _ HL) Hgt)
        as (o & Lnew' & ->).
      destruct (evict_spec _ _ _ _ _ _ Wr)
        as (c2 & m2 & E2 & W2 & _ & (_ & Eh2 & Em2 & _) & FB).
      rewrite E2 in Hr. cbn [bind] in Hr.
      destruct (IH c2 m2 [] Lnew' bk w1 r W2 Hr)
        as (m' & Ln' & Lo' & bk' & W' & K' & Mc' & Mg').
      exists m', Ln', Lo', bk'. split; [exact W'|]. split.
      { eapply kept_trans; [|exact K'].
        rewrite <- by_age_rotate, by_age_old.
        apply kept_evict.
        - intros a Ha. apply FB. apply (proj1 (by_age_In _ _ _)). exact Ha.
        - rewrite Eh2. unfold rotate. cbn. exact Eh1. }
      split; [|congruence].
      rewrite Mc', Em2. unfold rotate. cbn. exact Mc.
  - assert (Hlt : c_oldest c < c_unused c) by lia.
    destruct (tiled_nonempty _ _ _ _ (lay_old _ _ _ _ _ _ _ _ HL) Hlt)
      as (o & Lold' & ->).
    destruct (evict_spec _ _ _ _ _ _ W)
      as (c2 & m2 & E2 & W2 & _ & (_ & Eh2 & Em2 & _) & FB).
    rewrite E2 in Hr. cbn [bind] in Hr.
    destruct (IH c2 m2 Lnew Lold' bk w r W2 Hr)
      as (m' & Ln' & Lo' & bk' & W' & K' & Mc' & Mg').
    exists m', Ln', Lo', bk'. split; [exact W'|]. split.
    { eapply kept_trans; [|exact K'].
      rewrite by_age_old. apply kept_evict; [|exact Eh2].
      intros a Ha. apply FB. apply (proj1 (by_age_In _ _ _)). exact Ha. }
    split; congruence.
Qed.

(** ** What [cache_t_set] leaves of the entries *)

(** The cache [c'] holds the entry [p] for [key] and [data], put in by a
    call that started in [c] and [w] and ended in [w']. *)
Definition added (c : cache) (w : world) (key data : list byte)
    (c' : cache) (m' : arena) (bk' : Z -> Z) (w' : world) (new : list Z)
    : Prop :=
  let e := Z.of_nat (length key) + Z.of_nat (length data) + 20 in
  (new = [] /\ c_cache_motion c' = c_cache_motion c /\
   g_cache_motion w' = g_cache_motion w) \/
  (exists p expire,
     new = [p] /\ entry_at m' p key data expire /\ bk' p = hash c' key /\
     c_cache_motion c' = u64 (c_cache_motion c + e) /\
     g_cache_motion w' =
       (if is_default w then u64 (g_cache_motion w + e)
        else g_cache_motion w)).

Lemma make_room_default e fuel c w r :
  make_room fuel e c w = Ret r -> Inv c -> 20 <= e <= 2000000 ->
  is_default (room_world r) = is_default w.
Proof.
  intros Hr (m & Lnew & Lold & bk & W) He.
  pose proof (make_room_spec e He fuel c m Lnew Lold bk w W) as H.
  rewrite Hr in H. destruct r as [c' w'|c' w'|c' w']; simpl in H |- *.
  - destruct H as (_ & _ & _ & (_ & _ & D)). exact D.
  - destruct H as (_ & _ & _ & (_ & _ & D)). exact D.
  - destruct H as (_ & _ & _ & _ & (_ & _ & D)). exact D.
Qed.

Lemma cache_t_set_kept key data :
  forall fuel c ttl w c' w' m Lnew Lold bk,
    wf c m Lnew Lold bk ->
    cache_t_set fuel c key data ttl w = Ret (c', w') ->
    exists m' Lnew' Lold' bk' new l',
      wf c' m' Lnew' Lold' bk' /\
      by_age Lnew' Lold' = new ++ l' /\
      kept c m (by_age Lnew Lold) bk c' m' l' bk' /\
      added c w key data c' m' bk' w' new.
Proof.
  induction fuel as [|fuel IH]; intros c ttl w c' w' m Lnew Lold bk W Hset;
    [discriminate|].
  cbn [cache_t_set] in Hset.
  assert (Hstay : forall c0 w0, Ret (c, w) = Ret (c0, w0) ->
            exists m' Lnew' Lold' bk' new l',
              wf c0 m' Lnew' Lold' bk' /\
              by_age Lnew' Lold' = new ++ l' /\
              kept c m (by_age Lnew Lold) bk c0 m' l' bk' /\
              added c w key data c0 m' bk' w0 new).
  { intros c0 w0 [= <- <-]. exists m, Lnew, Lold, bk, [], (by_age Lnew Lold).
    split; [exact W|]. split; [reflexivity|].
    split; [now apply kept_same|]. left. repeat split. }
  rewrite (wf_x _ _ _ _ _ W) in Hset.
  destruct (Z.gtb_spec (Z.of_nat (length key)) MAXKEYLEN) as [|Hkl];
    [now apply Hstay|].
  destruct (Z.gtb_spec (Z.of_nat (length data)) MAXDATALEN) as [|Hdl];
    [now apply Hstay|].
  rewrite entrylen_small in Hset by lia.
  set (e := Z.of_nat (length key) + Z.of_nat (length data) + 20) in *.
  assert (He : 20 <= e <= 2000000)
    by (unfold e, MAXKEYLEN, MAXDATALEN in *; lia).
  pose proof (make_room_spec e He fuel c m Lnew Lold bk w W) as Hroom.
  destruct (make_room fuel e c w) as [r| | |] eqn:Er; cbn [bind] in Hset;
    try discriminate.
  destruct (make_room_kept e He fuel c m Lnew Lold bk w r W Er)
    as (m1 & Ln1 & Lo1 & bk1 & W1 & K1 & Mc1 & Mg1).
  assert (D1 : is_default (room_world r) = is_default w).
  { apply (make_room_default e fuel c w r Er); [|exact He].
    now exists m, Lnew, Lold, bk. }
  destruct r as [c1 w1|c1 w1|c1 w1]; cbn [room_cache room_world] in *;
    simpl in Hroom.
  - destruct Hroom as (_ & Hfit & _).
    destruct (append_frame c1 m1 Ln1 Lo1 bk1 key data
                (if ttl >? 604800 then 604800 else ttl) w1 W1 Hkl Hdl)
      as (c2 & m2 & w2 & E2 & W2 & K2 & _ & _ & Ea & FB & Mc2 & Mg2 & _);
      [fold e; lia|].
    fold e in E2, Mc2, Mg2. rewrite E2 in Hset. injection Hset as <- <-.
    eexists m2, (Ln1 ++ [c_writer c1]), Lo1, _, [c_writer c1], _.
    split; [exact W2|]. split; [apply by_age_new|]. split.
    + eapply kept_trans; [exact K1|]. constructor.
      * exists (length (by_age Ln1 Lo1)). now rewrite firstn_all.
      * intros p Hp. apply FB. now apply (proj1 (by_age_In _ _ _)).
      * intros p Hp. destruct (Z.eqb_spec p (c_writer c1)) as [->|]; trivial.
        apply (proj1 (by_age_In _ _ _)) in Hp.
        pose proof (live_range _ _ _ _ _ _ _ _ (wf_layout _ _ _ _ _ W1)
                      (wf_geom _ _ _ _ _ W1) _ Hp) as Hr.
        destruct W1. lia.
      * intros _. apply K2.
    + right. eexists. eexists. split; [reflexivity|].
      split; [exact Ea|]. split.
      * rewrite Z.eqb_refl. symmetry. apply hash_keeps. apply K2.
      * rewrite Mc2, Mg2, Mc1, Mg1, D1. split; reflexivity.
  - injection Hset as <- <-. exists m1, Ln1, Lo1, bk1, [], (by_age Ln1 Lo1).
    split; [exact W1|]. split; [reflexivity|]. split; [exact K1|].
    left. repeat split; assumption.
  - destruct (IH c1 _ w1 c' w' m1 Ln1 Lo1 bk1 W1 Hset)
      as (m2 & Ln2 & Lo2 & bk2 & new & l2 & W2 & E2 & K2 & A2).
    exists m2, Ln2, Lo2, bk2, new, l2. split; [exact W2|].
    split; [exact E2|]. split; [exact (kept_trans _ _ _ _ _ _ _ _ _ _ _ _ K1 K2)|].
    unfold added in A2 |- *. rewrite Mc1, Mg1, D1 in A2. exact A2.
Qed.

(** A cache whose buckets follow the keys. *)
Definition InvK (c : cache) : Prop :=
  exists m Lnew Lold bk,
    wf c m Lnew Lold bk /\ keyed c m (by_age Lnew Lold) bk.

Lemma entry_at_fields m p key data expire :
  entry_at m p key data expire ->
  key_at m p = key /\ data_at m p = data /\ expire_at m p = u64 expire.
Proof.
  intros [Ekl Edl Eexp Ekey Edata].
  unfold key_at, data_at, expire_at.
  now rewrite Ekl, Edl, Ekey, Edata, Eexp, tai_unpack_pack.
Qed.

Lemma cache_t_set_keyed key data fuel c ttl w c' w' m Lnew Lold bk :
  wf c m Lnew Lold bk -> keyed c m (by_age Lnew Lold) bk ->
  cache_t_set fuel c key data ttl w = Ret (c', w') ->
  InvK c'.
Proof.
  intros W HK Hset.
  destruct (cache_t_set_kept key data fuel c ttl w c' w' m Lnew Lold bk W Hset)
    as (m' & Ln' & Lo' & bk' & new & l' & W' & E & K & A).
  exists m', Ln', Lo', bk'. split; [exact W'|].
  rewrite E. intros p Hp. apply in_app_or in Hp as [Hp|Hp].
  - destruct A as [(-> & _)|(q & ex & -> & Ea & Hbk & _)]; [contradiction|].
    destruct Hp as [<-|[]].
    destruct (entry_at_fields _ _ _ _ _ Ea) as (-> & _). exact Hbk.
  - exact (kept_keyed _ _ _ _ _ _ _ _ K HK p Hp).
Qed.

Lemma new_InvK cachesize options w c w' :
  cache_t_new cachesize options w = Ret (Some c, w') -> InvK c.
Proof.
  intros H. apply new_Ret in H as (w1 & P).
  destruct (ip_wf _ _ _ _ _ _ P) as (m & W).
  exists m, [], [], (fun _ => 0). split; [exact W|]. intros p [].
Qed.

Lemma run_InvK fuel ops : forall c w c' w',
  InvK c -> run fuel ops c w = Ret (c', w') -> InvK c'.
Proof.
  induction ops as [|[key data ttl|key stamp] ops IH]; intros c w c' w' HI;
    cbn [run].
  - now intros [= <- _].
  - destruct (cache_t_set fuel c key data ttl w) as [[c1 w1]| | |] eqn:E;
      cbn [bind]; try discriminate.
    apply IH. destruct HI as (m & Lnew & Lold & bk & W & HK).
    exact (cache_t_set_keyed _ _ _ _ _ _ _ _ _ _ _ _ W HK E).
  - destruct (cache_t_get c key stamp w) as [[h w1]| | |]; cbn [bind];
      try discriminate.
    now apply IH.
Qed.

(** A hit is the newest entry that holds the key. *)
Lemma hit_is_newest c m Lnew Lold bk key stamp w h w' :
  wf c m Lnew Lold bk -> keyed c m (by_age Lnew Lold) bk ->
  cache_t_get c key stamp w = Ret (Some h, w') ->
  exists p,
    find (has_key m key) (by_age Lnew Lold) = Some p /\
    answer m (Z.of_nat (length key)) p (fst (tai_now w)) = Some h.
Proof.
  intros W HK Hget.
  destruct (Z.gtb_spec (Z.of_nat (length key)) MAXKEYLEN) as [Hgt|Hkl].
  { unfold cache_t_get, cache_t_get_seen in Hget.
    rewrite (wf_x _ _ _ _ _ W) in Hget.
    destruct (Z.gtb_spec (Z.of_nat (length key)) MAXKEYLEN); [|lia].
    discriminate. }
  rewrite (cache_t_get_find c m Lnew Lold bk key stamp w W Hkl) in Hget.
  destruct (find _ (firstn _ _)) as [p|] eqn:Hfind; [|discriminate].
  injection Hget as Hans _.
  exists p. split; [|exact Hans].
  apply find_firstn in Hfind. unfold in_bucket in Hfind.
  rewrite find_filter in Hfind; [exact Hfind|].
  intros q Hq Hk. apply has_key_true in Hk.
  rewrite (HK q Hq), Hk. apply Z.eqb_refl.
Qed.

Lemma expire_at_range m p : 0 <= expire_at m p < 2 ^ 64.
Proof.
  unfold expire_at. destruct (load m (p + 12) 8) as [bs|] eqn:E; [|lia].
  apply load_length in E. unfold tai_unpack.
  pose proof (le_combine_bound (rev bs)) as B.
  rewrite length_rev, E in B. exact B.
Qed.

Lemma find_none {A} (f : A -> bool) : forall l,
  (forall a, In a l -> f a = false) -> find f l = None.
Proof.
  induction l as [|a l IH]; intros H; [reflexivity|]. simpl.
  rewrite (H a (or_introl eq_refl)). apply IH. intros b Hb. apply H. now right.
Qed.

Lemma find_In {A} (f : A -> bool) l p :
  find f l = Some p -> In p l /\ f p = true.
Proof. apply find_some. Qed.

(** The entry that a lookup finds, in the arena. *)
Lemma answer_hit c m Lnew Lold bk key p now h :
  wf c m Lnew Lold bk -> In p (by_age Lnew Lold) ->
  has_key m key p = true ->
  answer m (Z.of_nat (length key)) p now = Some h ->
  data_ptr h = p + 20 + Z.of_nat (length key) /\
  datalen h = word_at m (p + 8) /\
  hit_data c h = Some (data_at m p) /\
  expire_at m p >= now /\
  ttl_left h = ttl_of (tai_sub (expire_at m p) now).
Proof.
  intros W Hp Hk Ha. apply has_key_true in Hk.
  apply (proj1 (by_age_In _ _ _)) in Hp.
  pose proof (live_bounds _ _ _ _ _ _ _ _ (wf_layout _ _ _ _ _ W) p Hp) as Hb.
  pose proof (wf_geom _ _ _ _ _ W) as G.
  pose proof (word_at_range m (p + 4)) as Rk.
  pose proof (word_at_range m (p + 8)) as Rd.
  assert (Hend : p + 20 + word_at m (p + 4) + word_at m (p + 8)
                 <= Z.of_nat (length m) /\ 0 <= p)
    by (destruct W, G; lia).
  assert (Ekl : word_at m (p + 4) = Z.of_nat (length key)).
  { unfold key_at in Hk.
    destruct (load_Some m (p + 20) (word_at m (p + 4))) as (bs & E & Hl);
      [lia..|].
    rewrite E in Hk. subst bs. lia. }
  unfold answer in Ha. unfold tai_less in Ha.
  destruct (Z.ltb_spec (expire_at m p) now); [discriminate|].
  injection Ha as <-. cbn [data_ptr datalen ttl_left].
  split; [reflexivity|]. split; [reflexivity|]. split; [|split; [lia|reflexivity]].
  unfold hit_data, data_at. rewrite (wf_x _ _ _ _ _ W). cbn [data_ptr datalen].
  rewrite Ekl.
  destruct (load_Some m (p + 20 + Z.of_nat (length key)) (word_at m (p + 8)))
    as (bs & -> & _); [lia..|reflexivity].
Qed.

(** ** Runs that return *)

(** With an allocator that does not fail and fuel for the arena,
    [cache_t_set] returns. *)
Lemma cache_t_set_returns c key data ttl w fuel :
  Inv c -> heap_ok w -> (Z.to_nat (c_size c) <= fuel)%nat ->
  exists c' w',
    cache_t_set fuel c key data ttl w = Ret (c', w') /\ Inv c' /\ later w w'.
Proof.
  intros HI Hheap Hfuel. pose proof HI as (m & Lnew & Lold & bk & W).
  pose proof (entries_le_size _ _ _ _ _ W) as Hn.
  destruct (Z.gtb_spec (Z.of_nat (length key)) MAXKEYLEN) as [Hk|Hk];
    [|destruct (Z.gtb_spec (Z.of_nat (length data)) MAXDATALEN) as [Hd|Hd]].
  - destruct fuel as [|fuel]; [lia|]. cbn [cache_t_set].
    rewrite (wf_x _ _ _ _ _ W).
    destruct (Z.gtb_spec (Z.of_nat (length key)) MAXKEYLEN); [|lia].
    exists c, w. split; [reflexivity|]. split; [exact HI|apply later_refl].
  - destruct fuel as [|fuel]; [lia|]. cbn [cache_t_set].
    rewrite (wf_x _ _ _ _ _ W).
    destruct (Z.gtb_spec (Z.of_nat (length key)) MAXKEYLEN); [lia|].
    destruct (Z.gtb_spec (Z.of_nat (length data)) MAXDATALEN); [|lia].
    exists c, w. split; [reflexivity|]. split; [exact HI|apply later_refl].
  - destruct (cache_t_set_total c m Lnew Lold bk key data ttl w fuel W Hk Hd
                Hheap) as (c' & w' & Hset & HI' & Hl & _); [lia|].
    now exists c', w'.
Qed.

(** On a well-formed cache [cache_t_get] returns, and it leaves the
    allocator alone. *)
Lemma cache_t_get_returns c key stamp w :
  Inv c ->
  exists h w', cache_t_get c key stamp w = Ret (h, w') /\ later w w'.
Proof.
  intros (m & Lnew & Lold & bk & W).
  destruct (Z.gtb_spec (Z.of_nat (length key)) MAXKEYLEN) as [Hk|Hk].
  - unfold cache_t_get, cache_t_get_seen. rewrite (wf_x _ _ _ _ _ W).
    destruct (Z.gtb_spec (Z.of_nat (length key)) MAXKEYLEN); [|lia].
    cbn [bind]. exists None, w. split; [reflexivity|apply later_refl].
  - rewrite (cache_t_get_find c m Lnew Lold bk key stamp w W Hk).
    destruct (find _ _); eexists; eexists; (split; [reflexivity|]);
      [apply later_tick|apply later_refl].
Qed.

Lemma run_app fuel a b : forall c w,
  run fuel (a ++ b) c w = '(c1, w1) <- run fuel a c w ;; run fuel b c1 w1.
Proof.
  induction a as [|[key data ttl|key stamp] a IH]; intros c w; cbn [app run].
  - reflexivity.
  - destruct (cache_t_set fuel c key data ttl w) as [[c1 w1]| | |];
      cbn [bind]; [apply IH|reflexivity..].
  - destruct (cache_t_get c key stamp w) as [[h w1]| | |];
      cbn [bind]; [apply IH|reflexivity..].
Qed.

Lemma run_total fuel ops : forall c w,
  Inv c -> heap_ok w -> (Z.to_nat MAXCACHESIZE <= fuel)%nat ->
  exists c' w', run fuel ops c w = Ret (c', w') /\ Inv c'.
Proof.
  induction ops as [|[key data ttl|key stamp] ops IH]; intros c w HI Hheap Hfuel;
    cbn [run].
  - now exists c, w.
  - assert (Hsz : (Z.to_nat (c_size c) <= fuel)%nat).
    { destruct HI as (m & Lnew & Lold & bk & W). destruct W. lia. }
    destruct (cache_t_set_returns c key data ttl w fuel HI Hheap Hsz)
      as (c1 & w1 & -> & HI1 & Hl). cbn [bind].
    apply IH; [exact HI1|exact (heap_ok_later _ _ Hheap Hl)|exact Hfuel].
  - destruct (cache_t_get_returns c key stamp w HI) as (h & w1 & -> & Hl).
    cbn [bind].
    apply IH; [exact HI|exact (heap_ok_later _ _ Hheap Hl)|exact Hfuel].
Qed.

(** A completed [cache_t_set] at the second [t] leaves the entry at the
    head of its chain, or an empty cache that is too small for it. *)
Lemma set_stored c key data ttl w t fuel :
  Inv c ->
  Z.of_nat (length key) <= MAXKEYLEN ->
  Z.of_nat (length data) <= MAXDATALEN ->
  0 <= ttl ->
  at_time w t -> 0 <= t < 2 ^ 62 ->
  heap_ok w ->
  (Z.to_nat (c_size c) <= fuel)%nat ->
  exists c' w',
    cache_t_set fuel c key data ttl w = Ret (c', w') /\
    Inv c' /\ later w w' /\
    (stored c' key data
       (Z.min ttl 604800 + (4611686018427387914 + t)) \/
     (exists m bk, wf c' m [] [] bk) /\
     c_size c' - c_hsize c' <
       Z.of_nat (length key) + Z.of_nat (length data) + 20).
Proof.
  intros (m & Lnew & Lold & bk & W) Hkl Hdl Httl Hat Ht Hheap Hfuel.
  pose proof (entries_le_size _ _ _ _ _ W) as Hn.
  destruct (cache_t_set_total c m Lnew Lold bk key data ttl w fuel W Hkl Hdl
              Hheap) as (c' & w' & Hset & HI & Hl & P & K); [lia|].
  exists c', w'. split; [exact Hset|]. split; [exact HI|].
  split; [exact Hl|].
  destruct P as [[k S]|D]; [left|right; exact D].
  rewrite (Hat k) in S. unfold tai_uint, tai_add in S.
  rewrite tai_of_unix_small in S by lia.
  replace (Z.min ttl 604800) with (if ttl >? 604800 then 604800 else ttl)
    by (destruct (Z.gtb_spec ttl 604800); lia).
  rewrite u64_small in S; [exact S|].
  destruct (Z.gtb_spec ttl 604800); lia.
Qed.

(** ** Properties of the functions of cache.c *)

(** X1.  For a table whose size is a power of two, [hash] gives the
    offset of a head link: a multiple of 4 inside the table, whatever the
    key. *)
Theorem hash_in_table c key :
  is_pow2 (c_hsize c) -> c_hsize c < 2 ^ 32 ->
  0 <= hash c key /\ hash c key + 4 <= c_hsize c /\ hash c key mod 4 = 0.
Proof. exact (hash_bucket c key). Qed.

(** X2.  Inside the arena [get4] reads back what [set4] wrote, [set4]
    leaves every other word as it was, and past [size - 4] both exit with
    status 111. *)
Theorem set4_then_get4 c m p v :
  c_x c = Some m -> c_size c <= Z.of_nat (length m) ->
  4 <= c_size c < 2 ^ 32 ->
  0 <= p <= c_size c - 4 -> 0 <= v < 2 ^ 32 ->
  exists c',
    set4 c p v = Ret c' /\
    get4 c' p = Ret v /\
    (forall q, 0 <= q <= c_size c - 4 -> q + 4 <= p \/ p + 4 <= q ->
       get4 c' q = get4 c q) /\
    (forall q v', c_size c - 4 < q ->
       get4 c' q = Exit111 /\ set4 c' q v' = Exit111).
Proof.
  intros Hx Hlen Hsz Hp Hv.
  assert (A : arena_ok c m) by (repeat split; assumption || lia).
  destruct (set4_spec c m p v A) as (m' & Hs & Hset & A'); [lia..|].
  exists (set_x (Some m') c). split; [exact Hset|]. split; [|split].
  - rewrite (get4_spec _ m' p A') by (cbn; lia).
    now rewrite (word_at_store_same _ _ _ _ Hs), u32_small.
  - intros q Hq Hd.
    rewrite (get4_spec _ m' q A'), (get4_spec c m q A) by (cbn; lia).
    rewrite (word_at_store_other _ _ _ _ _ Hs); [reflexivity|].
    now rewrite uint32_pack_length.
  - intros q v' Hq. unfold get4, set4, cache_impossible. cbn [c_size set_x].
    rewrite u32_small by lia.
    destruct (Z.gtb_spec q (c_size c - 4)); [now split|lia].
Qed.

Lemma new_init cachesize options w c w' :
  cache_t_new cachesize options w = Ret (Some c, w') ->
  exists w1, init zero_cache cachesize options w1 = Ret (1, c, w').
Proof.
  unfold cache_t_new.
  destruct (alloc 0 w) as [[rec|] w1]; [|discriminate].
  destruct (init zero_cache cachesize options w1) as [[[ok c1] w2]| | |] eqn:E;
    cbn [bind]; try discriminate.
  destruct (Z.eqb_spec ok 0) as [->|Hok]; [discriminate|].
  intros [= <- <-]. exists w1. rewrite E.
  assert (ok = 1) as ->; [|reflexivity].
  unfold init in E. destruct (alloc cachesize w1) as [[mem|] w3].
  - destruct (hsize_loop _ _ _); cbn [bind] in E; try discriminate.
    destruct (byte_zero _ _); cbn [bind] in E; try discriminate.
    destruct (taia_now w3). now injection E as <- _ _.
  - injection E as <- _ _. contradiction.
Qed.

(** What a successful [init] leaves: an empty cache of the size of the
    request, brought into its range. *)
Lemma init_fresh_facts c cachesize options w c' w' :
  init c cachesize options w = Ret (1, c', w') ->
  (forall key stamp w2, cache_t_get c' key stamp w2 = Ret (None, w2)) /\
  c_size c' = clamp_size cachesize.
Proof.
  intros Hinit. apply init_Ret in Hinit. destruct Hinit.
  destruct ip_wf0 as (m & W). split; [|exact ip_size0].
  intros key stamp w3. unfold cache_t_get.
  now rewrite (get_empty _ _ _ key stamp w3 W).
Qed.

Lemma init_result c cachesize options w ok c' w' :
  init c cachesize options w = Ret (ok, c', w') ->
  (ok = 1 /\ heap w O = true) \/ (ok = 0 /\ c' = c /\ heap w O = false).
Proof.
  unfold init, alloc. destruct (heap w O).
  - destruct (hsize_loop _ _ _); cbn [bind]; try discriminate.
    destruct (byte_zero _ _); cbn [bind]; try discriminate.
    destruct (taia_now _). intros [= <- _ _]. now left.
  - intros [= <- <- _]. now right.
Qed.

(** X3.  A cache that [cache_t_new] returns is empty: every
    [cache_t_get] misses without reading the clock.  Its size is the
    request brought into the range from 100 to 1000000000, the counter
    and the statistics are zero, and with null options resizing is on
    with a target of 86400 seconds and no callback. *)
Theorem new_cache_is_empty cachesize options w c w' :
  cache_t_new cachesize options w = Ret (Some c, w') ->
  (forall key stamp w2, cache_t_get c key stamp w2 = Ret (None, w2)) /\
  c_size c = clamp_size cachesize /\
  c_cache_motion c = 0 /\
  ttl (c_cycle c) =
    {| ttl_count := 0; ttl_total := 0; ttl_min := 0; ttl_max := 0 |} /\
  c_options c =
    match options with
    | Some o => o
    | None => {| allow_resize := true; target_cycle_time := 86400;
                 resize_callback := None |}
    end.
Proof.
  intros H. destruct (new_init _ _ _ _ _ H) as (w1 & Hinit).
  destruct (init_fresh_facts _ _ _ _ _ _ Hinit) as (Hmiss & Hsize).
  apply new_Ret in H as (w2 & P). destruct P.
  split; [exact Hmiss|]. split; [exact Hsize|].
  split; [exact ip_motion0|].
  split; [exact ip_ttl0|]. rewrite ip_options0. now destruct options.
Qed.

(** X4.  On a well-formed cache, a [cache_t_get] of a key that no entry
    of the arena holds misses, and it does not read the clock. *)
Theorem get_missing_key c m Lnew Lold bk key stamp w :
  wf c m Lnew Lold bk ->
  (forall p, In p (by_age Lnew Lold) -> key_at m p <> key) ->
  cache_t_get c key stamp w = Ret (None, w).
Proof.
  intros W Hno.
  destruct (Z.gtb_spec (Z.of_nat (length key)) MAXKEYLEN) as [Hk|Hk].
  - unfold cache_t_get, cache_t_get_seen. rewrite (wf_x _ _ _ _ _ W).
    destruct (Z.gtb_spec (Z.of_nat (length key)) MAXKEYLEN); [|lia].
    reflexivity.
  - rewrite (cache_t_get_find c m Lnew Lold bk key stamp w W Hk).
    rewrite find_none; [reflexivity|].
    intros p Hp. apply firstn_In in Hp. apply in_bucket_In in Hp as [Hp _].
    destruct (has_key m key p) eqn:E; [|reflexivity].
    apply has_key_true in E. now apply Hno in Hp.
Qed.

(** The entry [p] of the arena of [c] is the newest one that holds
    [key], and [h] points at its data. *)
Definition newest_copy (c : cache) (key : list byte) (h : hit) : Prop :=
  exists m Lnew Lold bk p,
    wf c m Lnew Lold bk /\
    find (has_key m key) (by_age Lnew Lold) = Some p /\
    data_ptr h = p + 20 + Z.of_nat (length key) /\
    datalen h = word_at m (p + 8) /\
    hit_data c h = Some (data_at m p).

(** X5.  In a cache made by [cache_t_new] and any sequence of
    [cache_t_set] and [cache_t_get], a hit is the newest entry of the
    arena that holds the key: an older copy of the key is never
    returned. *)
Theorem hit_is_newest_copy cachesize options w0 c0 w1 fuel ops c w
    key stamp w2 h w3 :
  cache_t_new cachesize options w0 = Ret (Some c0, w1) ->
  run fuel ops c0 w1 = Ret (c, w) ->
  cache_t_get c key stamp w2 = Ret (Some h, w3) ->
  newest_copy c key h.
Proof.
  intros Hnew Hrun Hget.
  destruct (run_InvK fuel ops c0 w1 c w (new_InvK _ _ _ _ _ Hnew) Hrun)
    as (m & Lnew & Lold & bk & W & HK).
  destruct (hit_is_newest c m Lnew Lold bk key stamp w2 h w3 W HK Hget)
    as (p & Hfind & Hans).
  destruct (find_In _ _ _ Hfind) as [Hp Hk].
  destruct (answer_hit c m Lnew Lold bk key p _ h W Hp Hk Hans)
    as (H1 & H2 & H3 & _).
  now exists m, Lnew, Lold, bk, p.
Qed.

(** X6.  A hit of [cache_t_get] is an entry that holds the key and has
    not expired at the second [now] the clock gives, and the time to live
    it reports is what is left of the entry, cut at 604800. *)
Theorem hit_is_not_expired c key stamp w h w' :
  Inv c ->
  cache_t_get c key stamp w = Ret (Some h, w') ->
  let now := tai_of_unix (tv_sec (clock w O)) in
  exists m Lnew Lold bk p,
    wf c m Lnew Lold bk /\ In p (by_age Lnew Lold) /\
    key_at m p = key /\
    data_ptr h = p + 20 + Z.of_nat (length key) /\
    now <= expire_at m p /\
    ttl_left h = Z.min (expire_at m p - now) 604800.
Proof.
  intros (m & Lnew & Lold & bk & W) Hget now.
  destruct (Z.gtb_spec (Z.of_nat (length key)) MAXKEYLEN) as [Hgt|Hkl].
  { unfold cache_t_get, cache_t_get_seen in Hget.
    rewrite (wf_x _ _ _ _ _ W) in Hget.
    destruct (Z.gtb_spec (Z.of_nat (length key)) MAXKEYLEN); [|lia].
    discriminate. }
  rewrite (cache_t_get_find c m Lnew Lold bk key stamp w W Hkl) in Hget.
  destruct (find _ (firstn _ _)) as [p|] eqn:Hfind; [|discriminate].
  injection Hget as Hans _.
  apply find_In in Hfind as [Hp Hk]. apply firstn_In in Hp.
  apply in_bucket_In in Hp as [Hp _].
  change (fst (tai_now w)) with now in Hans.
  destruct (answer_hit c m Lnew Lold bk key p now h W Hp Hk Hans)
    as (H1 & _ & _ & Hexp & Hleft).
  exists m, Lnew, Lold, bk, p. split; [exact W|]. split; [exact Hp|].
  split; [now apply has_key_true|]. split; [exact H1|]. split; [lia|].
  rewrite Hleft. unfold tai_sub.
  pose proof (expire_at_range m p) as Re.
  assert (Rn : 0 <= now < 2 ^ 64) by apply u64_range.
  rewrite u64_small by lia.
  destruct (Z.le_gt_cases (expire_at m p - now) 604800).
  - rewrite Z.min_l by lia. apply ttl_of_small. lia.
  - rewrite Z.min_r by lia. apply ttl_of_large. lia.
Qed.

(** The entry at the head of its chain, looked up [d] seconds after it
    was stored for [x] seconds. *)
Lemma stored_get c key data x t stamp w d :
  stored c key data (x + (4611686018427387914 + t)) ->
  Z.of_nat (length key) <= MAXKEYLEN ->
  0 <= x <= 604800 -> 0 <= t < 2 ^ 62 ->
  0 <= d <= x -> tv_sec (clock w O) = t + d ->
  exists h,
    cache_t_get c key stamp w = Ret (Some h, snd (tick w)) /\
    hit_data c h = Some data /\
    datalen h = Z.of_nat (length data) /\
    ttl_left h = x - d.
Proof.
  intros S Hkl Hx Ht Hd Hnow.
  destruct (get_stored c key data _ stamp w S Hkl)
    as (h & Hget & Hdata & Hlen & Hleft); [lia|].
  rewrite Hnow, tai_of_unix_small in Hget, Hleft by lia.
  exists h. unfold cache_t_get. rewrite Hget. cbn [bind].
  destruct (Z.ltb_spec (x + (4611686018427387914 + t))
              (4611686018427387914 + (t + d))); [lia|].
  split; [reflexivity|]. split; [exact Hdata|]. split; [exact Hlen|].
  rewrite Hleft. unfold tai_sub.
  replace (x + (4611686018427387914 + t) - (4611686018427387914 + (t + d)))
    with (x - d) by lia.
  rewrite u64_small by lia. apply ttl_of_small. lia.
Qed.

(** X7.  A time to live above 604800 is cut to 604800: the call is the
    call with 604800, and an entry stored at the second [t] is returned
    [d] seconds later with [604800 - d] seconds left. *)
Theorem ttl_above_bound c key data ttl w t fuel :
  Inv c ->
  Z.of_nat (length key) <= MAXKEYLEN ->
  Z.of_nat (length data) <= MAXDATALEN ->
  MAXTTL < ttl ->
  at_time w t -> 0 <= t < 2 ^ 62 ->
  heap_ok w ->
  (Z.to_nat (c_size c) <= fuel)%nat ->
  cache_t_set fuel c key data ttl w = cache_t_set fuel c key data MAXTTL w /\
  exists c' w',
    cache_t_set fuel c key data ttl w = Ret (c', w') /\
    (20 + Z.of_nat (length key) + Z.of_nat (length data)
       <= c_size c' - c_hsize c' ->
     forall stamp w2 d,
       0 <= d <= MAXTTL -> tv_sec (clock w2 O) = t + d ->
       exists h w3,
         cache_t_get c' key stamp w2 = Ret (Some h, w3) /\
         hit_data c' h = Some data /\
         ttl_left h = MAXTTL - d).
Proof.
  intros HI Hkl Hdl Httl Hat Ht Hheap Hfuel. unfold MAXTTL in *. split.
  { destruct fuel as [|fuel]; [reflexivity|]. cbn [cache_t_set].
    destruct (Z.gtb_spec ttl 604800); [|lia].
    change (604800 >? 604800) with false. reflexivity. }
  destruct (set_stored c key data ttl w t fuel HI Hkl Hdl ltac:(lia) Hat Ht
              Hheap Hfuel) as (c' & w' & Hset & _ & _ & P).
  exists c', w'. split; [exact Hset|].
  intros Hfit stamp w2 d Hd Hnow.
  destruct P as [S|[_ Hsmall]]; [|lia].
  rewrite Z.min_r in S by lia.
  destruct (stored_get c' key data 604800 t stamp w2 d S Hkl ltac:(lia) Ht Hd
              Hnow) as (h & Hget & Hdata & _ & Hleft).
  exists h, (snd (tick w2)). split; [exact Hget|].
  split; [exact Hdata|exact Hleft].
Qed.

(** X8.  On a cache made by [cache_t_new], with an allocator that does
    not fail, every sequence of [cache_t_set] and [cache_t_get] runs to
    its end: no call exits with 111, none leaves the buffer, and every
    loop ends (with enough fuel the model returns). *)
Theorem run_returns cachesize options w0 c0 w1 ops :
  cache_t_new cachesize options w0 = Ret (Some c0, w1) ->
  heap_ok w1 ->
  exists fuel0, forall fuel, (fuel0 <= fuel)%nat ->
    exists c w, run fuel ops c0 w1 = Ret (c, w).
Proof.
  intros Hnew Hheap. exists (Z.to_nat MAXCACHESIZE). intros fuel Hfuel.
  apply new_Ret in Hnew as (w & P).
  destruct (ip_wf _ _ _ _ _ _ P) as (m & W).
  assert (HI : Inv c0) by (now exists m, [], [], (fun _ => 0)).
  destruct (run_total fuel ops c0 w1 HI Hheap Hfuel) as (c & w' & E & _).
  now exists c, w'.
Qed.

Lemma wf_empty_cursors c m bk :
  wf c m [] [] bk ->
  c_writer c = c_hsize c /\ c_oldest c = c_size c /\ c_unused c = c_size c.
Proof.
  intros W. destruct W.
  pose proof (lay_new _ _ _ _ _ _ _ _ wf_layout0) as Tn.
  pose proof (lay_old _ _ _ _ _ _ _ _ wf_layout0) as To.
  simpl in Tn, To. specialize (wf_empty0 To). lia.
Qed.

(** X9.  With resizing off, a [cache_t_set] of an entry that is larger
    than the arena behind the table stores nothing and empties the cache:
    the loop removes every entry before it gives up, and afterwards every
    [cache_t_get] misses. *)
Theorem too_large_entry_empties c key data ttl w fuel :
  Inv c ->
  allow_resize (c_options c) = false ->
  Z.of_nat (length key) <= MAXKEYLEN ->
  Z.of_nat (length data) <= MAXDATALEN ->
  c_size c - c_hsize c < 20 + Z.of_nat (length key) + Z.of_nat (length data) ->
  (Z.to_nat (c_size c) <= fuel)%nat ->
  exists c' w',
    cache_t_set fuel c key data ttl w = Ret (c', w') /\
    c_size c' = c_size c /\ c_hsize c' = c_hsize c /\
    c_writer c' = c_hsize c /\ c_oldest c' = c_size c /\
    c_unused c' = c_size c /\
    forall k stamp w2, cache_t_get c' k stamp w2 = Ret (None, w2).
Proof.
  intros (m & Lnew & Lold & bk & W) Hoff Hkl Hdl Hbig Hfuel.
  pose proof (entries_le_size _ _ _ _ _ W) as Hn.
  destruct fuel as [|fuel]; [lia|].
  cbn [cache_t_set]. rewrite (wf_x _ _ _ _ _ W).
  destruct (Z.gtb_spec (Z.of_nat (length key)) MAXKEYLEN); [lia|].
  destruct (Z.gtb_spec (Z.of_nat (length data)) MAXDATALEN); [lia|].
  rewrite entrylen_small by lia.
  set (e := Z.of_nat (length key) + Z.of_nat (length data) + 20) in *.
  assert (He : 20 <= e <= 2000000)
    by (unfold e, MAXKEYLEN, MAXDATALEN in *; lia).
  pose proof (make_room_spec e He fuel c m Lnew Lold bk w W) as Hroom.
  destruct (make_room fuel e c w) as [[c1 w1|c1 w1|c1 w1]| | |] eqn:Er;
    cbn [bind]; try contradiction; [| | |lia]; simpl in Hroom.
  - exfalso. destruct Hroom as ((m1 & Ln1 & Lo1 & bk1 & W1) & Hfit & K & _).
    destruct K as (Es & Eh & _). destruct W1. lia.
  - destruct Hroom as ((m1 & bk1 & W1) & _ & (Es & Eh & _) & _).
    exists c1, w1. split; [reflexivity|].
    destruct (wf_empty_cursors _ _ _ W1) as (Ew & Eo & Eu).
    repeat split; try congruence.
    intros k stamp w2. unfold cache_t_get.
    now rewrite (get_empty _ _ _ k stamp w2 W1).
  - destruct Hroom as (_ & _ & Hallow & _). congruence.
Qed.

(** X10.  When [check_for_resize] resizes (it returns 1 and the
    allocation succeeds), the cache starts again empty: every entry is
    gone and every [cache_t_get] misses; the new size is between 100 and
    1000000000 and the counter of written bytes is kept. *)
Theorem resize_empties c w c' w' :
  check_for_resize c w = Ret (true, c', w') ->
  heap w O = true ->
  (forall key stamp w2, cache_t_get c' key stamp w2 = Ret (None, w2)) /\
  100 <= c_size c' <= 1000000000 /\
  c_writer c' = c_hsize c' /\ c_oldest c' = c_size c' /\
  c_unused c' = c_size c' /\
  c_cache_motion c' = c_cache_motion c.
Proof.
  intros Hcheck Hheap.
  destruct (check_for_resize_motion c w true c' w' Hcheck) as (Mc & _).
  destruct (check_for_resize_spec c w) as (r & c1 & w1 & E & _ & _ & Htrue).
  rewrite E in Hcheck. injection Hcheck as -> -> ->.
  destruct (Htrue eq_refl) as (_ & [(_ & Hfresh & _)|(Hfail & _)]);
    [|congruence].
  destruct Hfresh as ((m & W) & Ew & Eo & Eu). split.
  { intros key stamp w2. unfold cache_t_get.
    now rewrite (get_empty _ _ _ key stamp w2 W). }
  pose proof (wf_size _ _ _ _ _ W) as Hsz.
  unfold MINCACHESIZE, MAXCACHESIZE in Hsz. repeat split; assumption || lia.
Qed.

(** X11.  What [cache_t_set] leaves in the arena: the entries it keeps
    are the newest ones, in their order and with their key, data and
    expiry time as they were, below at most one new entry, which holds
    the key and the data of the call.  An entry is never removed while an
    older one stays. *)
Theorem set_keeps_the_newest c m Lnew Lold bk key data ttl fuel w c' w' :
  wf c m Lnew Lold bk ->
  cache_t_set fuel c key data ttl w = Ret (c', w') ->
  exists m' Lnew' Lold' bk' new k,
    wf c' m' Lnew' Lold' bk' /\
    by_age Lnew' Lold' = new ++ firstn k (by_age Lnew Lold) /\
    (length new <= 1)%nat /\
    (forall p, In p new -> key_at m' p = key /\ data_at m' p = data) /\
    (forall p, In p (firstn k (by_age Lnew Lold)) ->
       key_at m' p = key_at m p /\ data_at m' p = data_at m p /\
       expire_at m' p = expire_at m p).
Proof.
  intros W Hset.
  destruct (cache_t_set_kept key data fuel c ttl w c' w' m Lnew Lold bk W Hset)
    as (m' & Ln' & Lo' & bk' & new & l' & W' & E & K & A).
  destruct K as [[k ->] B _ _].
  exists m', Ln', Lo', bk', new, k. split; [exact W'|]. split; [exact E|].
  split; [|split].
  - destruct A as [(-> & _)|(p & ex & -> & _)]; simpl; lia.
  - intros p Hp.
    destruct A as [(-> & _)|(q & ex & -> & Ea & _)]; [contradiction|].
    destruct Hp as [<-|[]].
    destruct (entry_at_fields _ _ _ _ _ Ea) as (? & ? & _). now split.
  - intros p Hp.
    destruct (body_frame_fields _ _ _ (B p Hp)) as (_ & _ & ? & ? & ?).
    repeat split; assumption.
Qed.

(** A [cache_t_set] that finds room at [writer]. *)
Lemma set_with_room c m Lnew Lold bk key data ttl fuel w :
  wf c m Lnew Lold bk ->
  Z.of_nat (length key) <= MAXKEYLEN ->
  Z.of_nat (length data) <= MAXDATALEN ->
  c_writer c + 20 + Z.of_nat (length key) + Z.of_nat (length data)
    <= c_oldest c ->
  (2 <= fuel)%nat ->
  exists c' m' bk',
    cache_t_set fuel c key data ttl w
      = Ret (c', if is_default w
                 then add_global_motion
                        (Z.of_nat (length key) + Z.of_nat (length data) + 20)
                        (snd (tick w))
                 else snd (tick w)) /\
    wf c' m' (Lnew ++ [c_writer c]) Lold bk' /\
    c_writer c' = c_writer c + 20 + Z.of_nat (length key)
                  + Z.of_nat (length data) /\
    c_oldest c' = c_oldest c /\ c_unused c' = c_unused c /\
    key_at m' (c_writer c) = key /\ data_at m' (c_writer c) = data /\
    (forall p, In p (by_age Lnew Lold) ->
       key_at m' p = key_at m p /\ data_at m' p = data_at m p /\
       expire_at m' p = expire_at m p) /\
    expire_at m' (c_writer c) =
      u64 (tai_add (tai_uint (if ttl >? 604800 then 604800 else ttl))
             (tai_of_unix (tv_sec (clock w O)))) /\
    (keyed c m (by_age Lnew Lold) bk ->
     keyed c' m' (by_age (Lnew ++ [c_writer c]) Lold) bk').
Proof.
  intros W Hkl Hdl Hroom Hfuel.
  destruct fuel as [|[|fuel]]; try lia.
  cbn [cache_t_set make_room]. rewrite (wf_x _ _ _ _ _ W).
  destruct (Z.gtb_spec (Z.of_nat (length key)) MAXKEYLEN); [lia|].
  destruct (Z.gtb_spec (Z.of_nat (length data)) MAXDATALEN); [lia|].
  rewrite entrylen_small by lia.
  pose proof W as [Hx Hlen Hsz Hp2 Hhs Hwr Hol Hun Hsze Hempty HL].
  unfold MINCACHESIZE, MAXCACHESIZE, MAXKEYLEN, MAXDATALEN in *.
  pose proof (is_pow2_ge _ Hp2) as Hh4.
  rewrite u32_small by lia.
  destruct (Z.gtb_spec
              (c_writer c + (Z.of_nat (length key) + Z.of_nat (length data)
                             + 20)) (c_oldest c)); [lia|].
  cbn [bind].
  destruct (append_frame c m Lnew Lold bk key data
              (if ttl >? 604800 then 604800 else ttl) w W)
    as (c' & m' & w' & E & W' & K & _ & _ & Ea & FB & _ & _ & Ew & Eo & Eu
        & ->);
    [unfold MAXKEYLEN; lia|unfold MAXDATALEN; lia|lia|].
  exists c', m'. eexists. split; [exact E|]. split; [exact W'|].
  destruct (entry_at_fields _ _ _ _ _ Ea) as (Ek & Ed & Ee).
  split; [lia|]. split; [exact Eo|]. split; [exact Eu|].
  split; [exact Ek|]. split; [exact Ed|]. split; [|split; [exact Ee|]].
  - intros p Hp. apply (proj1 (by_age_In _ _ _)) in Hp.
    destruct (body_frame_fields _ _ _ (FB p Hp)) as (_ & _ & ? & ? & ?).
    repeat split; assumption.
  - intros HK p Hp. rewrite by_age_new in Hp.
    rewrite (hash_keeps c c') by apply K.
    destruct Hp as [<-|Hp].
    + now rewrite Z.eqb_refl, Ek.
    + pose proof (proj1 (by_age_In _ _ _) Hp) as Hp'.
      destruct (Z.eqb_spec p (c_writer c)) as [->|_].
      * pose proof (live_range _ _ _ _ _ _ _ _ HL (wf_geom _ _ _ _ _ W) _ Hp').
        lia.
      * destruct (body_frame_fields _ _ _ (FB p Hp')) as (_ & _ & -> & _).
        now apply HK.
Qed.

(** X12.  When there is room at [writer] for the entry, [cache_t_set]
    removes nothing: the arena holds the entries it held, unchanged, and
    the new entry as the newest; the clock is read once and the
    allocator is not called. *)
Theorem set_with_room_keeps_all c m Lnew Lold bk key data ttl fuel w :
  wf c m Lnew Lold bk ->
  Z.of_nat (length key) <= MAXKEYLEN ->
  Z.of_nat (length data) <= MAXDATALEN ->
  c_writer c + 20 + Z.of_nat (length key) + Z.of_nat (length data)
    <= c_oldest c ->
  (2 <= fuel)%nat ->
  exists c' m' bk',
    cache_t_set fuel c key data ttl w
      = Ret (c', if is_default w
                 then add_global_motion
                        (Z.of_nat (length key) + Z.of_nat (length data) + 20)
                        (snd (tick w))
                 else snd (tick w)) /\
    wf c' m' (Lnew ++ [c_writer c]) Lold bk' /\
    c_writer c' = c_writer c + 20 + Z.of_nat (length key)
                  + Z.of_nat (length data) /\
    c_oldest c' = c_oldest c /\ c_unused c' = c_unused c /\
    key_at m' (c_writer c) = key /\ data_at m' (c_writer c) = data /\
    (forall p, In p (by_age Lnew Lold) ->
       key_at m' p = key_at m p /\ data_at m' p = data_at m p /\
       expire_at m' p = expire_at m p).
Proof.
  intros W Hkl Hdl Hroom Hfuel.
  destruct (set_with_room c m Lnew Lold bk key data ttl fuel w W Hkl Hdl
              Hroom Hfuel)
    as (c' & m' & bk' & E & W' & Ew & Eo & Eu & Ek & Ed & F & _).
  exists c', m', bk'. split; [exact E|]. split; [exact W'|].
  split; [exact Ew|]. split; [exact Eo|]. split; [exact Eu|].
  split; [exact Ek|]. split; [exact Ed|exact F].
Qed.

(** X13.  [cache_t_set] counts the bytes it writes: when it stores the
    entry, [c->cache_motion] grows by the length of the entry
    ([keylen + datalen + 20]), and the global [cache_motion] grows by the
    same amount when the instance is [default_cache] and stays as it was
    otherwise; when it stores nothing, both stay as they were.  A resize
    on the way keeps the counter of the instance. *)
Theorem set_counts_bytes c m Lnew Lold bk key data ttl fuel w c' w' :
  wf c m Lnew Lold bk ->
  cache_t_set fuel c key data ttl w = Ret (c', w') ->
  let e := Z.of_nat (length key) + Z.of_nat (length data) + 20 in
  exists m' Lnew' Lold' bk',
    wf c' m' Lnew' Lold' bk' /\
    (((exists k, by_age Lnew' Lold' = firstn k (by_age Lnew Lold)) /\
      c_cache_motion c' = c_cache_motion c /\
      g_cache_motion w' = g_cache_motion w) \/
     ((exists p k, by_age Lnew' Lold' = p :: firstn k (by_age Lnew Lold) /\
                   key_at m' p = key /\ data_at m' p = data) /\
      c_cache_motion c' = u64 (c_cache_motion c + e) /\
      g_cache_motion w' =
        (if is_default w then u64 (g_cache_motion w + e)
         else g_cache_motion w))).
Proof.
  intros W Hset e.
  destruct (cache_t_set_kept key data fuel c ttl w c' w' m Lnew Lold bk W Hset)
    as (m' & Ln' & Lo' & bk' & new & l' & W' & E & K & A).
  destruct K as [[k ->] _ _ _].
  exists m', Ln', Lo', bk'. split; [exact W'|].
  destruct A as [(-> & Mc & Mg)|(p & ex & -> & Ea & _ & Mc & Mg)].
  - left. split; [now exists k|now split].
  - right. destruct (entry_at_fields _ _ _ _ _ Ea) as (Ek & Ed & _).
    split; [now exists p, k|now split].
Qed.

Lemma find_firstn_le {A} (f : A -> bool) p : forall n n' l,
  (n <= n')%nat -> find f (firstn n l) = Some p ->
  find f (firstn n' l) = Some p.
Proof.
  induction n as [|n IH]; intros n' l Hle; [discriminate|].
  destruct n' as [|n']; [lia|]. destruct l as [|a l]; [discriminate|].
  simpl. destruct (f a); [trivial|]. apply IH. lia.
Qed.

Lemma find_firstn_app {A} (f : A -> bool) p : forall n l1 l2,
  find f (firstn n l1) = Some p -> find f (firstn n (l1 ++ l2)) = Some p.
Proof.
  induction n as [|n IH]; intros [|a l1] l2; simpl; try discriminate.
  destruct (f a); [trivial|apply IH].
Qed.

Lemma find_firstn_skip {A} (f g : A -> bool) p a n l :
  f a = false ->
  find f (firstn n (filter g (a :: l))) = Some p ->
  find f (firstn n (filter g l)) = Some p.
Proof.
  intros Hf. cbn [filter]. destruct (g a); [|trivial].
  destruct n as [|n]; [discriminate|].
  change (firstn (S n) (a :: filter g l)) with (a :: firstn n (filter g l)).
  cbn [find]. rewrite Hf. apply find_firstn_le. lia.
Qed.

Lemma find_ext_in {A} (f f' : A -> bool) : forall l,
  (forall a, In a l -> f a = f' a) -> find f l = find f' l.
Proof.
  induction l as [|a l IH]; intros H; [reflexivity|]. simpl.
  rewrite (H a (or_introl eq_refl)). destruct (f' a); [reflexivity|].
  apply IH. intros b Hb. apply H. now right.
Qed.

(** A lookup after a [cache_t_set] of another key, traced back to the
    arena before the call. *)
Lemma set_other_lookup c m Lnew Lold bk key data ttl fuel w c' w'
    key' stamp1 stamp2 w1 w2 h w3 :
  wf c m Lnew Lold bk -> keyed c m (by_age Lnew Lold) bk ->
  cache_t_set fuel c key data ttl w = Ret (c', w') ->
  key' <> key ->
  cache_t_get c' key' stamp2 w2 = Ret (Some h, w3) ->
  tv_sec (clock w1 O) = tv_sec (clock w2 O) ->
  cache_t_get c key' stamp1 w1 = Ret (Some h, snd (tick w1)) /\
  hit_data c h = hit_data c' h.
Proof.
  intros W HK Hset Hne Hget Hclock.
  destruct (Z.gtb_spec (Z.of_nat (length key')) MAXKEYLEN) as [Hgt|Hkl].
  { destruct (cache_t_set_kept key data fuel c ttl w c' w' m Lnew Lold bk W
                Hset) as (m' & Ln' & Lo' & bk' & _ & _ & W' & _).
    unfold cache_t_get, cache_t_get_seen in Hget.
    rewrite (wf_x _ _ _ _ _ W') in Hget.
    destruct (Z.gtb_spec (Z.of_nat (length key')) MAXKEYLEN); [|lia].
    discriminate. }
  destruct (cache_t_set_kept key data fuel c ttl w c' w' m Lnew Lold bk W Hset)
    as (m' & Ln' & Lo' & bk' & new & l' & W' & E & K & A).
  rewrite (cache_t_get_find c' m' Ln' Lo' bk' key' stamp2 w2 W' Hkl) in Hget.
  destruct (find _ (firstn _ _)) as [p|] eqn:Hfind; [|discriminate].
  injection Hget as Hans _. rewrite E in Hfind. unfold in_bucket in Hfind.
  assert (Hfind' : find (has_key m' key')
                     (firstn 101 (filter (fun q => bk' q =? hash c' key') l'))
                   = Some p).
  { destruct A as [(-> & _)|(q & ex & -> & Ea & _)]; [exact Hfind|].
    apply (find_firstn_skip _ _ _ q). 2: exact Hfind.
    destruct (has_key m' key' q) eqn:Eq; [|reflexivity].
    apply has_key_true in Eq.
    destruct (entry_at_fields _ _ _ _ _ Ea) as (Ek & _). congruence. }
  destruct K as [[k Hk] B Kbk Kh].
  assert (Hl' : l' <> []).
  { intros ->. destruct (Nat.eqb 101 0); simpl in Hfind'; discriminate. }
  specialize (Kh Hl').
  assert (Hfilter : filter (fun q => bk' q =? hash c' key') l'
                    = filter (fun q => bk q =? hash c key') l').
  { apply filter_ext_in. intros q Hq.
    now rewrite (Kbk q Hq), (hash_keeps c c' _ Kh). }
  rewrite Hfilter in Hfind'.
  assert (Hkey : forall q, In q l' -> has_key m' key' q = has_key m key' q).
  { intros q Hq. unfold has_key.
    destruct (body_frame_fields _ _ _ (B q Hq)) as (_ & _ & -> & _).
    reflexivity. }
  rewrite (find_ext_in _ (has_key m key')) in Hfind'.
  2:{ intros q Hq. apply Hkey. apply firstn_In in Hq.
      apply filter_In in Hq. tauto. }
  assert (Hold : find (has_key m key')
                   (firstn 101 (in_bucket bk (hash c key') (by_age Lnew Lold)))
                 = Some p).
  { unfold in_bucket.
    rewrite <- (firstn_skipn k (by_age Lnew Lold)), <- Hk, filter_app.
    now apply find_firstn_app. }
  destruct (find_In _ _ _ Hfind') as [Hp' Hkp].
  apply firstn_In in Hp'. apply filter_In in Hp' as [Hp' _].
  assert (Hp : In p (by_age Lnew Lold))
    by (rewrite Hk in Hp'; exact (firstn_In _ _ _ Hp')).
  assert (Hp2 : In p (by_age Ln' Lo'))
    by (rewrite E; apply in_or_app; now right).
  destruct (body_frame_fields _ _ _ (B p Hp'))
    as (_ & Edl & _ & Eex & Edata).
  assert (Hans1 : answer m (Z.of_nat (length key')) p (fst (tai_now w1))
                  = Some h).
  { rewrite <- Hans. unfold answer, tai_now. cbn [tick fst].
    now rewrite Hclock, Eex, Edl. }
  split.
  - rewrite (cache_t_get_find c m Lnew Lold bk key' stamp1 w1 W Hkl), Hold.
    now rewrite Hans1.
  - destruct (answer_hit c m Lnew Lold bk key' p _ h W Hp Hkp Hans1)
      as (_ & _ & -> & _).
    rewrite <- Hkey in Hkp by exact Hp'.
    destruct (answer_hit c' m' Ln' Lo' bk' key' p _ h W' Hp2 Hkp Hans)
      as (_ & _ & -> & _).
    now rewrite Edata.
Qed.

(** X14.  A [cache_t_set] of one key does not change what a lookup of
    another key finds: in a cache made by [cache_t_new] and calls of
    [cache_t_set] and [cache_t_get], if [cache_t_get] hits for another
    key after the call, then it hit before the call, at the same second,
    with the same entry, the same data and the same time to live.  (The
    call can only make that lookup miss, by removing the entry.) *)
Theorem set_keeps_other_lookups cachesize options w0 c0 w1 fuel ops c w
    fuel' key data ttl c' w' key' stamp w2 w3 h w4 :
  cache_t_new cachesize options w0 = Ret (Some c0, w1) ->
  run fuel ops c0 w1 = Ret (c, w) ->
  cache_t_set fuel' c key data ttl w = Ret (c', w') ->
  key' <> key ->
  cache_t_get c' key' stamp w3 = Ret (Some h, w4) ->
  tv_sec (clock w2 O) = tv_sec (clock w3 O) ->
  cache_t_get c key' stamp w2 = Ret (Some h, snd (tick w2)) /\
  hit_data c h = hit_data c' h.
Proof.
  intros Hnew Hrun Hset Hne Hget Hclock.
  destruct (run_InvK fuel ops c0 w1 c w (new_InvK _ _ _ _ _ Hnew) Hrun)
    as (m & Lnew & Lold & bk & W & HK).
  exact (set_other_lookup c m Lnew Lold bk key data ttl fuel' w c' w'
           key' stamp stamp w2 w3 h w4 W HK Hset Hne Hget Hclock).
Qed.

(** ** The instance behind [cache_get], [cache_set] and [cache_init] *)

(** A [cache_t_set] on a cache as [init] leaves it, of an entry that is
    larger than the arena behind the table: the call changes nothing. *)
Lemma set_fresh_full c key data ttl w fuel :
  fresh c ->
  Z.of_nat (length key) <= MAXKEYLEN ->
  Z.of_nat (length data) <= MAXDATALEN ->
  c_size c - c_hsize c
    < 20 + Z.of_nat (length key) + Z.of_nat (length data) ->
  (2 <= fuel)%nat ->
  cache_t_set fuel c key data ttl w = Ret (c, w).
Proof.
  intros ((m & W) & Ewr & Eol & Eun) Hkl Hdl Hbig Hfuel.
  destruct fuel as [|[|fuel]]; try lia.
  cbn [cache_t_set]. rewrite (wf_x _ _ _ _ _ W).
  destruct (Z.gtb_spec (Z.of_nat (length key)) MAXKEYLEN); [lia|].
  destruct (Z.gtb_spec (Z.of_nat (length data)) MAXDATALEN); [lia|].
  rewrite entrylen_small by lia.
  cbn [make_room].
  pose proof W as [Hx Hlen Hsz Hp2 Hhs Hwr Hol Hun Hsze Hempty HL].
  unfold MINCACHESIZE, MAXCACHESIZE, MAXKEYLEN, MAXDATALEN in *.
  pose proof (is_pow2_ge _ Hp2) as Hh4.
  rewrite u32_small by lia.
  destruct (Z.gtb_spec
              (c_writer c + (Z.of_nat (length key) + Z.of_nat (length data)
                             + 20)) (c_oldest c)); [|lia].
  rewrite Eol, Eun, Z.eqb_refl.
  destruct (Z.leb_spec (c_writer c) (c_hsize c)); [|lia].
  reflexivity.
Qed.

Lemma with_default_back w :
  with_default (is_default w) (with_default true w) = w.
Proof. now destruct w. Qed.

(** X15.  The round trip through the default instance.  A [cache_init]
    that creates the instance leaves an arena of the size of the request,
    brought into its range.  When the entry fits that arena,
    [cache_set] stores it without changing [size] or [hsize], the global
    counter [cache_motion] grows by the length of the entry, and
    [cache_get] returns the data [dd] seconds later with [ttl - dd]
    seconds left.  When the entry does not fit, [cache_set] changes
    nothing. *)
Theorem default_round_trip cachesize options w0 d w1 key data ttl t fuel :
  cache_init None cachesize options w0 = Ret (1, d, w1) ->
  Z.of_nat (length key) <= MAXKEYLEN ->
  Z.of_nat (length data) <= MAXDATALEN ->
  0 <= ttl <= MAXTTL ->
  at_time w1 t -> 0 <= t < 2 ^ 62 ->
  (2 <= fuel)%nat ->
  exists c,
    d = Some c /\ c_size c = clamp_size cachesize /\
    (20 + Z.of_nat (length key) + Z.of_nat (length data)
       <= c_size c - c_hsize c ->
     exists c' w2,
       cache_set fuel d key data ttl w1 = Ret (Some c', w2) /\
       is_default w2 = is_default w1 /\
       c_size c' = c_size c /\ c_hsize c' = c_hsize c /\
       g_cache_motion w2 =
         u64 (g_cache_motion w1
              + (Z.of_nat (length key) + Z.of_nat (length data) + 20)) /\
       forall w3 dd,
         0 <= dd <= ttl -> tv_sec (clock w3 O) = t + dd ->
         exists h w4,
           cache_get (Some c') key w3 = Ret (Some h, w4) /\
           hit_data c' h = Some data /\
           ttl_left h = ttl - dd) /\
    (c_size c - c_hsize c
       < 20 + Z.of_nat (length key) + Z.of_nat (length data) ->
     cache_set fuel d key data ttl w1 = Ret (d, w1)).
Proof.
  intros Hinit Hkl Hdl Httl Hat Ht Hfuel.
  unfold cache_init in Hinit.
  destruct (cache_t_new cachesize options w0) as [[[c|] w]| | |] eqn:Hnew;
    cbn [bind] in Hinit; try discriminate.
  injection Hinit as <- <-.
  apply new_Ret in Hnew as (wn & P).
  destruct (ip_wf _ _ _ _ _ _ P) as (m & W).
  pose proof (ip_writer _ _ _ _ _ _ P) as Ewr.
  pose proof (ip_oldest _ _ _ _ _ _ P) as Eol.
  pose proof (ip_unused _ _ _ _ _ _ P) as Eun.
  assert (Hfresh : fresh c).
  { split; [now exists m|]. split; [exact Ewr|]. split; [exact Eol|exact Eun]. }
  exists c. split; [reflexivity|]. split; [exact (ip_size _ _ _ _ _ _ P)|].
  unfold MAXTTL in Httl. split.
  - intros Hfit.
    destruct (set_fresh c key data ttl (with_default true w) fuel Hfresh Hkl
                Hdl Hfuel) as (c' & w' & Hset & _ & _ & K & S).
    destruct K as (Es & Eh & _).
    destruct (set_with_room c m [] [] (fun _ => 0) key data ttl fuel
                (with_default true w) W Hkl Hdl ltac:(lia) Hfuel)
      as (c2 & m2 & bk2 & Hset2 & _).
    rewrite Hset in Hset2. cbn [with_default is_default] in Hset2.
    assert (Ew : w' = add_global_motion
                        (Z.of_nat (length key) + Z.of_nat (length data) + 20)
                        (snd (tick (with_default true w))))
      by congruence.
    exists c', (with_default (is_default w) w'). unfold cache_set.
    rewrite Hset. cbn [bind]. split; [reflexivity|]. split; [reflexivity|].
    split; [exact Es|]. split; [exact Eh|]. split.
    { rewrite Ew. reflexivity. }
    intros w3 dd Hdd Hnow.
    destruct (Z.gtb_spec ttl 604800); [lia|].
    destruct S as [[k S]|[_ Hsmall]]; [|lia].
    change (clock (with_default true w) k) with (clock w k) in S.
    rewrite (Hat k) in S. unfold tai_uint, tai_add in S.
    rewrite tai_of_unix_small in S by lia.
    rewrite u64_small in S by lia.
    destruct (stored_get c' key data ttl t None w3 dd S Hkl ltac:(lia) Ht Hdd
                Hnow) as (h & Hget & Hdata & _ & Hleft).
    exists h, (snd (tick w3)). split; [exact Hget|].
    split; [exact Hdata|exact Hleft].
  - intros Hbig. unfold cache_set.
    rewrite (set_fresh_full c key data ttl (with_default true w) fuel Hfresh
               Hkl Hdl Hbig Hfuel).
    cbn [bind]. now rewrite with_default_back.
Qed.

(** X16.  [cache_init] either gives 1 and leaves an empty default
    instance of the size of the request, brought into its range (the
    instance is created when there was none, initialised again
    otherwise), or it gives 0 and leaves [default_cache] as it was. *)
Theorem cache_init_result d cachesize options w ok d' w' :
  cache_init d cachesize options w = Ret (ok, d', w') ->
  (ok = 1 /\
   (exists c', d' = Some c' /\ c_size c' = clamp_size cachesize) /\
   forall key w2, cache_get d' key w2 = Ret (None, w2)) \/
  (ok = 0 /\ d' = d).
Proof.
  unfold cache_init. destruct d as [c|].
  - destruct (init c cachesize options w) as [[[ok1 c1] w1]| | |] eqn:Hinit;
      cbn [bind]; try discriminate.
    intros [= <- <- <-].
    destruct (init_result _ _ _ _ _ _ _ Hinit) as [[-> _]|(-> & -> & _)];
      [left|now right].
    destruct (init_fresh_facts _ _ _ _ _ _ Hinit) as (Hmiss & Hsize).
    split; [reflexivity|].
    split; [now exists c1|]. intros key w2. apply Hmiss.
  - destruct (cache_t_new cachesize options w) as [[[c|] w1]| | |] eqn:Hnew;
      cbn [bind]; try discriminate; intros [= <- <- <-]; [left|now right].
    destruct (new_init _ _ _ _ _ Hnew) as (wi & Hinit).
    destruct (init_fresh_facts _ _ _ _ _ _ Hinit) as (Hmiss & Hsize).
    split; [reflexivity|].
    split; [now exists c|]. intros key w2. apply Hmiss.
Qed.

(** ** The resize log *)

Lemma init_stdout c cachesize options w ok c' w' :
  init c cachesize options w = Ret (ok, c', w') -> stdout w' = stdout w.
Proof.
  unfold init, alloc. destruct (heap w O).
  - destruct (hsize_loop _ _ _) as [h| | |]; cbn [bind]; try discriminate.
    destruct (byte_zero _ _) as [mem| | |]; cbn [bind]; try discriminate.
    unfold taia_now, tick.
    cbn [clock heap junk stdout g_cache_motion is_default].
    now intros [= _ _ <-].
  - now intros [= _ _ <-].
Qed.

(** X17.  [check_for_resize] prints its line exactly when it returns 1:
    the line names the old size and a new size between 100 and
    1000000000.  The line is printed before the allocation: when the
    allocation succeeds the cache has the new size, and when it fails the
    line is printed all the same and the cache keeps its size. *)
Theorem resize_is_logged c w r c' w' :
  check_for_resize c w = Ret (r, c', w') ->
  (r = false -> stdout w' = stdout w /\ c_size c' = c_size c) /\
  (r = true ->
   exists newsize,
     stdout w' = stdout w ++ [(c_size c, newsize)] /\
     100 <= newsize <= 1000000000 /\
     (heap w O = true -> c_size c' = newsize) /\
     (heap w O = false -> c_size c' = c_size c)).
Proof.
  unfold check_for_resize, taia_now, tick.
  cbn [clock heap junk stdout g_cache_motion is_default].
  set (cycle_time := taia_approx _).
  destruct (allow_resize (c_options c) && d_nonzero cycle_time).
  2:{ intros [= <- <- <-]. split; [now split|discriminate]. }
  destruct (should_resize_newsize c cycle_time) as (raw & Hraw).
  destruct (should_resize c cycle_time) as [[resize ratio] newsize].
  cbn [snd] in Hraw. subst newsize.
  destruct (match resize_callback (c_options c) with
            | Some f => _ | None => _ end).
  2:{ intros [= <- <- <-]. split; [now split|discriminate]. }
  destruct (init _ _ _ _) as [[[ok c1] w1]| | |] eqn:E; cbn [bind];
    try discriminate.
  intros [= <- <- <-]. split; [discriminate|]. intros _.
  exists (clamp_size raw).
  pose proof (clamp_size_range raw) as Hr.
  unfold MINCACHESIZE, MAXCACHESIZE in Hr.
  split; [now rewrite (init_stdout _ _ _ _ _ _ _ E)|]. split; [exact Hr|].
  split; intros Hheap.
  - destruct (init_result _ _ _ _ _ _ _ E) as [[-> _]|(_ & _ & Hf)].
    + apply init_Ret in E. rewrite (ip_size _ _ _ _ _ _ E).
      apply clamp_size_idem.
    + cbn in Hf. congruence.
  - rewrite init_fail in E by exact Hheap. now injection E as _ <- _.
Qed.

(** X18.  When the newest entry that holds the key has expired,
    [cache_t_get] misses, whatever older entries hold: the walk ends at
    the first entry with the key, and an older copy that has not expired
    is not returned. *)
Theorem expired_copy_hides_older c m Lnew Lold bk key stamp w p :
  wf c m Lnew Lold bk -> keyed c m (by_age Lnew Lold) bk ->
  find (has_key m key) (by_age Lnew Lold) = Some p ->
  expire_at m p < tai_of_unix (tv_sec (clock w O)) ->
  exists w', cache_t_get c key stamp w = Ret (None, w').
Proof.
  intros W HK Hfind Hexp.
  destruct (Z.gtb_spec (Z.of_nat (length key)) MAXKEYLEN) as [Hgt|Hkl].
  { unfold cache_t_get, cache_t_get_seen. rewrite (wf_x _ _ _ _ _ W).
    destruct (Z.gtb_spec (Z.of_nat (length key)) MAXKEYLEN); [|lia].
    now exists w. }
  rewrite (cache_t_get_find c m Lnew Lold bk key stamp w W Hkl).
  destruct (find _ (firstn _ _)) as [q|] eqn:Hq; [|now exists w].
  apply find_firstn in Hq. unfold in_bucket in Hq.
  rewrite find_filter in Hq.
  2:{ intros a Ha Hk. apply has_key_true in Hk.
      rewrite (HK a Ha), Hk. apply Z.eqb_refl. }
  assert (q = p) as -> by congruence.
  exists (snd (tai_now w)). unfold answer, tai_less, tai_now.
  cbn [tick fst].
  destruct (Z.ltb_spec (expire_at m p) (tai_of_unix (tv_sec (clock w O))));
    [reflexivity|lia].
Qed.

(** ** The statistics of the cycle *)

Definition list_sum (l : list Z) : Z := fold_right Z.add 0 l.

Lemma list_sum_app l t : list_sum (l ++ [t]) = list_sum l + t.
Proof.
  induction l as [|a l IH]; simpl; [lia|]. rewrite IH. lia.
Qed.

Lemma u64_add_l a b : u64 (u64 a + b) = u64 (a + b).
Proof. unfold u64. apply Zplus_mod_idemp_l. Qed.

Lemma stats_inv c l :
  ttl (c_cycle c) =
    {| ttl_count := 0; ttl_total := 0; ttl_min := 0; ttl_max := 0 |} ->
  (forall t, In t l -> 0 < t) ->
  let s := ttl (c_cycle (fold_left cycle_stats_add_ttl l c)) in
  ttl_count s = u64 (Z.of_nat (length l)) /\
  ttl_total s = u64 (list_sum l) /\
  (l = [] -> ttl_min s = 0 /\ ttl_max s = 0) /\
  (l <> [] ->
   In (ttl_min s) l /\ In (ttl_max s) l /\
   forall t, In t l -> ttl_min s <= t <= ttl_max s).
Proof.
  intros Hz. induction l as [|t l IH] using rev_ind; intros Hpos s.
  - subst s. simpl. rewrite Hz. simpl. repeat split; congruence.
  - subst s. rewrite fold_left_app. cbn [fold_left].
    assert (Hpos' : forall a, In a l -> 0 < a)
      by (intros a Ha; apply Hpos, in_or_app; now left).
    assert (Ht : 0 < t) by (apply Hpos, in_or_app; right; now left).
    destruct (IH Hpos') as (Hc & Hs & Hnil & Hcons).
    set (c1 := fold_left cycle_stats_add_ttl l c) in *.
    unfold cycle_stats_add_ttl. cbn [ttl c_cycle set_ttl set_cycle
      ttl_count ttl_total ttl_min ttl_max].
    rewrite Hc, Hs, !u64_add_l, length_app, list_sum_app.
    split; [f_equal; simpl; lia|]. split; [reflexivity|].
    split; [intros E; now apply app_eq_nil in E as [_ E]|]. intros _.
    destruct l as [|a l'].
    + destruct (Hnil eq_refl) as [-> ->]. simpl.
      split; [now left|]. split; [now left|]. intros x [<-|[]]. lia.
    + destruct (Hcons ltac:(discriminate)) as (Hmin & Hmax & Hall).
      pose proof (Hall _ Hmax) as Hmm.
      assert (Hmin0 : 0 < ttl_min (ttl (c_cycle c1))) by now apply Hpos'.
      destruct (Z.eqb_spec (ttl_max (ttl (c_cycle c1))) 0) as [E|_]; [lia|].
      destruct (Z.eqb_spec (ttl_min (ttl (c_cycle c1))) 0) as [E|_]; [lia|].
      cbn [orb].
      destruct (Z.gtb_spec t (ttl_max (ttl (c_cycle c1))));
        destruct (Z.ltb_spec t (ttl_min (ttl (c_cycle c1))));
        (split; [|split]);
        try (apply in_or_app; (left; assumption) || (right; now left));
        intros x Hx; apply in_app_or in Hx as [Hx|[<-|[]]];
        try specialize (Hall x Hx); lia.
Qed.

(** X19.  [cycle_stats_add_ttl], called for the times to live of a list
    (all above zero) on statistics that are zero, leaves their number,
    their sum, the least and the greatest of them (number and sum as
    64-bit counts). *)
Theorem ttl_stats_summarise c l :
  ttl (c_cycle c) =
    {| ttl_count := 0; ttl_total := 0; ttl_min := 0; ttl_max := 0 |} ->
  l <> [] ->
  (forall t, In t l -> 0 < t) ->
  let s := ttl (c_cycle (fold_left cycle_stats_add_ttl l c)) in
  ttl_count s = u64 (Z.of_nat (length l)) /\
  ttl_total s = u64 (list_sum l) /\
  In (ttl_min s) l /\ In (ttl_max s) l /\
  forall t, In t l -> ttl_min s <= t <= ttl_max s.
Proof.
  intros Hz Hne Hpos s.
  destruct (stats_inv c l Hz Hpos) as (Hc & Hs & _ & H).
  destruct (H Hne) as (Hmin & Hmax & Hall).
  repeat split; try assumption; now apply Hall.
Qed.

End Proofs.

(** * The model at work: examples, witnesses and counterexamples *)

(** ** An arithmetic to run the model: exact rationals

    The examples below are run with rational numbers for the doubles; the
    numbers that occur in them are exact in binary64 as well. *)

Definition q_ltb (a b : Q) : bool := negb (Qle_bool b a).
Definition q_lit (m e : Z) : Q := (inject_Z m * Qpower (10 # 1) e)%Q.
Definition q_to_uint (a : Q) : Z := Z.quot (Qnum a) (Z.pos (Qden a)).

Lemma q_ltb_of_Z a b :
  0 <= a < 2 ^ 53 -> 0 <= b < 2 ^ 64 ->
  q_ltb (inject_Z a) (inject_Z b) = (a <? b).
Proof.
  intros _ _. unfold q_ltb, Qle_bool. simpl. rewrite !Z.mul_1_r.
  now rewrite Z.ltb_antisym.
Qed.

Lemma q_to_uint_of_Z a : 0 <= a < 2 ^ 32 -> q_to_uint (inject_Z a) = a.
Proof.
  intros _. unfold q_to_uint. simpl. apply Z.quot_1_r.
Qed.

#[export] Instance QDouble : Double := {|
  double := Q;
  d_of_Z := inject_Z;
  d_lit := q_lit;
  d_add := Qplus;
  d_mul := Qmult;
  d_div := Qdiv;
  d_ltb := q_ltb;
  d_nonzero := fun a => negb (Qeq_bool a 0);
  d_to_uint := q_to_uint;
  d_ltb_of_Z := q_ltb_of_Z;
  d_to_uint_of_Z := q_to_uint_of_Z
|}.

(** A world whose clock stands at [t] seconds, whose allocator never
    fails and whose fresh memory is filled with the byte 0xAA. *)
Definition still_world (t : Z) : world :=
  {| clock := fun _ => {| tv_sec := t; tv_usec := 0 |};
     heap := fun _ => true;
     junk := fun _ => Byte.xaa;
     stdout := [];
     g_cache_motion := 0;
     is_default := false |}.

(** A world like [still_world] whose allocator always fails. *)
Definition failing_world (t : Z) : world :=
  {| clock := fun _ => {| tv_sec := t; tv_usec := 0 |};
     heap := fun _ => false;
     junk := fun _ => Byte.xaa;
     stdout := [];
     g_cache_motion := 0;
     is_default := false |}.

(** A world whose clock jumps: the first two readings give second 0, the
    next three second 200000, all later ones second 400000. *)
Definition jump_world : world :=
  {| clock := fun i =>
       {| tv_sec := if (i <? 2)%nat then 0
                    else if (i <? 5)%nat then 200000 else 400000;
          tv_usec := 0 |};
     heap := fun _ => true;
     junk := fun _ => Byte.xaa;
     stdout := [];
     g_cache_motion := 0;
     is_default := false |}.

(** The cache and the world that a run leaves (a zeroed record and the
    given world when it does not return). *)
Definition new_cache (r : res (option cache * world)) : cache :=
  match r with Ret (Some c, _) => c | _ => zero_cache end.

Definition new_world (r : res (option cache * world)) (w0 : world) : world :=
  match r with Ret (_, w) => w | _ => w0 end.

Definition ret_cache (r : res (cache * world)) : cache :=
  match r with Ret (c, _) => c | _ => zero_cache end.

Definition ret_world (r : res (cache * world)) (w0 : world) : world :=
  match r with Ret (_, w) => w | _ => w0 end.

Definition demo_key : list byte := [Byte.x6b].
Definition demo_v1 : list byte := [Byte.x76; Byte.x31].
Definition demo_v2 : list byte := [Byte.x76; Byte.x32].

(** A cache of 200 bytes created at second 1000. *)
Definition demo_new : res (option cache * world) :=
  cache_t_new 200 None (still_world 1000).
Definition demo_cache : cache := new_cache demo_new.
Definition demo_world : world := new_world demo_new (still_world 1000).

Lemma demo_new_eq :
  cache_t_new 200 None (still_world 1000) = Ret (Some demo_cache, demo_world).
Proof. vm_compute. reflexivity. Qed.

Lemma demo_Inv : Inv demo_cache.
Proof.
  destruct (new_Ret _ _ _ _ _ demo_new_eq) as (w & P).
  destruct (ip_wf _ _ _ _ _ _ P) as (m & W).
  now exists m, [], [], (fun _ => 0).
Qed.

Lemma demo_at_time : at_time demo_world 1000.
Proof. intros i. vm_compute. reflexivity. Qed.

Lemma demo_heap_ok : heap_ok demo_world.
Proof. intros i. vm_compute. reflexivity. Qed.

(** [demo_cache] after a [cache_t_set] of [demo_key] with 60 seconds, and
    after one with 0 seconds. *)
Definition demo_set1 : res (cache * world) :=
  cache_t_set 200 demo_cache demo_key demo_v1 60 demo_world.
Definition demo_cache1 : cache := ret_cache demo_set1.
Definition demo_world1 : world := ret_world demo_set1 demo_world.

Definition demo_set0 : res (cache * world) :=
  cache_t_set 200 demo_cache demo_key demo_v1 0 demo_world.
Definition demo_cache0 : cache := ret_cache demo_set0.
Definition demo_world0 : world := ret_world demo_set0 demo_world.

Lemma demo_set1_eq :
  cache_t_set 200 demo_cache demo_key demo_v1 60 demo_world
  = Ret (demo_cache1, demo_world1).
Proof. vm_compute. reflexivity. Qed.

(** Witness of C1 on [demo_cache]. *)
Lemma set_then_get_witness :
  exists c' w',
    cache_t_set 200 demo_cache demo_key demo_v1 60 demo_world = Ret (c', w') /\
    (allow_resize (c_options demo_cache) = false ->
       c_size c' = c_size demo_cache /\ c_hsize c' = c_hsize demo_cache) /\
    (20 + Z.of_nat (length demo_key) + Z.of_nat (length demo_v1)
       <= c_size c' - c_hsize c' ->
     forall stamp w2 d,
       0 <= d <= 60 -> tv_sec (clock w2 O) = 1000 + d ->
       exists h w3,
         cache_t_get c' demo_key stamp w2 = Ret (Some h, w3) /\
         hit_data c' h = Some demo_v1 /\
         datalen h = Z.of_nat (length demo_v1) /\
         ttl_left h = 60 - d).
Proof.
  apply (set_then_get demo_cache demo_key demo_v1 60 demo_world 1000 200).
  - exact demo_Inv.
  - vm_compute. discriminate.
  - vm_compute. discriminate.
  - vm_compute. split; discriminate.
  - exact demo_at_time.
  - vm_compute. split; [discriminate|reflexivity].
  - exact demo_heap_ok.
  - vm_compute. apply le_n.
Defined.

(** The round trip on [demo_cache], run: one second after the set the
    entry is returned with 59 seconds left. *)
Example set_then_get_run :
  cache_t_get demo_cache1 demo_key None (still_world 1001)
  = Ret (Some {| data_ptr := 29; datalen := 2; ttl_left := 59 |},
         snd (tick (still_world 1001))) /\
  hit_data demo_cache1 {| data_ptr := 29; datalen := 2; ttl_left := 59 |}
  = Some demo_v1.
Proof. split; vm_compute; reflexivity. Qed.

(** A cache of 200 bytes that has seen two slow cycles: it is created at
    second 0 and gets two entries of 121 bytes, the second at second
    200000; the next reading of the clock is second 400000. *)
Definition jump_new : res (option cache * world) :=
  cache_t_new 200 None jump_world.
Definition jump_run : res (cache * world) :=
  run 200 [OpSet [Byte.x01] (repeat Byte.x11 100) 60;
           OpSet [Byte.x02] (repeat Byte.x22 100) 60]
    (new_cache jump_new) (new_world jump_new jump_world).
Definition jump_cache : cache := ret_cache jump_run.
Definition jump_w : world := ret_world jump_run jump_world.

Definition jump_set3 : res (cache * world) :=
  cache_t_set 200 jump_cache [Byte.x03] (repeat Byte.x33 100) 60 jump_w.
Definition jump_cache3 : cache := ret_cache jump_set3.
Definition jump_w3 : world := ret_world jump_set3 jump_w.

(** Counterexample to C1: the third [cache_t_set] meets every condition of
    the claim (its entry of 121 bytes fits [size - hsize = 192]), but it
    comes at a cycle boundary after two slow cycles: the sizer shrinks the
    arena to 100 bytes, the entry fits no more and is dropped, and the
    [cache_t_get] that follows in the same second misses. *)
Lemma set_then_get_counterexample :
  jump_new = Ret (Some (new_cache jump_new), new_world jump_new jump_world) /\
  jump_run = Ret (jump_cache, jump_w) /\
  (forall i, tv_sec (clock jump_w i) = 400000) /\
  Z.of_nat (length [Byte.x03]) <= 1000 /\
  Z.of_nat (length (repeat Byte.x33 100)) <= 1000000 /\
  20 + Z.of_nat (length [Byte.x03]) + Z.of_nat (length (repeat Byte.x33 100))
    <= c_size jump_cache - c_hsize jump_cache /\
  jump_set3 = Ret (jump_cache3, jump_w3) /\
  (c_size jump_cache, c_hsize jump_cache) = (200, 8) /\
  (c_size jump_cache3, c_hsize jump_cache3) = (100, 4) /\
  cache_t_get jump_cache3 [Byte.x03] None jump_w3 = Ret (None, jump_w3).
Proof.
  split; [vm_compute; reflexivity|].
  split; [vm_compute; reflexivity|].
  split; [intros i; vm_compute; reflexivity|].
  split; [vm_compute; discriminate|].
  split; [vm_compute; discriminate|].
  split; [vm_compute; discriminate|].
  split; [vm_compute; reflexivity|].
  split; [vm_compute; reflexivity|].
  split; [vm_compute; reflexivity|].
  vm_compute. reflexivity.
Qed.

(** Witness of C2: a creation, three calls and the cursors after them. *)
Lemma cursor_invariant_witness :
  match run 200 [OpSet demo_key demo_v1 60; OpGet demo_key None;
                 OpSet demo_key demo_v2 60] demo_cache demo_world with
  | Ret (c, _) => cursors_ok c
  | Timeout => True
  | Exit111 | Fault => False
  end.
Proof.
  apply (cursor_invariant 200 None (still_world 1000) demo_cache demo_world).
  exact demo_new_eq.
Defined.

(** The cursors that the run of that witness leaves. *)
Definition demo_run3 : res (cache * world) :=
  run 200 [OpSet demo_key demo_v1 60; OpGet demo_key None;
           OpSet demo_key demo_v2 60] demo_cache demo_world.

Example cursor_invariant_run :
  demo_run3 = Ret (ret_cache demo_run3, ret_world demo_run3 demo_world) /\
  (c_hsize (ret_cache demo_run3), c_writer (ret_cache demo_run3),
   c_oldest (ret_cache demo_run3), c_unused (ret_cache demo_run3),
   c_size (ret_cache demo_run3))
  = (8, 54, 200, 200, 200).
Proof. split; vm_compute; reflexivity. Qed.

(** Witness of C3 on [demo_cache]. *)
Lemma newest_wins_witness :
  exists c2 w2,
    cache_t_set 200 demo_cache1 demo_key demo_v2 60 demo_world1
    = Ret (c2, w2) /\
    (20 + Z.of_nat (length demo_key) + Z.of_nat (length demo_v2)
       <= c_size c2 - c_hsize c2 ->
     forall stamp w3 d,
       0 <= d <= 60 -> tv_sec (clock w3 O) = 1000 + d ->
       exists h w4,
         cache_t_get c2 demo_key stamp w3 = Ret (Some h, w4) /\
         hit_data c2 h = Some demo_v2) /\
    (allow_resize (c_options demo_cache1) = false \/
     c_writer demo_cache1 + 20 + Z.of_nat (length demo_key)
       + Z.of_nat (length demo_v2) <= c_oldest demo_cache1 ->
     c_size c2 = c_size demo_cache1 /\ c_hsize c2 = c_hsize demo_cache1) /\
    (forall stamp w3 h w4,
       cache_t_get c2 demo_key stamp w3 = Ret (Some h, w4) ->
       hit_data c2 h = Some demo_v2).
Proof.
  apply (newest_wins demo_cache demo_key demo_v1 demo_v2 60 60 demo_world 1000
           200 200 demo_cache1 demo_world1).
  - exact demo_Inv.
  - exact demo_set1_eq.
  - vm_compute. discriminate.
  - vm_compute. discriminate.
  - vm_compute. split; discriminate.
  - exact demo_at_time.
  - vm_compute. split; [discriminate|reflexivity].
  - exact demo_heap_ok.
  - vm_compute. apply le_n.
Defined.

(** The second copy is the one a lookup returns. *)
Definition demo_set2 : res (cache * world) :=
  cache_t_set 200 demo_cache1 demo_key demo_v2 60 demo_world1.

Example newest_wins_run :
  demo_set2 = Ret (ret_cache demo_set2, ret_world demo_set2 demo_world) /\
  cache_t_get (ret_cache demo_set2) demo_key None (still_world 1000)
  = Ret (Some {| data_ptr := 52; datalen := 2; ttl_left := 60 |},
         snd (tick (still_world 1000))) /\
  hit_data (ret_cache demo_set2)
    {| data_ptr := 52; datalen := 2; ttl_left := 60 |} = Some demo_v2.
Proof.
  split; [vm_compute; reflexivity|]. split; vm_compute; reflexivity.
Qed.

(** The cache of 200 bytes on the clock that jumps, with one key set
    twice: an entry of 121 bytes at second 0, then the key [0x02] with 100
    bytes of data at second 200000, then the same key with other data at
    second 400000. *)
Definition twice_run : res (cache * world) :=
  run 200 [OpSet [Byte.x01] (repeat Byte.x11 100) 60]
    (new_cache jump_new) (new_world jump_new jump_world).
Definition twice_set1 : res (cache * world) :=
  cache_t_set 200 (ret_cache twice_run) [Byte.x02] (repeat Byte.x22 100)
    604800 (ret_world twice_run jump_world).
Definition twice_cache1 : cache := ret_cache twice_set1.
Definition twice_w1 : world := ret_world twice_set1 jump_world.
Definition twice_set2 : res (cache * world) :=
  cache_t_set 200 twice_cache1 [Byte.x02] (repeat Byte.x33 100) 604800
    twice_w1.
Definition twice_cache2 : cache := ret_cache twice_set2.
Definition twice_w2 : world := ret_world twice_set2 twice_w1.

(** Counterexample to C3: the key [0x02] is set twice with different
    data, each entry of 121 bytes fits [size - hsize = 192] and lives for
    a week.  After the first call the lookup returns the first data.
    The second call comes at a cycle boundary after two slow cycles: the
    sizer shrinks the arena to 100 bytes, the second entry fits no more
    and is dropped, and the lookup that follows in the same second
    misses instead of returning the second data. *)
Lemma newest_wins_counterexample :
  twice_run = Ret (ret_cache twice_run, ret_world twice_run jump_world) /\
  twice_set1 = Ret (twice_cache1, twice_w1) /\
  (forall i, tv_sec (clock twice_w1 i) = 400000) /\
  (exists h w,
     cache_t_get twice_cache1 [Byte.x02] None twice_w1 = Ret (Some h, w) /\
     hit_data twice_cache1 h = Some (repeat Byte.x22 100)) /\
  Z.of_nat (length [Byte.x02]) <= 1000 /\
  Z.of_nat (length (repeat Byte.x33 100)) <= 1000000 /\
  20 + Z.of_nat (length [Byte.x02]) + Z.of_nat (length (repeat Byte.x33 100))
    <= c_size twice_cache1 - c_hsize twice_cache1 /\
  twice_set2 = Ret (twice_cache2, twice_w2) /\
  (c_size twice_cache1, c_hsize twice_cache1) = (200, 8) /\
  (c_size twice_cache2, c_hsize twice_cache2) = (100, 4) /\
  cache_t_get twice_cache2 [Byte.x02] None twice_w2 = Ret (None, twice_w2).
Proof.
  split; [vm_compute; reflexivity|].
  split; [vm_compute; reflexivity|].
  split; [intros i; vm_compute; reflexivity|].
  split.
  { exists {| data_ptr := 29; datalen := 100; ttl_left := 404800 |}.
    eexists. split; vm_compute; reflexivity. }
  split; [vm_compute; discriminate|].
  split; [vm_compute; discriminate|].
  split; [vm_compute; discriminate|].
  split; [vm_compute; reflexivity|].
  split; [vm_compute; reflexivity|].
  split; [vm_compute; reflexivity|].
  vm_compute. reflexivity.
Qed.

(** Witness of C4 on [demo_cache]. *)
Lemma ttl_zero_misses_witness :
  exists c' w',
    cache_t_set 200 demo_cache demo_key demo_v1 0 demo_world = Ret (c', w') /\
    (forall stamp w2,
       1000 < tv_sec (clock w2 O) < 2 ^ 62 ->
       exists w3, cache_t_get c' demo_key stamp w2 = Ret (None, w3)) /\
    (allow_resize (c_options demo_cache) = false \/
     c_writer demo_cache + 20 + Z.of_nat (length demo_key)
       + Z.of_nat (length demo_v1) <= c_oldest demo_cache ->
     c_size c' = c_size demo_cache /\ c_hsize c' = c_hsize demo_cache) /\
    (20 + Z.of_nat (length demo_key) + Z.of_nat (length demo_v1)
       <= c_size c' - c_hsize c' ->
     forall stamp w2,
       tv_sec (clock w2 O) = 1000 ->
       exists h w3,
         cache_t_get c' demo_key stamp w2 = Ret (Some h, w3) /\
         hit_data c' h = Some demo_v1 /\
         datalen h = Z.of_nat (length demo_v1) /\
         ttl_left h = 0) /\
    (c_size c' - c_hsize c'
       < 20 + Z.of_nat (length demo_key) + Z.of_nat (length demo_v1) ->
     forall stamp w2, cache_t_get c' demo_key stamp w2 = Ret (None, w2)).
Proof.
  apply (ttl_zero_misses demo_cache demo_key demo_v1 demo_world 1000 200).
  - exact demo_Inv.
  - vm_compute. discriminate.
  - vm_compute. discriminate.
  - exact demo_at_time.
  - vm_compute. split; [discriminate|reflexivity].
  - exact demo_heap_ok.
  - vm_compute. apply le_n.
Defined.

(** Counterexample to C4: an entry set with a time to live of 0 at second
    1000 is returned by a [cache_t_get] at second 1000, with 0 seconds
    left: the entry expires only when [expire < now]. *)
Lemma ttl_zero_counterexample :
  demo_set0 = Ret (demo_cache0, demo_world0) /\
  tv_sec (clock demo_world0 O) = 1000 /\
  cache_t_get demo_cache0 demo_key None demo_world0
  = Ret (Some {| data_ptr := 29; datalen := 2; ttl_left := 0 |},
         snd (tick demo_world0)) /\
  hit_data demo_cache0 {| data_ptr := 29; datalen := 2; ttl_left := 0 |}
  = Some demo_v1.
Proof.
  split; [vm_compute; reflexivity|]. split; [vm_compute; reflexivity|].
  split; vm_compute; reflexivity.
Qed.

(** An entry of 201 bytes with a time to live of 0 does not fit the
    arena of 200 bytes: nothing is stored, and the lookup in the same
    second misses. *)
Example ttl_zero_too_large_run :
  match cache_t_set 200 demo_cache demo_key (repeat Byte.x00 180) 0
          demo_world with
  | Ret (c, w) =>
      Some (c_size c - c_hsize c, cache_t_get c demo_key None w)
  | _ => None
  end = Some (192, Ret (None, demo_world)).
Proof. vm_compute. reflexivity. Qed.

(** Keys of two bytes that all fall into the bucket 0 of a table of 128
    bytes: the second byte cancels the low six bits of the hash. *)
Definition flood_key (a : Z) : list byte :=
  let h1 := hash_loop 5381 [byte.of_Z a] in
  [byte.of_Z a; byte.of_Z (Z.land (u32 (u32 (Z.shiftl h1 5) + h1)) 63)].

Definition flood_ops (n : nat) : list op :=
  map (fun a => OpSet (flood_key (Z.of_nat a)) [] 60) (seq 0 n).

(** A cache of 2400 bytes with [n] entries in one chain. *)
Definition flood_new : res (option cache * world) :=
  cache_t_new 2400 None (still_world 1000).
Definition flood_run (n : nat) : res (cache * world) :=
  run 200 (flood_ops n) (new_cache flood_new)
    (new_world flood_new (still_world 1000)).

(** What the lookup of the first key of the chain returns, and how many
    entries it compared. *)
Definition flood_get (n : nat) : option (option hit * nat) :=
  match cache_t_get_seen (ret_cache (flood_run n)) (flood_key 0) None
          (still_world 1000) with
  | Ret (h, seen, _) => Some (h, seen)
  | _ => None
  end.

(** Counterexample to C5: after 101 entries have gone into one chain, the
    lookup of the first of them compares 101 entries with the key and hits
    at the 101st. *)
Lemma flood_guard_counterexample :
  flood_run 101 = Ret (ret_cache (flood_run 101),
                       ret_world (flood_run 101) (still_world 1000)) /\
  c_writer (ret_cache (flood_run 101)) = c_hsize (ret_cache (flood_run 101))
                                         + 101 * 22 /\
  flood_get 101
  = Some (Some {| data_ptr := 150; datalen := 0; ttl_left := 60 |}, 101%nat).
Proof.
  split; [vm_compute; reflexivity|]. split; vm_compute; reflexivity.
Qed.

(** With one entry more in the chain the same lookup gives up after 101
    comparisons. *)
Example flood_guard_miss : flood_get 102 = Some (None, 101%nat).
Proof. vm_compute. reflexivity. Qed.

(** The entries of the cache of [flood_run n], oldest first, and its
    arena. *)
Definition flood_entries (n : nat) : list Z :=
  map (fun i => 128 + 22 * Z.of_nat i) (seq 0 n).

Definition flood_arena (n : nat) : arena :=
  match c_x (ret_cache (flood_run n)) with Some m => m | None => [] end.

Lemma flood_new_eq :
  flood_new
  = Ret (Some (new_cache flood_new), new_world flood_new (still_world 1000)).
Proof. vm_compute. reflexivity. Qed.

Lemma flood_entries_S n :
  flood_entries (S n) = flood_entries n ++ [128 + 22 * Z.of_nat n].
Proof. unfold flood_entries. now rewrite seq_S, map_app. Qed.

Lemma flood_run_S n :
  flood_run (S n)
  = '(c, w) <- flood_run n ;;
    cache_t_set 200 c (flood_key (Z.of_nat n)) [] 60 w.
Proof.
  unfold flood_run, flood_ops. rewrite seq_S, map_app, run_app.
  destruct (run 200 _ _ _) as [[c w]| | |]; cbn [bind]; [|reflexivity..].
  cbn [map run Nat.add].
  now destruct (cache_t_set 200 c _ [] 60 w) as [[c1 w1]| | |].
Qed.

(** The cache of [flood_run n] holds its [n] entries in the new region,
    22 bytes each. *)
Lemma flood_wf n : (n <= 102)%nat ->
  exists c w m bk,
    flood_run n = Ret (c, w) /\
    wf c m (flood_entries n) [] bk /\
    keyed c m (by_age (flood_entries n) []) bk /\
    c_writer c = 128 + 22 * Z.of_nat n /\ c_oldest c = 2400.
Proof.
  induction n as [|n IH]; intros Hn.
  - destruct (new_Ret _ _ _ _ _ flood_new_eq) as (w & P).
    destruct (ip_wf _ _ _ _ _ _ P) as (m & W).
    exists (new_cache flood_new), (new_world flood_new (still_world 1000)),
      m, (fun _ => 0).
    split; [reflexivity|]. split; [exact W|]. split; [intros p []|].
    split; vm_compute; reflexivity.
  - destruct IH as (c & w & m & bk & Hrun & W & HK & Ewr & Eol); [lia|].
    destruct (set_with_room c m (flood_entries n) [] bk
                (flood_key (Z.of_nat n)) [] 60 200%nat w W)
      as (c' & m' & bk' & E & W' & Ewr' & Eol' & _ & _ & _ & _ & _ & HK');
      [vm_compute; discriminate|vm_compute; discriminate
      |cbn [length flood_key]; lia|lia|].
    rewrite Ewr in W', HK'. rewrite <- flood_entries_S in W', HK'.
    eexists c', _, m', bk'.
    split; [rewrite flood_run_S, Hrun; cbn [bind]; exact E|].
    split; [exact W'|]. split; [exact (HK' HK)|].
    cbn [length flood_key] in Ewr'. split; lia.
Qed.

Lemma filter_all {A} (f : A -> bool) l :
  forallb f l = true -> filter f l = l.
Proof.
  induction l as [|a l IH]; [reflexivity|]. cbn [forallb filter].
  intros H. apply andb_prop in H as [-> H]. now rewrite IH.
Qed.

(** In the cache of [flood_run n] the chain of [flood_key 0] holds every
    entry, newest first. *)
Lemma flood_chain n c m bk :
  wf c m (flood_entries n) [] bk ->
  keyed c m (by_age (flood_entries n) []) bk ->
  forallb (fun p => hash c (key_at m p) =? hash c (flood_key 0))
    (rev (flood_entries n)) = true ->
  in_bucket bk (hash c (flood_key 0)) (by_age (flood_entries n) [])
  = rev (flood_entries n).
Proof.
  intros W HK Hall. unfold in_bucket, by_age in *. cbn [rev] in *.
  rewrite app_nil_r in *. apply filter_all.
  apply forallb_forall. intros p Hp. rewrite (HK p Hp).
  exact (proj1 (forallb_forall _ _) Hall p Hp).
Qed.

(** What the witness of C5 needs of the arena of [flood_run n]: every
    entry is in the bucket of [flood_key 0], and none of the [k] newest
    holds that key. *)
Definition flood_checks (n k : nat) : bool :=
  let c := ret_cache (flood_run n) in
  let m := flood_arena n in
  forallb (fun p => hash c (key_at m p) =? hash c (flood_key 0))
    (rev (flood_entries n))
  && forallb (fun p => negb (has_key m (flood_key 0) p))
       (firstn k (rev (flood_entries n))).

Lemma flood_facts n k c w m bk :
  flood_checks n k = true ->
  flood_run n = Ret (c, w) ->
  wf c m (flood_entries n) [] bk ->
  keyed c m (by_age (flood_entries n) []) bk ->
  ret_cache (flood_run n) = c /\ flood_arena n = m /\
  in_bucket bk (hash c (flood_key 0)) (by_age (flood_entries n) [])
  = rev (flood_entries n) /\
  (forall p, In p (firstn k (rev (flood_entries n))) ->
     key_at m p <> flood_key 0).
Proof.
  intros Hc Hrun W HK.
  assert (Ec : ret_cache (flood_run n) = c) by (now rewrite Hrun).
  assert (Em : flood_arena n = m).
  { unfold flood_arena. now rewrite Ec, (wf_x _ _ _ _ _ W). }
  unfold flood_checks in Hc. cbv zeta in Hc. rewrite Ec, Em in Hc.
  apply andb_prop in Hc as [Hall Hnone].
  split; [exact Ec|]. split; [exact Em|].
  split; [exact (flood_chain n c m bk W HK Hall)|].
  intros p Hp. apply has_key_false.
  apply (proj1 (forallb_forall _ _) Hnone) in Hp.
  now destruct (has_key m (flood_key 0) p).
Qed.

(** Witness of C5.  With 102 entries in the chain none of the first 101
    holds the first key: the lookup gives up after 101 comparisons.  With
    101 entries the first key is the 101st of the chain: the lookup
    compares 101 entries and returns it. *)
Lemma get_compares_at_most_101_witness :
  cache_t_get_seen (ret_cache (flood_run 102)) (flood_key 0) None
    (still_world 1000)
  = Ret (None, 101%nat, still_world 1000) /\
  cache_t_get_seen (ret_cache (flood_run 101)) (flood_key 0) None
    (still_world 1000)
  = Ret (answer (flood_arena 101) 2 128 (fst (tai_now (still_world 1000))),
         101%nat, snd (tai_now (still_world 1000))).
Proof.
  split.
  - destruct (flood_wf 102 (le_n _)) as (c & w & m & bk & Hrun & W & HK & _).
    destruct (flood_facts 102 101 c w m bk) as (Ec & Em & Hchain & Hnone);
      [vm_compute; reflexivity|exact Hrun|exact W|exact HK|].
    destruct (get_compares_at_most_101 c (flood_key 0) None
                (still_world 1000)) as [_ H].
    destruct (H m (flood_entries 102) [] bk W) as [Hmiss _];
      [vm_compute; discriminate|].
    rewrite Hchain in Hmiss. rewrite Ec, (Hmiss Hnone). reflexivity.
  - destruct (flood_wf 101) as (c & w & m & bk & Hrun & W & HK & _);
      [repeat constructor|].
    destruct (flood_facts 101 100 c w m bk) as (Ec & Em & Hchain & Hnone);
      [vm_compute; reflexivity|exact Hrun|exact W|exact HK|].
    assert (Hkey : key_at m 128 = flood_key 0)
      by (rewrite <- Em; vm_compute; reflexivity).
    destruct (get_compares_at_most_101 c (flood_key 0) None
                (still_world 1000)) as [_ H].
    destruct (H m (flood_entries 101) [] bk W) as [_ Hhit];
      [vm_compute; discriminate|].
    rewrite Hchain in Hhit. rewrite Ec, Em.
    rewrite (Hhit (firstn 100 (rev (flood_entries 101))) 128 []);
      [reflexivity|vm_compute; reflexivity|exact Hnone|exact Hkey].
Defined.

(** What the specification says of [hsize]: the largest power of two not
    above [size/32], and at least 4. *)
Definition hsize_spec (size : Z) : Z := Z.max 4 (2 ^ Z.log2 (size / 32)).

(** The result of [init] on a zeroed record, for 4096 bytes. *)
Definition init_4096 : res (Z * cache * world) :=
  init zero_cache 4096 None (still_world 0).

Definition init_4096_cache : cache :=
  match init_4096 with Ret (_, c, _) => c | _ => zero_cache end.

Definition init_4096_world : world :=
  match init_4096 with Ret (_, _, w) => w | _ => still_world 0 end.

(** Witness of C6. *)
Lemma init_size_and_hsize_witness :
  c_size init_4096_cache = clamp_size 4096 /\
  is_pow2 (c_hsize init_4096_cache) /\
  c_size init_4096_cache / 32 < c_hsize init_4096_cache /\
  (c_hsize init_4096_cache = 4 \/
   c_hsize init_4096_cache / 2 <= c_size init_4096_cache / 32).
Proof.
  apply (init_size_and_hsize zero_cache 4096 None (still_world 0)
           init_4096_cache init_4096_world).
  vm_compute. reflexivity.
Defined.

(** Counterexample to C6: for 4096 bytes [init] takes 256 bytes for the
    table, while the largest power of two not above [4096/32] is 128. *)
Lemma init_hsize_counterexample :
  init zero_cache 4096 None (still_world 0)
  = Ret (1, init_4096_cache, init_4096_world) /\
  c_size init_4096_cache = 4096 /\
  c_hsize init_4096_cache = 256 /\
  hsize_spec (c_size init_4096_cache) = 128.
Proof.
  split; [vm_compute; reflexivity|]. split; [vm_compute; reflexivity|].
  split; vm_compute; reflexivity.
Qed.

(** Witness of C7: a request of 50 bytes. *)
Lemma init_small_request_overruns_witness :
  init zero_cache 50 None (still_world 0) = Fault.
Proof.
  apply (init_small_request_overruns zero_cache 50 None (still_world 0)).
  - reflexivity.
  - reflexivity.
Defined.

(** The same request through [cache_t_new]. *)
Example new_small_request_overruns :
  cache_t_new 50 None (still_world 0) = Fault.
Proof. vm_compute. reflexivity. Qed.

(** [demo_cache1] initialised again, and the cache of two slow cycles
    after [check_for_resize]. *)
Definition demo_reinit : res (Z * cache * world) :=
  cache_t_init demo_cache1 200 None demo_world1.

Definition demo_reinit_cache : cache :=
  match demo_reinit with Ret (_, c, _) => c | _ => zero_cache end.

Definition jump_resize : res (bool * cache * world) :=
  check_for_resize jump_cache jump_w.

Definition jump_resize_cache : cache :=
  match jump_resize with Ret (_, c, _) => c | _ => zero_cache end.

(** C8.  [init] leaves the statistics of the cycle as they are.  After one
    [cache_t_set] with a time to live of 60, a second [cache_t_init]
    empties the arena, but the statistics still count one entry; and
    after the resize that [check_for_resize] does on the cache of two slow
    cycles they still count the two entries of the cycle before. *)
Theorem reinit_keeps_ttl_stats :
  (exists w, demo_reinit = Ret (1, demo_reinit_cache, w)) /\
  (c_writer demo_reinit_cache, c_oldest demo_reinit_cache,
   c_unused demo_reinit_cache) = (c_hsize demo_reinit_cache, 200, 200) /\
  ttl (c_cycle demo_cache1) =
    {| ttl_count := 1; ttl_total := 60; ttl_min := 60; ttl_max := 60 |} /\
  ttl (c_cycle demo_reinit_cache) =
    {| ttl_count := 1; ttl_total := 60; ttl_min := 60; ttl_max := 60 |} /\
  (exists w, jump_resize = Ret (true, jump_resize_cache, w)) /\
  (c_size jump_cache, c_size jump_resize_cache) = (200, 100) /\
  ttl (c_cycle jump_resize_cache) =
    {| ttl_count := 2; ttl_total := 120; ttl_min := 60; ttl_max := 60 |}.
Proof.
  split; [eexists; vm_compute; reflexivity|].
  split; [vm_compute; reflexivity|]. split; [vm_compute; reflexivity|].
  split; [vm_compute; reflexivity|].
  split; [eexists; vm_compute; reflexivity|].
  split; vm_compute; reflexivity.
Qed.

Lemma walk_ignores_stamp c m key keylen s1 s2 :
  forall fuel prev pos loop seen w,
    walk fuel c m key keylen prev pos loop seen s1 w
    = walk fuel c m key keylen prev pos loop seen s2 w.
Proof.
  induction fuel as [|fuel IH]; intros prev pos loop seen w; [reflexivity|].
  rewrite !walk_S. destruct (pos =? 0); [reflexivity|].
  change (probe c m key keylen pos s1 w) with (probe c m key keylen pos s2 w).
  destruct (probe c m key keylen pos s2 w) as [[[h w1]|]| | |]; cbn [bind];
    [reflexivity| |reflexivity|reflexivity|reflexivity].
  destruct (get4 c pos); cbn [bind];
    [|reflexivity|reflexivity|reflexivity].
  destruct (_ >? 100); [reflexivity|]. apply IH.
Qed.

Lemma get_ignores_stamp c key s1 s2 w :
  cache_t_get c key s1 w = cache_t_get c key s2 w.
Proof.
  unfold cache_t_get, cache_t_get_seen.
  destruct (c_x c) as [m|]; [|reflexivity].
  destruct (_ >? MAXKEYLEN); [reflexivity|].
  destruct (get4 c (hash c key)) as [pos| | |]; cbn [bind];
    [|reflexivity|reflexivity|reflexivity].
  now rewrite (walk_ignores_stamp c m key _ s1 s2).
Qed.

(** C9.  [cache_t_get] never reads its [stamp].  An entry set at second
    1000 with 60 seconds to live is returned with 60 seconds left when the
    stamp says second 5000 and the clock second 1000, and it is missed
    when the stamp says second 1000 and the clock second 5000. *)
Theorem stamp_is_ignored :
  demo_set1 = Ret (demo_cache1, demo_world1) /\
  cache_t_get demo_cache1 demo_key (Some (tai_of_unix 5000)) (still_world 1000)
  = Ret (Some {| data_ptr := 29; datalen := 2; ttl_left := 60 |},
         snd (tick (still_world 1000))) /\
  cache_t_get demo_cache1 demo_key (Some (tai_of_unix 1000)) (still_world 5000)
  = Ret (None, snd (tick (still_world 5000))).
Proof.
  split; [vm_compute; reflexivity|]. split; vm_compute; reflexivity.
Qed.

(** Witness of C10: a cache with one entry, and an allocator that fails. *)
Lemma init_alloc_failure_witness :
  init demo_cache1 4096 None (failing_world 2000)
  = Ret (0, demo_cache1, snd (alloc 4096 (failing_world 2000))) /\
  cache_t_init demo_cache1 4096 None (failing_world 2000)
  = Ret (0, demo_cache1, snd (alloc 4096 (failing_world 2000))) /\
  (forall w0, heap w0 O = true -> snd (alloc 0 w0) = failing_world 2000 ->
     cache_t_new 4096 None w0
     = Ret (None, snd (alloc 4096 (failing_world 2000)))) /\
  (forall r c' w',
     check_for_resize demo_cache1 (failing_world 2000) = Ret (r, c', w') ->
     same_arena demo_cache1 c' /\ (Inv demo_cache1 -> Inv c')).
Proof.
  apply (init_alloc_failure demo_cache1 4096 None (failing_world 2000)).
  reflexivity.
Defined.

(** ** More of the model at work *)

(** The arenas of [demo_cache] and of [demo_cache1], which holds one
    entry at offset 8. *)
Definition demo_arena : arena :=
  match c_x demo_cache with Some m => m | None => [] end.

Definition demo_arena1 : arena :=
  match c_x demo_cache1 with Some m => m | None => [] end.

Lemma demo_wf : wf demo_cache demo_arena [] [] (fun _ => 0).
Proof.
  destruct (new_Ret _ _ _ _ _ demo_new_eq) as (w & P).
  destruct (ip_wf _ _ _ _ _ _ P) as (m & W).
  assert (m = demo_arena) as <-; [|exact W].
  pose proof (wf_x _ _ _ _ _ W) as Hx. unfold demo_arena. now rewrite Hx.
Qed.

Lemma demo_wf1 :
  exists bk,
    wf demo_cache1 demo_arena1 [8] [] bk /\
    keyed demo_cache1 demo_arena1 (by_age [8] []) bk.
Proof.
  destruct (set_with_room demo_cache demo_arena [] [] _ demo_key demo_v1 60
              200%nat demo_world demo_wf)
    as (c' & m' & bk' & E & W & _ & _ & _ & _ & _ & _ & _ & HK);
    [vm_compute; discriminate|vm_compute; discriminate
    |vm_compute; discriminate|lia|].
  rewrite demo_set1_eq in E.
  assert (Ec : c' = demo_cache1) by congruence. subst c'.
  replace (c_writer demo_cache) with 8 in W, HK by (vm_compute; reflexivity).
  exists bk'.
  assert (m' = demo_arena1) as <-.
  { pose proof (wf_x _ _ _ _ _ W) as Hx. unfold demo_arena1. now rewrite Hx. }
  split; [exact W|]. apply HK. intros p [].
Qed.

Lemma demo_Inv1 : Inv demo_cache1.
Proof.
  destruct demo_wf1 as (bk & W & _). now exists demo_arena1, [8], [], bk.
Qed.

Definition other_key : list byte := [Byte.x7a].

(** Witness of X1. *)
Lemma hash_in_table_witness :
  0 <= hash demo_cache demo_key /\
  hash demo_cache demo_key + 4 <= c_hsize demo_cache /\
  hash demo_cache demo_key mod 4 = 0.
Proof.
  apply (hash_in_table demo_cache demo_key).
  - exists 3. split; [lia|vm_compute; reflexivity].
  - vm_compute. reflexivity.
Defined.

(** Witness of X2: the word 0x12345678 written at offset 8. *)
Lemma set4_then_get4_witness :
  exists c',
    set4 demo_cache 8 305419896 = Ret c' /\
    get4 c' 8 = Ret 305419896 /\
    (forall q, 0 <= q <= c_size demo_cache - 4 -> q + 4 <= 8 \/ 8 + 4 <= q ->
       get4 c' q = get4 demo_cache q) /\
    (forall q v', c_size demo_cache - 4 < q ->
       get4 c' q = Exit111 /\ set4 c' q v' = Exit111).
Proof.
  apply (set4_then_get4 demo_cache demo_arena 8 305419896).
  - vm_compute. reflexivity.
  - vm_compute. discriminate.
  - vm_compute. split; [discriminate|reflexivity].
  - vm_compute. split; discriminate.
  - vm_compute. split; [discriminate|reflexivity].
Defined.

(** Witness of X3. *)
Lemma new_cache_is_empty_witness :
  (forall key stamp w2, cache_t_get demo_cache key stamp w2 = Ret (None, w2)) /\
  c_size demo_cache = clamp_size 200 /\
  c_cache_motion demo_cache = 0 /\
  ttl (c_cycle demo_cache) =
    {| ttl_count := 0; ttl_total := 0; ttl_min := 0; ttl_max := 0 |} /\
  c_options demo_cache =
    {| allow_resize := true; target_cycle_time := 86400;
       resize_callback := None |}.
Proof.
  exact (new_cache_is_empty 200 None (still_world 1000) demo_cache demo_world
           demo_new_eq).
Defined.

(** Witness of X4: [demo_cache1] holds [demo_key] only. *)
Lemma get_missing_key_witness :
  cache_t_get demo_cache1 other_key None (still_world 1000)
  = Ret (None, still_world 1000).
Proof.
  destruct demo_wf1 as (bk & W & _).
  apply (get_missing_key demo_cache1 demo_arena1 [8] [] bk other_key None
           (still_world 1000) W).
  intros p [<-|[]]. vm_compute. discriminate.
Defined.

(** Witness of X5: after two [cache_t_set] of [demo_key] the hit is the
    second entry. *)
Lemma hit_is_newest_copy_witness :
  newest_copy (ret_cache demo_run3) demo_key
    {| data_ptr := 52; datalen := 2; ttl_left := 60 |}.
Proof.
  apply (hit_is_newest_copy 200 None (still_world 1000) demo_cache demo_world
           200
           [OpSet demo_key demo_v1 60; OpGet demo_key None;
            OpSet demo_key demo_v2 60]
           (ret_cache demo_run3) (ret_world demo_run3 demo_world)
           demo_key None (still_world 1000) _
           (snd (tick (still_world 1000)))).
  - exact demo_new_eq.
  - vm_compute. reflexivity.
  - vm_compute. reflexivity.
Defined.

(** Witness of X6. *)
Lemma hit_is_not_expired_witness :
  let now := tai_of_unix (tv_sec (clock (still_world 1000) O)) in
  exists m Lnew Lold bk p,
    wf demo_cache1 m Lnew Lold bk /\ In p (by_age Lnew Lold) /\
    key_at m p = demo_key /\
    29 = p + 20 + Z.of_nat (length demo_key) /\
    now <= expire_at m p /\
    60 = Z.min (expire_at m p - now) 604800.
Proof.
  apply (hit_is_not_expired demo_cache1 demo_key None (still_world 1000)
           {| data_ptr := 29; datalen := 2; ttl_left := 60 |}
           (snd (tick (still_world 1000)))).
  - exact demo_Inv1.
  - vm_compute. reflexivity.
Defined.

(** Witness of X7: a time to live of 1000000 seconds. *)
Lemma ttl_above_bound_witness :
  cache_t_set 200 demo_cache demo_key demo_v1 1000000 demo_world
  = cache_t_set 200 demo_cache demo_key demo_v1 MAXTTL demo_world /\
  exists c' w',
    cache_t_set 200 demo_cache demo_key demo_v1 1000000 demo_world
    = Ret (c', w') /\
    (20 + Z.of_nat (length demo_key) + Z.of_nat (length demo_v1)
       <= c_size c' - c_hsize c' ->
     forall stamp w2 d,
       0 <= d <= MAXTTL -> tv_sec (clock w2 O) = 1000 + d ->
       exists h w3,
         cache_t_get c' demo_key stamp w2 = Ret (Some h, w3) /\
         hit_data c' h = Some demo_v1 /\
         ttl_left h = MAXTTL - d).
Proof.
  apply (ttl_above_bound demo_cache demo_key demo_v1 1000000 demo_world 1000
           200).
  - exact demo_Inv.
  - vm_compute. discriminate.
  - vm_compute. discriminate.
  - vm_compute. reflexivity.
  - exact demo_at_time.
  - vm_compute. split; [discriminate|reflexivity].
  - exact demo_heap_ok.
  - vm_compute. apply le_n.
Defined.

(** The entry of that witness, looked up in the same second. *)
Example ttl_above_bound_run :
  cache_t_get
    (ret_cache (cache_t_set 200 demo_cache demo_key demo_v1 1000000 demo_world))
    demo_key None (still_world 1000)
  = Ret (Some {| data_ptr := 29; datalen := 2; ttl_left := 604800 |},
         snd (tick (still_world 1000))).
Proof. vm_compute. reflexivity. Qed.

(** Witness of X8. *)
Lemma run_returns_witness :
  exists fuel0, forall fuel, (fuel0 <= fuel)%nat ->
    exists c w,
      run fuel [OpSet demo_key demo_v1 60; OpGet demo_key None;
                OpSet demo_key demo_v2 60] demo_cache demo_world
      = Ret (c, w).
Proof.
  apply (run_returns 200 None (still_world 1000) demo_cache demo_world).
  - exact demo_new_eq.
  - exact demo_heap_ok.
Defined.

(** A cache of 200 bytes that is not resized, with one entry. *)
Definition fixed_options : cache_options :=
  {| allow_resize := false; target_cycle_time := 86400;
     resize_callback := None |}.

Definition fixed_new : res (option cache * world) :=
  cache_t_new 200 (Some fixed_options) (still_world 1000).

Definition fixed_set1 : res (cache * world) :=
  cache_t_set 200 (new_cache fixed_new) demo_key demo_v1 60
    (new_world fixed_new (still_world 1000)).

Definition fixed_cache1 : cache := ret_cache fixed_set1.
Definition fixed_world1 : world := ret_world fixed_set1 (still_world 1000).

Lemma fixed_Inv1 : Inv fixed_cache1.
Proof.
  assert (Hnew : cache_t_new 200 (Some fixed_options) (still_world 1000)
                 = Ret (Some (new_cache fixed_new),
                        new_world fixed_new (still_world 1000)))
    by (vm_compute; reflexivity).
  destruct (new_Ret _ _ _ _ _ Hnew) as (w & P).
  destruct (ip_wf _ _ _ _ _ _ P) as (m & W).
  assert (HI : Inv (new_cache fixed_new))
    by (now exists m, [], [], (fun _ => 0)).
  pose proof (cache_t_set_safe demo_key demo_v1 200 _ 60
                (new_world fixed_new (still_world 1000)) HI) as H.
  assert (E : cache_t_set 200 (new_cache fixed_new) demo_key demo_v1 60
                (new_world fixed_new (still_world 1000))
              = Ret (fixed_cache1, fixed_world1))
    by (vm_compute; reflexivity).
  rewrite E in H. exact (proj1 H).
Qed.

(** Witness of X9: an entry of 201 bytes for an arena of 192. *)
Lemma too_large_entry_empties_witness :
  exists c' w',
    cache_t_set 200 fixed_cache1 demo_key (repeat Byte.x00 180) 60 fixed_world1
    = Ret (c', w') /\
    c_size c' = c_size fixed_cache1 /\ c_hsize c' = c_hsize fixed_cache1 /\
    c_writer c' = c_hsize fixed_cache1 /\ c_oldest c' = c_size fixed_cache1 /\
    c_unused c' = c_size fixed_cache1 /\
    forall k stamp w2, cache_t_get c' k stamp w2 = Ret (None, w2).
Proof.
  apply (too_large_entry_empties fixed_cache1 demo_key (repeat Byte.x00 180)
           60 fixed_world1 200).
  - exact fixed_Inv1.
  - vm_compute. reflexivity.
  - vm_compute. discriminate.
  - vm_compute. discriminate.
  - vm_compute. reflexivity.
  - vm_compute. apply le_n.
Defined.

(** The entry that was there is gone after that call. *)
Example too_large_entry_empties_run :
  cache_t_get fixed_cache1 demo_key None (still_world 1000)
  = Ret (Some {| data_ptr := 29; datalen := 2; ttl_left := 60 |},
         snd (tick (still_world 1000))) /\
  cache_t_get
    (ret_cache (cache_t_set 200 fixed_cache1 demo_key (repeat Byte.x00 180) 60
                  fixed_world1))
    demo_key None (still_world 1000)
  = Ret (None, still_world 1000).
Proof. split; vm_compute; reflexivity. Qed.

Definition jump_resize_world : world :=
  match jump_resize with Ret (_, _, w) => w | _ => jump_w end.

(** Witness of X10: the resize of the cache of two slow cycles. *)
Lemma resize_empties_witness :
  (forall key stamp w2,
     cache_t_get jump_resize_cache key stamp w2 = Ret (None, w2)) /\
  100 <= c_size jump_resize_cache <= 1000000000 /\
  c_writer jump_resize_cache = c_hsize jump_resize_cache /\
  c_oldest jump_resize_cache = c_size jump_resize_cache /\
  c_unused jump_resize_cache = c_size jump_resize_cache /\
  c_cache_motion jump_resize_cache = c_cache_motion jump_cache.
Proof.
  apply (resize_empties jump_cache jump_w jump_resize_cache jump_resize_world).
  - vm_compute. reflexivity.
  - vm_compute. reflexivity.
Defined.

(** [demo_cache1] after a [cache_t_set] of another key. *)
Definition demo_set_other : res (cache * world) :=
  cache_t_set 200 demo_cache1 other_key demo_v2 60 demo_world1.

Lemma demo_set_other_eq :
  cache_t_set 200 demo_cache1 other_key demo_v2 60 demo_world1
  = Ret (ret_cache demo_set_other, ret_world demo_set_other demo_world1).
Proof. vm_compute. reflexivity. Qed.

(** Witness of X11. *)
Lemma set_keeps_the_newest_witness :
  exists bk,
    wf demo_cache1 demo_arena1 [8] [] bk /\
    exists m' Lnew' Lold' bk' new k,
      wf (ret_cache demo_set_other) m' Lnew' Lold' bk' /\
      by_age Lnew' Lold' = new ++ firstn k (by_age [8] []) /\
      (length new <= 1)%nat /\
      (forall p, In p new -> key_at m' p = other_key /\ data_at m' p = demo_v2)
      /\
      (forall p, In p (firstn k (by_age [8] [])) ->
         key_at m' p = key_at demo_arena1 p /\
         data_at m' p = data_at demo_arena1 p /\
         expire_at m' p = expire_at demo_arena1 p).
Proof.
  destruct demo_wf1 as (bk & W & _). exists bk. split; [exact W|].
  exact (set_keeps_the_newest demo_cache1 demo_arena1 [8] [] bk other_key
           demo_v2 60 200 demo_world1 _ _ W demo_set_other_eq).
Defined.

(** Witness of X12. *)
Lemma set_with_room_keeps_all_witness :
  exists bk,
    wf demo_cache1 demo_arena1 [8] [] bk /\
    exists c' m' bk',
      cache_t_set 200 demo_cache1 other_key demo_v2 60 demo_world1
        = Ret (c', if is_default demo_world1
                   then add_global_motion
                          (Z.of_nat (length other_key)
                           + Z.of_nat (length demo_v2) + 20)
                          (snd (tick demo_world1))
                   else snd (tick demo_world1)) /\
      wf c' m' ([8] ++ [c_writer demo_cache1]) [] bk' /\
      c_writer c' = c_writer demo_cache1 + 20 + Z.of_nat (length other_key)
                    + Z.of_nat (length demo_v2) /\
      c_oldest c' = c_oldest demo_cache1 /\
      c_unused c' = c_unused demo_cache1 /\
      key_at m' (c_writer demo_cache1) = other_key /\
      data_at m' (c_writer demo_cache1) = demo_v2 /\
      (forall p, In p (by_age [8] []) ->
         key_at m' p = key_at demo_arena1 p /\
         data_at m' p = data_at demo_arena1 p /\
         expire_at m' p = expire_at demo_arena1 p).
Proof.
  destruct demo_wf1 as (bk & W & _). exists bk. split; [exact W|].
  apply (set_with_room_keeps_all demo_cache1 demo_arena1 [8] [] bk other_key
           demo_v2 60 200 demo_world1 W).
  - vm_compute. discriminate.
  - vm_compute. discriminate.
  - vm_compute. discriminate.
  - lia.
Defined.

(** Witness of X13. *)
Lemma set_counts_bytes_witness :
  exists bk,
    wf demo_cache1 demo_arena1 [8] [] bk /\
    let e := Z.of_nat (length other_key) + Z.of_nat (length demo_v2) + 20 in
    exists m' Lnew' Lold' bk',
      wf (ret_cache demo_set_other) m' Lnew' Lold' bk' /\
      (((exists k, by_age Lnew' Lold' = firstn k (by_age [8] [])) /\
        c_cache_motion (ret_cache demo_set_other) = c_cache_motion demo_cache1
        /\
        g_cache_motion (ret_world demo_set_other demo_world1)
        = g_cache_motion demo_world1) \/
       ((exists p k, by_age Lnew' Lold' = p :: firstn k (by_age [8] []) /\
                     key_at m' p = other_key /\ data_at m' p = demo_v2) /\
        c_cache_motion (ret_cache demo_set_other)
        = u64 (c_cache_motion demo_cache1 + e) /\
        g_cache_motion (ret_world demo_set_other demo_world1) =
          (if is_default demo_world1 then u64 (g_cache_motion demo_world1 + e)
           else g_cache_motion demo_world1))).
Proof.
  destruct demo_wf1 as (bk & W & _). exists bk. split; [exact W|].
  exact (set_counts_bytes demo_cache1 demo_arena1 [8] [] bk other_key
           demo_v2 60 200 demo_world1 _ _ W demo_set_other_eq).
Defined.

(** The counters of that witness, run: 23 bytes for the first entry, 23
    more for the second; the instance is not the default one. *)
Example set_counts_bytes_run :
  (c_cache_motion demo_cache, c_cache_motion demo_cache1,
   c_cache_motion (ret_cache demo_set_other),
   g_cache_motion (ret_world demo_set_other demo_world1))
  = (0, 23, 46, 0).
Proof. vm_compute. reflexivity. Qed.

(** Witness of X14: the lookup of [demo_key] after the [cache_t_set] of
    [other_key]. *)
Lemma set_keeps_other_lookups_witness :
  cache_t_get demo_cache1 demo_key None (still_world 1000)
  = Ret (Some {| data_ptr := 29; datalen := 2; ttl_left := 60 |},
         snd (tick (still_world 1000))) /\
  hit_data demo_cache1 {| data_ptr := 29; datalen := 2; ttl_left := 60 |}
  = hit_data (ret_cache demo_set_other)
      {| data_ptr := 29; datalen := 2; ttl_left := 60 |}.
Proof.
  apply (set_keeps_other_lookups 200 None (still_world 1000) demo_cache
           demo_world 200 [OpSet demo_key demo_v1 60] demo_cache1 demo_world1
           200 other_key demo_v2 60 (ret_cache demo_set_other)
           (ret_world demo_set_other demo_world1) demo_key None
           (still_world 1000) (still_world 1000) _
           (snd (tick (still_world 1000)))).
  - exact demo_new_eq.
  - vm_compute. reflexivity.
  - exact demo_set_other_eq.
  - discriminate.
  - vm_compute. reflexivity.
  - reflexivity.
Defined.

(** Witness of X15: the default instance, created with 200 bytes. *)
Lemma default_round_trip_witness :
  exists c,
    Some demo_cache = Some c /\ c_size c = clamp_size 200 /\
    (20 + Z.of_nat (length demo_key) + Z.of_nat (length demo_v1)
       <= c_size c - c_hsize c ->
     exists c' w2,
       cache_set 200 (Some demo_cache) demo_key demo_v1 60 demo_world
       = Ret (Some c', w2) /\
       is_default w2 = is_default demo_world /\
       c_size c' = c_size c /\ c_hsize c' = c_hsize c /\
       g_cache_motion w2 =
         u64 (g_cache_motion demo_world
              + (Z.of_nat (length demo_key) + Z.of_nat (length demo_v1)
                 + 20)) /\
       forall w3 dd,
         0 <= dd <= 60 -> tv_sec (clock w3 O) = 1000 + dd ->
         exists h w4,
           cache_get (Some c') demo_key w3 = Ret (Some h, w4) /\
           hit_data c' h = Some demo_v1 /\
           ttl_left h = 60 - dd) /\
    (c_size c - c_hsize c
       < 20 + Z.of_nat (length demo_key) + Z.of_nat (length demo_v1) ->
     cache_set 200 (Some demo_cache) demo_key demo_v1 60 demo_world
     = Ret (Some demo_cache, demo_world)).
Proof.
  apply (default_round_trip 200 None (still_world 1000) (Some demo_cache)
           demo_world demo_key demo_v1 60 1000 200).
  - vm_compute. reflexivity.
  - vm_compute. discriminate.
  - vm_compute. discriminate.
  - vm_compute. split; discriminate.
  - exact demo_at_time.
  - vm_compute. split; [discriminate|reflexivity].
  - lia.
Defined.

(** The global counter after the [cache_set] of that witness, and after
    the same call through [cache_t_set] on an instance that is not the
    default one. *)
Example default_round_trip_run :
  match cache_set 200 (Some demo_cache) demo_key demo_v1 60 demo_world with
  | Ret (_, w) => Some (g_cache_motion w)
  | _ => None
  end = Some 23 /\
  g_cache_motion demo_world1 = 0.
Proof. split; vm_compute; reflexivity. Qed.

(** Witness of X16. *)
Lemma cache_init_result_witness :
  (1 = 1 /\
   (exists c', Some demo_cache = Some c' /\ c_size c' = clamp_size 200) /\
   forall key w2, cache_get (Some demo_cache) key w2 = Ret (None, w2)) \/
  (1 = 0 /\ Some demo_cache = None).
Proof.
  apply (cache_init_result None 200 None (still_world 1000) 1
           (Some demo_cache) demo_world).
  vm_compute. reflexivity.
Defined.

(** An allocation that fails leaves the default instance as it was. *)
Example cache_init_failure_run :
  cache_init (Some demo_cache1) 4096 None (failing_world 2000)
  = Ret (0, Some demo_cache1, snd (alloc 4096 (failing_world 2000))).
Proof. vm_compute. reflexivity. Qed.

(** Witness of X17: the resize of the cache of two slow cycles. *)
Lemma resize_is_logged_witness :
  (true = false ->
   stdout jump_resize_world = stdout jump_w /\
   c_size jump_resize_cache = c_size jump_cache) /\
  (true = true ->
   exists newsize,
     stdout jump_resize_world = stdout jump_w ++ [(c_size jump_cache, newsize)]
     /\
     100 <= newsize <= 1000000000 /\
     (heap jump_w O = true -> c_size jump_resize_cache = newsize) /\
     (heap jump_w O = false -> c_size jump_resize_cache = c_size jump_cache)).
Proof.
  apply (resize_is_logged jump_cache jump_w true jump_resize_cache
           jump_resize_world).
  vm_compute. reflexivity.
Defined.

(** The line of that resize. *)
Example resize_is_logged_run : stdout jump_resize_world = [(200, 100)].
Proof. vm_compute. reflexivity. Qed.

(** [demo_cache1] after a second [cache_t_set] of [demo_key], with a time
    to live of 0: the arena holds the first copy at offset 8 and the
    second at offset 31. *)
Definition demo_set_zero : res (cache * world) :=
  cache_t_set 200 demo_cache1 demo_key demo_v2 0 demo_world1.

Definition demo_cache_zero : cache := ret_cache demo_set_zero.

Definition demo_arena_zero : arena :=
  match c_x demo_cache_zero with Some m => m | None => [] end.

Lemma demo_wf_zero :
  exists bk,
    wf demo_cache_zero demo_arena_zero [8; 31] [] bk /\
    keyed demo_cache_zero demo_arena_zero (by_age [8; 31] []) bk.
Proof.
  destruct demo_wf1 as (bk & W & HK).
  destruct (set_with_room demo_cache1 demo_arena1 [8] [] bk demo_key demo_v2 0
              200%nat demo_world1 W)
    as (c' & m' & bk' & E & W' & _ & _ & _ & _ & _ & _ & _ & HK');
    [vm_compute; discriminate|vm_compute; discriminate
    |vm_compute; discriminate|lia|].
  assert (E0 : cache_t_set 200 demo_cache1 demo_key demo_v2 0 demo_world1
               = Ret (demo_cache_zero, ret_world demo_set_zero demo_world1))
    by (vm_compute; reflexivity).
  rewrite E0 in E.
  assert (Ec : c' = demo_cache_zero) by congruence. subst c'.
  replace (c_writer demo_cache1) with 31 in W', HK'
    by (vm_compute; reflexivity).
  exists bk'.
  assert (m' = demo_arena_zero) as <-.
  { pose proof (wf_x _ _ _ _ _ W') as Hx. unfold demo_arena_zero.
    now rewrite Hx. }
  split; [exact W'|exact (HK' HK)].
Qed.

(** Witness of X18: one second later the second copy has expired. *)
Lemma expired_copy_hides_older_witness :
  exists w',
    cache_t_get demo_cache_zero demo_key None (still_world 1001)
    = Ret (None, w').
Proof.
  destruct demo_wf_zero as (bk & W & HK).
  apply (expired_copy_hides_older demo_cache_zero demo_arena_zero [8; 31] []
           bk demo_key None (still_world 1001) 31 W HK).
  - vm_compute. reflexivity.
  - vm_compute. reflexivity.
Defined.

(** The first copy is still in the arena of that witness, with 59 seconds
    to live, and the lookup misses. *)
Example expired_copy_hides_older_run :
  key_at demo_arena_zero 8 = demo_key /\
  data_at demo_arena_zero 8 = demo_v1 /\
  expire_at demo_arena_zero 8 - tai_of_unix 1001 = 59 /\
  cache_t_get demo_cache_zero demo_key None (still_world 1001)
  = Ret (None, snd (tick (still_world 1001))).
Proof.
  split; [vm_compute; reflexivity|]. split; [vm_compute; reflexivity|].
  split; vm_compute; reflexivity.
Qed.

(** Witness of X19: the times to live 60, 5 and 300. *)
Lemma ttl_stats_summarise_witness :
  let s := ttl (c_cycle (fold_left cycle_stats_add_ttl [60; 5; 300]
                           demo_cache)) in
  ttl_count s = u64 (Z.of_nat (length [60; 5; 300])) /\
  ttl_total s = u64 (list_sum [60; 5; 300]) /\
  In (ttl_min s) [60; 5; 300] /\ In (ttl_max s) [60; 5; 300] /\
  forall t, In t [60; 5; 300] -> ttl_min s <= t <= ttl_max s.
Proof.
  apply (ttl_stats_summarise demo_cache [60; 5; 300]).
  - vm_compute. reflexivity.
  - discriminate.
  - intros t [<-|[<-|[<-|[]]]]; lia.
Defined.

(** The statistics of that witness, and what a time to live of 0 does to
    the least: it is taken for no value at all by the next call. *)
Example ttl_stats_run :
  ttl (c_cycle (fold_left cycle_stats_add_ttl [60; 5; 300] demo_cache))
  = {| ttl_count := 3; ttl_total := 365; ttl_min := 5; ttl_max := 300 |} /\
  ttl (c_cycle (fold_left cycle_stats_add_ttl [5; 0; 7] demo_cache))
  = {| ttl_count := 3; ttl_total := 12; ttl_min := 7; ttl_max := 7 |}.
Proof. split; vm_compute; reflexivity. Qed.
